(** * RuC: the AST builder and the LLVM IR emitter

    A shallow embedding of the two cores of the RuC compiler,
    [libs/compiler/builder.c] (type checking, implicit casts, constant
    folding, [printf] checking) and [libs/compiler/llvmgen.c] (lowering of the
    typed tree to textual LLVM IR), followed by the properties of the
    specification that concern them.

    Conventions of the embedding.
    - [item_t] is the 64-bit signed integer of the default build; its values
      are integers of [Z] and every arithmetic operation of the builder has
      its wrap-around written out ([item_wrap]).  The counters of the emitter
      ([register_num], [label_num], [block_num]) start at 1 and are only
      incremented, they are kept as integers of [Z].
    - [double] is IEEE binary64, given by the primitive floats.
    - The builder mutates the node arena, so [Module Tree] models the arena
      (an append-only vector of records, removal is a flag).  The emitter only
      reads the finished tree, recursively; [Module AST] gives it as the term
      the arena unfolds to.
    - The emitter writes lines to [sx->io]; one constructor of [instr] stands
      for one emitted line (or piece of a line) and carries the values that
      are formatted into it. *)

From Stdlib Require Import ZArith Lia List Bool String.
From Stdlib Require Import Floats.PrimFloat Floats.SpecFloat Floats.FloatOps.
From stdpp Require Import base list gmap.
Import ListNotations.

#[local] Set Warnings "-register-all".
#[local] Open Scope Z_scope.

(** ** Items and doubles *)

Abbreviation item_t := Z.

Definition ITEM_BITS : Z := 64.
Definition ITEM_MIN : item_t := - 2 ^ 63.
Definition ITEM_MAX : item_t := 2 ^ 63 - 1.

(** Reduction of an integer to the range of [item_t] (two's complement). *)
Definition item_wrap (z : Z) : item_t := (z + 2 ^ 63) mod 2 ^ 64 - 2 ^ 63.

Definition item_in_range (z : Z) : Prop := ITEM_MIN <= z <= ITEM_MAX.

(** [(double)value] for an item: rounding to nearest, ties to even. *)
Definition double_of_item (v : item_t) : float :=
  SF2Prim (binary_normalize 53 1024 v 0 false).

(** The 64 bits of a double.  A double occupies one argument slot of a node
    ([DOUBLE_SIZE] is 1); reading that slot as an item gives these bits. *)
Definition double_bits (d : float) : Z :=
  match Prim2SF d with
  | S754_zero s => if s then 2 ^ 63 else 0
  | S754_infinity s => (if s then 2 ^ 63 else 0) + 2047 * 2 ^ 52
  | S754_nan => 2047 * 2 ^ 52 + 2 ^ 51
  | S754_finite s m e =>
      (if s then 2 ^ 63 else 0)
      + (if Z.pos m <? 2 ^ 52 then Z.pos m
         else (e + 1075) * 2 ^ 52 + (Z.pos m - 2 ^ 52))
  end.

Definition double_of_bits (z : Z) : float :=
  let b := z mod 2 ^ 64 in
  let s := 2 ^ 63 <=? b in
  let ex := (b / 2 ^ 52) mod 2048 in
  let fr := b mod 2 ^ 52 in
  SF2Prim
    (if ex =? 0 then
       if fr =? 0 then S754_zero s else S754_finite s (Z.to_pos fr) (-1074)
     else if ex =? 2047 then
       if fr =? 0 then S754_infinity s else S754_nan
     else S754_finite s (Z.to_pos (fr + 2 ^ 52)) (ex - 1075)).

Definition DOUBLE_SIZE : Z := 1.

(** ** Types

    Modelled from the spec: [syntax.h] is not among the sources.  "Types form
    a closed sum with shared integer identity ... each distinct composite
    type has exactly one id (structural deduplication by key); primitive ids
    are a fixed prefix".  A type id is therefore given by the structure it
    stands for; a primitive id is its class tag. *)

Inductive type_t : Type :=
| TYPE_VARARG | TYPE_NULL_POINTER | TYPE_FILE | TYPE_VOID | TYPE_BOOLEAN
| TYPE_FLOATING | TYPE_CHARACTER | TYPE_INTEGER | TYPE_UNDEFINED
| TYPE_FUNCTION | TYPE_STRUCTURE | TYPE_ARRAY | TYPE_POINTER
| TYPE_ENUM | TYPE_ENUM_FIELD.

Inductive type : Type :=
| type_primitive (c : type_t)
| type_enum (id : Z)
| type_enum_field (enum_id : Z)
| type_pointer (element : type)
| type_array (element : type)
| type_structure (members : list (Z * type))
| type_function (return_type : type) (parameters : list type).

Coercion type_primitive : type_t >-> type.

Definition type_t_eqb (a b : type_t) : bool :=
  match a, b with
  | TYPE_VARARG, TYPE_VARARG | TYPE_NULL_POINTER, TYPE_NULL_POINTER
  | TYPE_FILE, TYPE_FILE | TYPE_VOID, TYPE_VOID | TYPE_BOOLEAN, TYPE_BOOLEAN
  | TYPE_FLOATING, TYPE_FLOATING | TYPE_CHARACTER, TYPE_CHARACTER
  | TYPE_INTEGER, TYPE_INTEGER | TYPE_UNDEFINED, TYPE_UNDEFINED
  | TYPE_FUNCTION, TYPE_FUNCTION | TYPE_STRUCTURE, TYPE_STRUCTURE
  | TYPE_ARRAY, TYPE_ARRAY | TYPE_POINTER, TYPE_POINTER
  | TYPE_ENUM, TYPE_ENUM | TYPE_ENUM_FIELD, TYPE_ENUM_FIELD => true
  | _, _ => false
  end.

(** Equality of type ids ([==] on [item_t] in the source). *)
Fixpoint type_eqb (a b : type) {struct a} : bool :=
  match a, b with
  | type_primitive c, type_primitive c' => type_t_eqb c c'
  | type_enum i, type_enum i' => i =? i'
  | type_enum_field i, type_enum_field i' => i =? i'
  | type_pointer e, type_pointer e' => type_eqb e e'
  | type_array e, type_array e' => type_eqb e e'
  | type_structure ms, type_structure ms' =>
      (fix members (l l' : list (Z * type)) {struct l} : bool :=
         match l, l' with
         | [], [] => true
         | (n, t) :: r, (n', t') :: r' =>
             (n =? n') && type_eqb t t' && members r r'
         | _, _ => false
         end) ms ms'
  | type_function r ps, type_function r' ps' =>
      type_eqb r r'
      && (fix params (l l' : list type) {struct l} : bool :=
            match l, l' with
            | [], [] => true
            | t :: r, t' :: r' => type_eqb t t' && params r r'
            | _, _ => false
            end) ps ps'
  | _, _ => false
  end.

Definition type_get_class (t : type) : type_t :=
  match t with
  | type_primitive c => c
  | type_enum _ => TYPE_ENUM
  | type_enum_field _ => TYPE_ENUM_FIELD
  | type_pointer _ => TYPE_POINTER
  | type_array _ => TYPE_ARRAY
  | type_structure _ => TYPE_STRUCTURE
  | type_function _ _ => TYPE_FUNCTION
  end.

Definition type_is_floating (t : type) : bool := type_eqb t TYPE_FLOATING.
Definition type_is_void (t : type) : bool := type_eqb t TYPE_VOID.
Definition type_is_null_pointer (t : type) : bool := type_eqb t TYPE_NULL_POINTER.

Definition type_is_array (t : type) : bool :=
  match t with type_array _ => true | _ => false end.
Definition type_is_pointer (t : type) : bool :=
  match t with type_pointer _ => true | _ => false end.
Definition type_is_structure (t : type) : bool :=
  match t with type_structure _ => true | _ => false end.
Definition type_is_function (t : type) : bool :=
  match t with type_function _ _ => true | _ => false end.
Definition type_is_enum (t : type) : bool :=
  match t with type_enum _ => true | _ => false end.
Definition type_is_enum_field (t : type) : bool :=
  match t with type_enum_field _ => true | _ => false end.

Definition type_array_get_element_type (t : type) : type :=
  match t with type_array e => e | _ => TYPE_UNDEFINED end.
Definition type_pointer_get_element_type (t : type) : type :=
  match t with type_pointer e => e | _ => TYPE_UNDEFINED end.
Definition type_function_get_return_type (t : type) : type :=
  match t with type_function r _ => r | _ => TYPE_UNDEFINED end.
Definition type_function_get_parameters (t : type) : list type :=
  match t with type_function _ ps => ps | _ => [] end.
Definition type_function_get_parameter_amount (t : type) : nat :=
  length (type_function_get_parameters t).
Definition type_function_get_parameter_type (t : type) (i : nat) : type :=
  nth i (type_function_get_parameters t) (type_primitive TYPE_UNDEFINED).
Definition type_structure_get_members (t : type) : list (Z * type) :=
  match t with type_structure ms => ms | _ => [] end.
Definition type_structure_get_member_amount (t : type) : nat :=
  length (type_structure_get_members t).
Definition type_structure_get_member_type (t : type) (i : nat) : type :=
  nth i (map snd (type_structure_get_members t)) (type_primitive TYPE_UNDEFINED).

(** ** Operators, categories, diagnostics *)

Inductive category_t : Type := LVALUE | RVALUE.

Inductive unary_t : Type :=
| UN_POSTINC | UN_POSTDEC | UN_PREINC | UN_PREDEC | UN_ADDRESS
| UN_INDIRECTION | UN_MINUS | UN_NOT | UN_LOGNOT | UN_ABS | UN_UPB.

Inductive binary_t : Type :=
| BIN_MUL | BIN_DIV | BIN_REM | BIN_ADD | BIN_SUB | BIN_SHL | BIN_SHR
| BIN_LT | BIN_GT | BIN_LE | BIN_GE | BIN_EQ | BIN_NE
| BIN_AND | BIN_XOR | BIN_OR | BIN_LOG_AND | BIN_LOG_OR
| BIN_ASSIGN | BIN_REM_ASSIGN | BIN_SHL_ASSIGN | BIN_SHR_ASSIGN
| BIN_AND_ASSIGN | BIN_XOR_ASSIGN | BIN_OR_ASSIGN
| BIN_MUL_ASSIGN | BIN_DIV_ASSIGN | BIN_ADD_ASSIGN | BIN_SUB_ASSIGN
| BIN_COMMA.

Definition operation_is_assignment (op : binary_t) : bool :=
  match op with
  | BIN_ASSIGN | BIN_REM_ASSIGN | BIN_SHL_ASSIGN | BIN_SHR_ASSIGN
  | BIN_AND_ASSIGN | BIN_XOR_ASSIGN | BIN_OR_ASSIGN
  | BIN_MUL_ASSIGN | BIN_DIV_ASSIGN | BIN_ADD_ASSIGN | BIN_SUB_ASSIGN => true
  | _ => false
  end.

Inductive expression_t : Type :=
| EXPR_IDENTIFIER | EXPR_LITERAL | EXPR_SUBSCRIPT | EXPR_CALL | EXPR_MEMBER
| EXPR_CAST | EXPR_UNARY | EXPR_BINARY | EXPR_TERNARY | EXPR_INITIALIZER
| EXPR_INLINE | EXPR_INVALID.

Definition expression_t_eqb (a b : expression_t) : bool :=
  match a, b with
  | EXPR_IDENTIFIER, EXPR_IDENTIFIER | EXPR_LITERAL, EXPR_LITERAL
  | EXPR_SUBSCRIPT, EXPR_SUBSCRIPT | EXPR_CALL, EXPR_CALL
  | EXPR_MEMBER, EXPR_MEMBER | EXPR_CAST, EXPR_CAST | EXPR_UNARY, EXPR_UNARY
  | EXPR_BINARY, EXPR_BINARY | EXPR_TERNARY, EXPR_TERNARY
  | EXPR_INITIALIZER, EXPR_INITIALIZER | EXPR_INLINE, EXPR_INLINE
  | EXPR_INVALID, EXPR_INVALID => true
  | _, _ => false
  end.

Inductive err_t : Type :=
| printf_fst_not_string | too_many_printf_args | wrong_printf_argument_amount
| expected_format_specifier | unknown_format_specifier
| wrong_init | wrong_init_in_actparam | typecheck_binary_expr
| unassignable_expression
| such_array_is_not_supported | too_many_arguments
| array_borders_cannot_be_static_dynamic.

Record location : Type := { loc_begin : Z; loc_end : Z }.

(** ** The tables of [syntax]

    The identifier table, the string pool and the type queries whose
    definition lies outside the sources at hand are parameters of the
    development: every function below that receives [sx] in the source
    receives this record. *)

Record syntax : Type := {
  type_is_integer : type -> bool;
  type_string : type;
  ident_get_type : Z -> type;
  ident_is_local : Z -> bool;
  ident_get_spelling : Z -> string;
  string_get : Z -> list Z;     (* the symbols (code points) of a pooled string *)
  strings_length : Z -> Z;      (* its length in bytes *)
  ref_main : Z;
  BEGIN_USER_FUNC : Z
}.

Definition type_is_string (sx : syntax) (t : type) : bool :=
  type_eqb t (type_string sx).

(** An argument slot of a node holds what was stored in it: an item, a
    double or a type id. *)
Inductive arg : Type :=
| AItem (z : item_t)
| ADouble (d : float)
| AType (t : type).

Definition arg_get_item (a : option arg) : item_t :=
  match a with
  | Some (AItem z) => z
  | Some (ADouble d) => item_wrap (double_bits d)
  | _ => 0
  end.

Definition arg_get_double (a : option arg) : float :=
  match a with
  | Some (ADouble d) => d
  | Some (AItem z) => double_of_bits z
  | _ => double_of_bits 0
  end.

Definition arg_get_type (a : option arg) : type :=
  match a with
  | Some (AType t) => t
  | _ => TYPE_UNDEFINED
  end.

(** ** The node arena (builder's view of the tree)

    Modelled from the spec: [tree.h] and [AST.h] are not among the sources.
    "AST nodes are allocated in a single append-only arena.  Every node
    carries a class tag, one or more integer-sized arguments (type id,
    category, operator code, identifier id, literal payload, source-span
    begin/end), and an ordered child list.  Operators on nodes include
    node_add_child, node_insert (in-place replacement preserving parent
    link), node_remove (logical deletion).  A distinguished broken node
    sentinel is returned whenever construction detects an error."

    The argument layout of an expression node is the one [build_cast_expression]
    writes: type, category, payload, begin, end. *)

Module Tree.

Inductive node : Type :=
| node_broken
| node_at (index : nat).

Definition node_is_correct (nd : node) : bool :=
  match nd with node_at _ => true | node_broken => false end.

Definition node_eqb (a b : node) : bool :=
  match a, b with
  | node_broken, node_broken => true
  | node_at i, node_at j => Nat.eqb i j
  | _, _ => false
  end.

Inductive operation_t : Type :=
| OP_IDENTIFIER | OP_LITERAL | OP_SLICE | OP_CALL | OP_SELECT | OP_CAST
| OP_UNARY | OP_BINARY | OP_TERNARY | OP_LIST | OP_INLINE | OP_BLOCK.

Record node_data : Type := {
  nd_type : operation_t;
  nd_args : list arg;
  nd_children : list nat;
  nd_removed : bool
}.

Abbreviation vector := (list node_data).

Definition node_get (tr : vector) (nd : node) : option node_data :=
  match nd with
  | node_at i => tr !! i
  | node_broken => None
  end.

Definition node_get_arg (tr : vector) (nd : node) (k : nat) : option arg :=
  match node_get tr nd with
  | Some r => nd_args r !! k
  | None => None
  end.

Definition node_get_argc (tr : vector) (nd : node) : nat :=
  match node_get tr nd with
  | Some r => length (nd_args r)
  | None => O
  end.

Definition node_get_amount (tr : vector) (nd : node) : nat :=
  match node_get tr nd with
  | Some r => length (nd_children r)
  | None => O
  end.

Definition node_get_child (tr : vector) (nd : node) (k : nat) : node :=
  match node_get tr nd with
  | Some r => match nd_children r !! k with
              | Some c => node_at c
              | None => node_broken
              end
  | None => node_broken
  end.

Definition set_args (a : list arg) (r : node_data) : node_data :=
  {| nd_type := nd_type r; nd_args := a;
     nd_children := nd_children r; nd_removed := nd_removed r |}.

Definition set_children (c : list nat) (r : node_data) : node_data :=
  {| nd_type := nd_type r; nd_args := nd_args r;
     nd_children := c; nd_removed := nd_removed r |}.

Definition set_removed (b : bool) (r : node_data) : node_data :=
  {| nd_type := nd_type r; nd_args := nd_args r;
     nd_children := nd_children r; nd_removed := b |}.

Definition node_set_arg (tr : vector) (nd : node) (k : nat) (a : arg) : vector :=
  match nd with
  | node_at i => alter (fun r => set_args (<[k := a]> (nd_args r)) r) i tr
  | node_broken => tr
  end.

Definition replace_child (old new : nat) (r : node_data) : node_data :=
  set_children
    ((fun c => if Nat.eqb c old then new else c) <$> nd_children r) r.

Definition drop_child (old : nat) (r : node_data) : node_data :=
  set_children (filter (fun c => c <> old) (nd_children r)) r.

(** [node_insert nd type argc]: a new node with [argc] arguments takes the
    place of [nd] under its parent, and [nd] becomes its only child. *)
Definition node_insert (tr : vector) (nd : node) (op : operation_t) (argc : nat)
  : vector * node :=
  match nd with
  | node_at i =>
      ((replace_child i (length tr) <$> tr)
         ++ [ {| nd_type := op; nd_args := replicate argc (AItem 0);
                 nd_children := [i]; nd_removed := false |} ],
       node_at (length tr))
  | node_broken => (tr, node_broken)
  end.

(** [node_add_child nd type argc]: a new last child of [nd]. *)
Definition node_add_child (tr : vector) (nd : node) (op : operation_t) (argc : nat)
  : vector * node :=
  match nd with
  | node_at i =>
      (alter (fun r => set_children (nd_children r ++ [length tr]) r) i tr
         ++ [ {| nd_type := op; nd_args := replicate argc (AItem 0);
                 nd_children := []; nd_removed := false |} ],
       node_at (length tr))
  | node_broken => (tr, node_broken)
  end.

(** [node_remove nd]: logical deletion, the node is flagged and leaves the
    child list of its parent. *)
Definition node_remove (tr : vector) (nd : node) : vector :=
  match nd with
  | node_at i => alter (set_removed true) i (drop_child i <$> tr)
  | node_broken => tr
  end.

(** Move [nd] under [parent] as its last child. *)
Definition node_move_under (tr : vector) (parent nd : node) : vector :=
  match parent, nd with
  | node_at p, node_at i =>
      alter (fun r => set_children (nd_children r ++ [i]) r) p
        (drop_child i <$> tr)
  | _, _ => tr
  end.

Definition category_item (c : category_t) : item_t :=
  match c with LVALUE => 0 | RVALUE => 1 end.

Definition binary_item (op : binary_t) : item_t :=
  match op with
  | BIN_MUL => 0 | BIN_DIV => 1 | BIN_REM => 2 | BIN_ADD => 3 | BIN_SUB => 4
  | BIN_SHL => 5 | BIN_SHR => 6 | BIN_LT => 7 | BIN_GT => 8 | BIN_LE => 9
  | BIN_GE => 10 | BIN_EQ => 11 | BIN_NE => 12 | BIN_AND => 13
  | BIN_XOR => 14 | BIN_OR => 15 | BIN_LOG_AND => 16 | BIN_LOG_OR => 17
  | BIN_ASSIGN => 18 | BIN_REM_ASSIGN => 19 | BIN_SHL_ASSIGN => 20
  | BIN_SHR_ASSIGN => 21 | BIN_AND_ASSIGN => 22 | BIN_XOR_ASSIGN => 23
  | BIN_OR_ASSIGN => 24 | BIN_MUL_ASSIGN => 25 | BIN_DIV_ASSIGN => 26
  | BIN_ADD_ASSIGN => 27 | BIN_SUB_ASSIGN => 28 | BIN_COMMA => 29
  end.

Definition expression_get_class (tr : vector) (nd : node) : expression_t :=
  match node_get tr nd with
  | Some r =>
      match nd_type r with
      | OP_IDENTIFIER => EXPR_IDENTIFIER
      | OP_LITERAL => EXPR_LITERAL
      | OP_SLICE => EXPR_SUBSCRIPT
      | OP_CALL => EXPR_CALL
      | OP_SELECT => EXPR_MEMBER
      | OP_CAST => EXPR_CAST
      | OP_UNARY => EXPR_UNARY
      | OP_BINARY => EXPR_BINARY
      | OP_TERNARY => EXPR_TERNARY
      | OP_LIST => EXPR_INITIALIZER
      | OP_INLINE => EXPR_INLINE
      | OP_BLOCK => EXPR_INVALID
      end
  | None => EXPR_INVALID
  end.

Definition expression_get_type (tr : vector) (nd : node) : type :=
  arg_get_type (node_get_arg tr nd 0).

Definition node_get_location (tr : vector) (nd : node) : location :=
  let n := node_get_argc tr nd in
  {| loc_begin := arg_get_item (node_get_arg tr nd (n - 2));
     loc_end := arg_get_item (node_get_arg tr nd (n - 1)) |}.

Definition expression_literal_get_integer (tr : vector) (nd : node) : item_t :=
  arg_get_item (node_get_arg tr nd 2).
Definition expression_literal_get_string (tr : vector) (nd : node) : item_t :=
  arg_get_item (node_get_arg tr nd 2).
Definition expression_literal_get_floating (tr : vector) (nd : node) : float :=
  arg_get_double (node_get_arg tr nd 2).

Definition expression_initializer_get_size (tr : vector) (nd : node) : nat :=
  node_get_amount tr nd.
Definition expression_initializer_get_subexpr (tr : vector) (nd : node) (i : nat)
  : node := node_get_child tr nd i.
Definition expression_initializer_set_type (tr : vector) (nd : node) (t : type)
  : vector := node_set_arg tr nd 0 (AType t).

(** The five arguments of an expression node. *)
Definition stamp (tr : vector) (nd : node) (t : type) (c : category_t)
  (payload : arg) (loc : location) : vector :=
  let tr := node_set_arg tr nd 0 (AType t) in
  let tr := node_set_arg tr nd 1 (AItem (category_item c)) in
  let tr := node_set_arg tr nd 2 payload in
  let tr := node_set_arg tr nd 3 (AItem (loc_begin loc)) in
  node_set_arg tr nd 4 (AItem (loc_end loc)).

Definition expression_literal (tr : vector) (context : node) (t : type)
  (payload : arg) (loc : location) : vector * node :=
  let '(tr, nd) := node_add_child tr context OP_LITERAL 5 in
  (stamp tr nd t RVALUE payload loc, nd).

Definition expression_cast (tr : vector) (target_type source_type : type)
  (expr : node) (loc : location) : vector * node :=
  let '(tr, nd) := node_insert tr expr OP_CAST 5 in
  (stamp tr nd target_type RVALUE (AType source_type) loc, nd).

Definition expression_binary (tr : vector) (t : type) (LHS RHS : node)
  (op : binary_t) (loc : location) : vector * node :=
  let '(tr, nd) := node_insert tr LHS OP_BINARY 5 in
  let tr := node_move_under tr nd RHS in
  (stamp tr nd t RVALUE (AItem (binary_item op)) loc, nd).

Definition expression_call (tr : vector) (t : type) (callee : node)
  (args : list node) (loc : location) : vector * node :=
  let '(tr, nd) := node_insert tr callee OP_CALL 5 in
  let tr := fold_left (fun tr a => node_move_under tr nd a) args tr in
  (stamp tr nd t RVALUE (AItem (Z.of_nat (length args))) loc, nd).

(** Modelled from the spec: the constructor of a unary expression and the
    reader of a boolean literal are in [AST.h], like the ones above.  A
    unary expression is a new node in the place of its operand, which
    becomes its child; the payload of a boolean literal is 0 or 1. *)
Definition unary_item (op : unary_t) : item_t :=
  match op with
  | UN_POSTINC => 0 | UN_POSTDEC => 1 | UN_PREINC => 2 | UN_PREDEC => 3
  | UN_ADDRESS => 4 | UN_INDIRECTION => 5 | UN_MINUS => 6 | UN_NOT => 7
  | UN_LOGNOT => 8 | UN_ABS => 9 | UN_UPB => 10
  end.

Definition expression_unary (tr : vector) (t : type) (ctg : category_t)
  (expr : node) (op : unary_t) (loc : location) : vector * node :=
  let '(tr, nd) := node_insert tr expr OP_UNARY 5 in
  (stamp tr nd t ctg (AItem (unary_item op)) loc, nd).

Definition expression_literal_get_boolean (tr : vector) (nd : node) : bool :=
  negb (arg_get_item (node_get_arg tr nd 2) =? 0).

End Tree.

(** ** The builder ([builder.c]) *)

Module Builder.
Import Tree.

Definition MAX_PRINTF_ARGS : nat := 20.

(** [bldr->sx] (its tables, its tree and its reporter), [bldr->context] and
    [bldr->func_type]. *)
Record builder : Type := {
  sx : syntax;
  tree : vector;
  reports : list (location * err_t);
  context : node;
  func_type : type
}.

Definition set_tree (tr : vector) (b : builder) : builder :=
  {| sx := sx b; tree := tr; reports := reports b;
     context := context b; func_type := func_type b |}.

Definition add_report (r : location * err_t) (b : builder) : builder :=
  {| sx := sx b; tree := tree b; reports := reports b ++ [r];
     context := context b; func_type := func_type b |}.

(** A call of a builder function returns a value and the new state, or runs
    into an integer operation that C leaves undefined (a division by zero
    traps), or, for the one recursive function, exhausts the recursion
    budget of the model. *)
Inductive outcome (A : Type) : Type :=
| Returns (a : A) (bldr : builder)
| Undefined
| OutOfFuel.

Arguments Returns {A} a bldr.
Arguments Undefined {A}.
Arguments OutOfFuel {A}.

Definition M (A : Type) : Type := builder -> outcome A.

Definition ret {A : Type} (a : A) : M A := fun b => Returns a b.

Definition bind {A B : Type} (m : M A) (k : A -> M B) : M B :=
  fun b =>
    match m b with
    | Returns a b' => k a b'
    | Undefined => Undefined
    | OutOfFuel => OutOfFuel
    end.

Notation "'let*' x ':=' m 'in' k" := (bind m (fun x => k))
  (at level 10, x name, m at level 100, k at level 200, only parsing).
Notation "'do' m 'then' k" := (bind m (fun _ => k))
  (at level 10, m at level 100, k at level 200, only parsing).

Definition with_tree {A : Type} (f : vector -> A) : M A :=
  fun b => Returns (f (tree b)) b.

Definition on_tree (f : vector -> vector) : M unit :=
  fun b => Returns tt (set_tree (f (tree b)) b).

Definition in_tree (f : vector -> vector * node) : M node :=
  fun b => let '(tr, nd) := f (tree b) in Returns nd (set_tree tr b).

Definition defined {A : Type} (o : option A) : M A :=
  fun b => match o with Some a => Returns a b | None => Undefined end.

Definition semantic_error (loc : location) (num : err_t) : M unit :=
  fun b => Returns tt (add_report (loc, num) b).

(** *** Integer operators of C on [item_t]

    The builder evaluates the operators of C on operands of type [item_t],
    with the arithmetic of the machines the compiler is built for.  A
    quotient or a remainder has no value when the divisor is zero or when
    the least value is divided by [-1]: the division traps, and the builder
    has no test for these operands.  Sums, differences, products and left
    shifts wrap around (two's complement); the count of a shift is taken
    modulo 64, the builder having no test for a count that is not from 0 to
    63; the right shift of a signed value is arithmetic. *)

Definition c_div (l r : item_t) : option item_t :=
  if (r =? 0) || ((l =? ITEM_MIN) && (r =? -1)) then None
  else Some (Z.quot l r).

Definition c_rem (l r : item_t) : option item_t :=
  if (r =? 0) || ((l =? ITEM_MIN) && (r =? -1)) then None
  else Some (Z.rem l r).

Definition c_shl (l r : item_t) : item_t :=
  item_wrap (Z.shiftl l (r mod ITEM_BITS)).

Definition c_shr (l r : item_t) : item_t :=
  Z.shiftr l (r mod ITEM_BITS).

(** *** Literals *)

Definition build_boolean_literal_expression (value : bool) (loc : location)
  : M node :=
  fun b =>
    in_tree (fun tr => expression_literal tr (context b) TYPE_BOOLEAN
                         (AItem (if value then 1 else 0)) loc) b.

Definition build_integer_literal_expression (value : item_t) (loc : location)
  : M node :=
  fun b =>
    in_tree (fun tr => expression_literal tr (context b) TYPE_INTEGER
                         (AItem value) loc) b.

Definition build_floating_literal_expression (value : float) (loc : location)
  : M node :=
  fun b =>
    in_tree (fun tr => expression_literal tr (context b) TYPE_FLOATING
                         (ADouble value) loc) b.

(** *** [build_cast_expression] *)

Definition build_cast_expression (target_type : type) (expr : node)
  (tr : vector) : vector * node :=
  if negb (node_is_correct expr) then (tr, node_broken)
  else
    let source_type := expression_get_type tr expr in
    let loc := node_get_location tr expr in
    if negb (type_eqb target_type source_type) then
      if expression_t_eqb (expression_get_class tr expr) EXPR_LITERAL then
        let value := expression_literal_get_integer tr expr in
        let '(tr, result) :=
          node_insert tr expr OP_LITERAL (Z.to_nat (DOUBLE_SIZE + 4)) in
        let tr := node_set_arg tr result 0 (AType TYPE_FLOATING) in
        let tr := node_set_arg tr result 1 (AItem (category_item RVALUE)) in
        let tr := node_set_arg tr result 2 (ADouble (double_of_item value)) in
        let tr := node_set_arg tr result (Z.to_nat (DOUBLE_SIZE + 2))
                    (AItem (loc_begin loc)) in
        let tr := node_set_arg tr result (Z.to_nat (DOUBLE_SIZE + 3))
                    (AItem (loc_end loc)) in
        let tr := node_remove tr expr in
        (tr, result)
      else expression_cast tr target_type source_type expr loc
    else (tr, expr).

Definition usual_arithmetic_conversions (LHS RHS : node)
  : M (type * node * node) :=
  let* LHS_type := with_tree (fun tr => expression_get_type tr LHS) in
  let* RHS_type := with_tree (fun tr => expression_get_type tr RHS) in
  if type_is_floating LHS_type || type_is_floating RHS_type then
    let* LHS' := in_tree (build_cast_expression TYPE_FLOATING LHS) in
    let* RHS' := in_tree (build_cast_expression TYPE_FLOATING RHS) in
    ret (type_primitive TYPE_FLOATING, LHS', RHS')
  else ret (type_primitive TYPE_INTEGER, LHS, RHS).

(** *** [fold_binary_expression] *)

Definition fold_binary_expression (t : type) (LHS RHS : node) (op : binary_t)
  (loc : location) : M node :=
  let* LHS_class := with_tree (fun tr => expression_get_class tr LHS) in
  let* RHS_class := with_tree (fun tr => expression_get_class tr RHS) in
  if negb (expression_t_eqb LHS_class EXPR_LITERAL)
     || negb (expression_t_eqb RHS_class EXPR_LITERAL)
  then in_tree (fun tr => expression_binary tr t LHS RHS op loc)
  else
    let* LHS_type := with_tree (fun tr => expression_get_type tr LHS) in
    match type_get_class LHS_type with
    | TYPE_ENUM | TYPE_INTEGER =>
        let* left_value := with_tree (fun tr => expression_literal_get_integer tr LHS) in
        let* right_value := with_tree (fun tr => expression_literal_get_integer tr RHS) in
        do on_tree (fun tr => node_remove tr LHS) then
        do on_tree (fun tr => node_remove tr RHS) then
        match op with
        | BIN_MUL =>
            build_integer_literal_expression (item_wrap (left_value * right_value)) loc
        | BIN_DIV =>
            let* v := defined (c_div left_value right_value) in
            build_integer_literal_expression v loc
        | BIN_REM =>
            let* v := defined (c_rem left_value right_value) in
            build_integer_literal_expression v loc
        | BIN_ADD =>
            build_integer_literal_expression (item_wrap (left_value + right_value)) loc
        | BIN_SUB =>
            build_integer_literal_expression (item_wrap (left_value - right_value)) loc
        | BIN_SHL =>
            build_integer_literal_expression (c_shl left_value right_value) loc
        | BIN_SHR =>
            build_integer_literal_expression (c_shr left_value right_value) loc
        | BIN_LT => build_boolean_literal_expression (left_value <? right_value) loc
        | BIN_GT => build_boolean_literal_expression (left_value >? right_value) loc
        | BIN_LE => build_boolean_literal_expression (left_value <=? right_value) loc
        | BIN_GE => build_boolean_literal_expression (left_value >=? right_value) loc
        | BIN_EQ => build_boolean_literal_expression (left_value =? right_value) loc
        | BIN_NE =>
            build_boolean_literal_expression (negb (left_value =? right_value)) loc
        | BIN_AND =>
            build_integer_literal_expression (Z.land left_value right_value) loc
        | BIN_XOR =>
            build_integer_literal_expression (Z.lxor left_value right_value) loc
        | BIN_OR =>
            build_integer_literal_expression (Z.lor left_value right_value) loc
        | BIN_LOG_AND =>
            build_boolean_literal_expression
              (negb (left_value =? 0) && negb (right_value =? 0)) loc
        | BIN_LOG_OR =>
            build_boolean_literal_expression
              (negb (left_value =? 0) || negb (right_value =? 0)) loc
        | _ => ret node_broken
        end
    | TYPE_FLOATING =>
        let* left_value := with_tree (fun tr => expression_literal_get_floating tr LHS) in
        let* right_value := with_tree (fun tr => expression_literal_get_floating tr RHS) in
        do on_tree (fun tr => node_remove tr LHS) then
        do on_tree (fun tr => node_remove tr RHS) then
        match op with
        | BIN_MUL =>
            build_floating_literal_expression (PrimFloat.mul left_value right_value) loc
        | BIN_DIV =>
            build_floating_literal_expression (PrimFloat.div left_value right_value) loc
        | BIN_ADD =>
            build_floating_literal_expression (PrimFloat.add left_value right_value) loc
        | BIN_SUB =>
            build_floating_literal_expression (PrimFloat.sub left_value right_value) loc
        | BIN_LT =>
            build_boolean_literal_expression (PrimFloat.ltb left_value right_value) loc
        | BIN_GT =>
            build_boolean_literal_expression (PrimFloat.ltb right_value left_value) loc
        | BIN_LE =>
            build_boolean_literal_expression (PrimFloat.leb left_value right_value) loc
        | BIN_GE =>
            build_boolean_literal_expression (PrimFloat.leb right_value left_value) loc
        | BIN_EQ =>
            build_boolean_literal_expression (PrimFloat.eqb left_value right_value) loc
        | BIN_NE =>
            build_boolean_literal_expression
              (negb (PrimFloat.eqb left_value right_value)) loc
        | _ => ret node_broken
        end
    | _ => in_tree (fun tr => expression_binary tr t LHS RHS op loc)
    end.

(** *** [check_assignment_operands]

    The function recurses through the sub-expressions of an initializer
    list; [fuel] bounds the depth of that recursion.  The check on the
    broken node precedes everything else, as in the source. *)

Fixpoint check_assignment_operands (fuel : nat) (expected_type : type)
  (init : node) {struct fuel} : M (bool * node) :=
  if negb (node_is_correct init) then ret (true, init)
  else
    match fuel with
    | O => fun _ => OutOfFuel
    | S fuel =>
        fun bldr =>
        let sx := sx bldr in
        let loc := node_get_location (tree bldr) init in
        (if expression_t_eqb (expression_get_class (tree bldr) init) EXPR_INITIALIZER
         then
           let actual_inits := expression_initializer_get_size (tree bldr) init in
           let subexprs :=
             (fix loop (i : nat) (n : nat) (member_type : nat -> type) {struct n}
                : M bool :=
                match n with
                | O => ret true
                | S n =>
                    let* subexpr :=
                      with_tree (fun tr => expression_initializer_get_subexpr tr init i) in
                    let* r := check_assignment_operands fuel (member_type i) subexpr in
                    if negb (fst r) then ret false
                    else loop (S i) n member_type
                end) in
           if type_is_structure expected_type then
             let expected_inits := type_structure_get_member_amount expected_type in
             if negb (Nat.eqb expected_inits actual_inits) then
               do semantic_error loc wrong_init_in_actparam then
               ret (false, init)
             else
               let* ok :=
                 subexprs O actual_inits
                   (type_structure_get_member_type expected_type) in
               if negb ok then ret (false, init)
               else
                 do on_tree (fun tr => expression_initializer_set_type tr init expected_type) then
                 ret (true, init)
           else if type_is_array expected_type then
             let t := type_array_get_element_type expected_type in
             let* ok := subexprs O actual_inits (fun _ => t) in
             if negb ok then ret (false, init)
             else
               do on_tree (fun tr => expression_initializer_set_type tr init expected_type) then
               ret (true, init)
           else
             do semantic_error loc wrong_init then
             ret (false, init)
         else
           let actual_type := expression_get_type (tree bldr) init in
           if type_is_floating expected_type && type_is_integer sx actual_type then
             let* init' := in_tree (build_cast_expression expected_type init) in
             ret (true, init')
           else if type_is_enum expected_type && type_is_enum_field actual_type then
             ret (true, init)
           else if type_is_integer sx expected_type
                   && (type_is_enum actual_type || type_is_enum_field actual_type) then
             ret (true, init)
           else if type_is_integer sx expected_type && type_is_integer sx actual_type then
             ret (true, init)
           else if type_is_pointer expected_type && type_is_null_pointer actual_type then
             ret (true, init)
           else if type_eqb expected_type actual_type then
             ret (true, init)
           else
             do semantic_error loc wrong_init then
             ret (false, init)) bldr
    end.

(** *** [evaluate_args] and [build_printf_expression]

    Modelled from the spec: [utf8_symbol_size] and [utf8_convert] are not
    among the sources; the format string is given as the sequence of its
    symbols (code points), the scan stops at its end or at a NUL.  The
    Cyrillic aliases are U+0446, U+043B, U+0432 and U+0441. *)

Definition is_specifier_integer (c : Z) : bool :=
  (c =? 105) || (c =? 1094) || (c =? 99) || (c =? 1083).
Definition is_specifier_floating (c : Z) : bool :=
  (c =? 102) || (c =? 1074).
Definition is_specifier_string (c : Z) : bool :=
  (c =? 115) || (c =? 1089).

(** The loop of [evaluate_args]; [string] is what is left of the format at
    index [i].  The result is the value returned, with [format_types] and
    [placeholders] as the loop leaves them. *)
Fixpoint evaluate_args_loop (format_loc : location) (string : list Z)
  (args : nat) (format_types : list type) (placeholders : list Z)
  {struct string} : M (nat * list type * list Z) :=
  fun bldr =>
  match string with
  | [] => ret (args, format_types, placeholders) bldr
  | c :: rest =>
      if c =? 0 then ret (args, format_types, placeholders) bldr
      else if c =? 37 then
        let specifier := match rest with [] => 0 | s :: _ => s end in
        if negb (specifier =? 37) && Nat.eqb args MAX_PRINTF_ARGS then
          (do semantic_error format_loc too_many_printf_args then
           ret (O, format_types, placeholders)) bldr
        else
          let placeholders :=
            if negb (specifier =? 37) then <[args := specifier]> placeholders
            else placeholders in
          let continue (args : nat) (format_types : list type) :=
            match rest with
            | [] => ret (args, format_types, placeholders)
            | _ :: rest' =>
                evaluate_args_loop format_loc rest' args format_types placeholders
            end in
          if is_specifier_integer specifier then
            continue (S args) (<[args := type_primitive TYPE_INTEGER]> format_types) bldr
          else if is_specifier_floating specifier then
            continue (S args) (<[args := type_primitive TYPE_FLOATING]> format_types) bldr
          else if is_specifier_string specifier then
            continue (S args) (<[args := type_string (sx bldr)]> format_types) bldr
          else if specifier =? 37 then
            continue args format_types bldr
          else if specifier =? 0 then
            (do semantic_error format_loc expected_format_specifier then
             ret (O, format_types, placeholders)) bldr
          else
            (do semantic_error format_loc unknown_format_specifier then
             ret (O, format_types, placeholders)) bldr
      else evaluate_args_loop format_loc rest args format_types placeholders bldr
  end.

Definition evaluate_args (format_str : node) (format_types : list type)
  (placeholders : list Z) : M (nat * list type * list Z) :=
  fun bldr =>
    let str_index := expression_literal_get_string (tree bldr) format_str in
    let string := string_get (sx bldr) str_index in
    evaluate_args_loop (node_get_location (tree bldr) format_str) string O
      format_types placeholders bldr.

Definition node_vector_size (args : option (list node)) : nat :=
  match args with Some l => length l | None => O end.

Definition node_vector_get (args : list node) (i : nat) : node :=
  match args !! i with Some nd => nd | None => node_broken end.

Definition build_printf_expression (callee : node) (args : option (list node))
  (r_loc : location) : M node :=
  let argc := node_vector_size args in
  match args with
  | None =>
      do semantic_error r_loc printf_fst_not_string then ret node_broken
  | Some args =>
      if Nat.eqb argc O then
        do semantic_error r_loc printf_fst_not_string then ret node_broken
      else if Nat.leb MAX_PRINTF_ARGS argc then
        do semantic_error r_loc too_many_printf_args then ret node_broken
      else
        let fst_ := node_vector_get args O in
        let* fst_class := with_tree (fun tr => expression_get_class tr fst_) in
        let* fst_type := with_tree (fun tr => expression_get_type tr fst_) in
        let* fst_loc := with_tree (fun tr => node_get_location tr fst_) in
        fun bldr =>
        (if negb (expression_t_eqb fst_class EXPR_LITERAL)
            || negb (type_is_string (sx bldr) fst_type)
         then
           do semantic_error fst_loc printf_fst_not_string then ret node_broken
         else
           let* r :=
             evaluate_args fst_
               (replicate MAX_PRINTF_ARGS (type_primitive TYPE_UNDEFINED))
               (replicate MAX_PRINTF_ARGS 0) in
           let expected_args := fst (fst r) in
           let format_types := snd (fst r) in
           if negb (Nat.eqb expected_args (argc - 1)) then
             do semantic_error r_loc wrong_printf_argument_amount then
             ret node_broken
           else
             (fix loop (i : nat) (n : nat) (args : list node) {struct n} : M node :=
                match n with
                | O =>
                    let* callee_loc := with_tree (fun tr => node_get_location tr callee) in
                    let loc := {| loc_begin := loc_begin callee_loc;
                                  loc_end := loc_end r_loc |} in
                    in_tree (fun tr => expression_call tr TYPE_INTEGER callee args loc)
                | S n =>
                    let argument := node_vector_get args i in
                    let* r :=
                      check_assignment_operands (length (tree bldr))
                        (nth (i - 1) format_types (type_primitive TYPE_UNDEFINED))
                        argument in
                    if negb (fst r) then ret node_broken
                    else loop (S i) n (<[i := snd r]> args)
                end) 1%nat (argc - 1)%nat args) bldr
  end.

(** *** [fold_unary_expression]

    The negation of an integer is taken modulo [2 ^ 64], as the sums and
    the products of [fold_binary_expression] are. *)

Definition fold_unary_expression (t : type) (ctg : category_t) (expr : node)
  (op : unary_t) (loc : location) : M node :=
  let* expr_class := with_tree (fun tr => expression_get_class tr expr) in
  if negb (expression_t_eqb expr_class EXPR_LITERAL)
  then in_tree (fun tr => expression_unary tr t ctg expr op loc)
  else
    let* expr_type := with_tree (fun tr => expression_get_type tr expr) in
    match type_get_class expr_type with
    | TYPE_NULL_POINTER =>
        do on_tree (fun tr => node_remove tr expr) then
        build_boolean_literal_expression true loc
    | TYPE_BOOLEAN =>
        let* value := with_tree (fun tr => expression_literal_get_boolean tr expr) in
        do on_tree (fun tr => node_remove tr expr) then
        build_boolean_literal_expression (negb value) loc
    | TYPE_ENUM | TYPE_INTEGER =>
        let* value := with_tree (fun tr => expression_literal_get_integer tr expr) in
        do on_tree (fun tr => node_remove tr expr) then
        match op with
        | UN_MINUS => build_integer_literal_expression (item_wrap (- value)) loc
        | UN_NOT => build_integer_literal_expression (Z.lnot value) loc
        | UN_LOGNOT => build_boolean_literal_expression (value =? 0) loc
        | UN_ABS =>
            build_integer_literal_expression
              (if value >=? 0 then value else item_wrap (- value)) loc
        | _ => ret node_broken
        end
    | TYPE_FLOATING =>
        let* value := with_tree (fun tr => expression_literal_get_floating tr expr) in
        do on_tree (fun tr => node_remove tr expr) then
        match op with
        | UN_MINUS => build_floating_literal_expression (PrimFloat.opp value) loc
        | UN_ABS =>
            build_floating_literal_expression
              (if PrimFloat.leb PrimFloat.zero value then value
               else PrimFloat.opp value) loc
        | _ => ret node_broken
        end
    | _ => in_tree (fun tr => expression_unary tr t ctg expr op loc)
    end.

End Builder.

(** ** The typed tree (emitter's view)

    Modelled from the spec: [AST.h] is not among the sources.  "Expression
    class is one of: identifier, literal, subscript, call, member, cast,
    unary, binary, ternary, initializer, inline-compound.  Every expression
    node stores its type."  The fields of a constructor are what the
    accessors of the class return; an accessor applied to a node of another
    class is outside what the parser builds, the emitter below then leaves
    the state as it is. *)

Module AST.

Inductive expr : Type :=
| expr_broken
| expr_identifier (t : type) (id : Z)
| expr_literal (t : type) (payload : arg)
| expr_subscript (t : type) (base index : expr)
| expr_call (t : type) (callee : expr) (arguments : list expr)
| expr_member (t : type) (base : expr) (member_index : item_t)
| expr_cast (t : type) (source_type : type) (operand : expr)
| expr_unary (t : type) (op : unary_t) (operand : expr)
| expr_binary (t : type) (op : binary_t) (LHS RHS : expr)
| expr_ternary (t : type) (condition LHS RHS : expr)
| expr_initializer (t : type) (subexprs : list expr)
| expr_inline (t : type).

Definition expression_get_class (nd : expr) : expression_t :=
  match nd with
  | expr_broken => EXPR_INVALID
  | expr_identifier _ _ => EXPR_IDENTIFIER
  | expr_literal _ _ => EXPR_LITERAL
  | expr_subscript _ _ _ => EXPR_SUBSCRIPT
  | expr_call _ _ _ => EXPR_CALL
  | expr_member _ _ _ => EXPR_MEMBER
  | expr_cast _ _ _ => EXPR_CAST
  | expr_unary _ _ _ => EXPR_UNARY
  | expr_binary _ _ _ _ => EXPR_BINARY
  | expr_ternary _ _ _ _ => EXPR_TERNARY
  | expr_initializer _ _ => EXPR_INITIALIZER
  | expr_inline _ => EXPR_INLINE
  end.

Definition expression_get_type (nd : expr) : type :=
  match nd with
  | expr_broken => TYPE_UNDEFINED
  | expr_identifier t _ | expr_literal t _ | expr_subscript t _ _
  | expr_call t _ _ | expr_member t _ _ | expr_cast t _ _
  | expr_unary t _ _ | expr_binary t _ _ _ | expr_ternary t _ _ _
  | expr_initializer t _ | expr_inline t => t
  end.

Definition expression_identifier_get_id (nd : expr) : Z :=
  match nd with expr_identifier _ id => id | _ => 0 end.

Definition expression_literal_get_integer (nd : expr) : item_t :=
  match nd with expr_literal _ a => arg_get_item (Some a) | _ => 0 end.
Definition expression_literal_get_string (nd : expr) : Z :=
  match nd with expr_literal _ a => arg_get_item (Some a) | _ => 0 end.
Definition expression_literal_get_floating (nd : expr) : float :=
  match nd with expr_literal _ a => arg_get_double (Some a) | _ => double_of_bits 0 end.

Definition expression_initializer_get_size (nd : expr) : nat :=
  match nd with expr_initializer _ l => length l | _ => O end.

(** Statements and declarations.  A label is the [size_t] that
    [statement_labeled_get_label] and [statement_goto_get_label] return: the
    identifier of the user label. *)
Inductive stmt : Type :=
| stmt_declaration (declarators : list decl)
| stmt_labeled (label : Z) (substmt : stmt)
| stmt_case (expression : expr) (substmt : stmt)
| stmt_default (substmt : stmt)
| stmt_compound (substmts : list stmt)
| stmt_expr (expression : expr)
| stmt_null
| stmt_if (condition : expr) (then_substmt : stmt) (else_substmt : option stmt)
| stmt_switch (condition : expr) (body : stmt)
| stmt_while (condition : expr) (body : stmt)
| stmt_do (body : stmt) (condition : expr)
| stmt_for (inition : option stmt) (condition increment : option expr) (body : stmt)
| stmt_goto (label : Z)
| stmt_continue
| stmt_break
| stmt_return (expression : option expr)
| stmt_other
with decl : Type :=
| decl_variable (id : Z) (dim_exprs : list expr) (initializer : option expr)
| decl_function (id : Z) (params : list Z) (body : stmt)
| decl_other.

End AST.

(** ** The emitter ([llvmgen.c]) *)

Module LLVMGen.
Import AST.

Definition MAX_FUNCTION_ARGS : nat := 128.
Definition IS_STATIC : nat := 0.
Definition SIZE_MAX : Z := 2 ^ 64 - 1.
Definition MAX_DIMENSIONS : Z := SIZE_MAX - 2.

(** [size_t] arithmetic and the two conversions between [size_t] and
    [item_t]. *)
Definition size_wrap (z : Z) : Z := z mod 2 ^ 64.

Inductive answer_t : Type := AREG | ACONST | ALOGIC | AMEM | ASTR | ANULL.
Inductive location_t : Type := LREG | LMEM | LFREE.

Definition answer_eqb (a b : answer_t) : bool :=
  match a, b with
  | AREG, AREG | ACONST, ACONST | ALOGIC, ALOGIC | AMEM, AMEM
  | ASTR, ASTR | ANULL, ANULL => true
  | _, _ => false
  end.

Definition location_eqb (a b : location_t) : bool :=
  match a, b with
  | LREG, LREG | LMEM, LMEM | LFREE, LFREE => true
  | _, _ => false
  end.

(** *** Emitted lines *)

Inductive operand : Type :=
| O_reg (r : Z)
| O_int (c : item_t)
| O_double (d : float)
| O_null.

Inductive call_arg : Type :=
| CA_string (index : Z) (string_length : Z)
| CA_value (t : type) (v : operand).

Inductive instr : Type :=
(* [%.result = <op> <type> fst, snd]; the mnemonic is chosen by
   [operation_to_io] from the operator and [mnemonic_type] *)
| I_operation (result : Z) (op : binary_t) (mnemonic_type t : type)
    (pointer : bool) (fst snd : operand)
| I_load (result : Z) (t : type) (id : Z) (is_array is_local : bool)
| I_store (t : type) (value : operand) (value_is_var : bool) (id : Z)
    (is_array is_local : bool)
| I_zext (result reg : Z)
| I_label (label_num : item_t)
| I_br (label_num : item_t)
| I_br_cond (reg : Z) (label_true label_false : item_t)
(* the three lines of [to_code_stack_save] *)
| I_dyn_alloca (index : item_t)
| I_stacksave (result : Z)
| I_dyn_store (reg : Z) (index : item_t)
(* the two lines of [to_code_stack_load] *)
| I_dyn_load (result : Z) (index : item_t)
| I_stackrestore (reg : Z)
| I_array_head (key : Z) (is_local : bool)
| I_array_tail (dims : list item_t) (t : type) (is_local : bool)
| I_mul_nuw (result : Z) (fst snd : item_t)
| I_dynarr_alloca (key : Z) (t : type) (to_alloc : item_t)
| I_slice (result : Z) (id : Z) (cur_dimension : Z) (prev_slice : item_t)
    (t : type) (is_local : bool) (descriptor : list item_t) (index : operand)
| I_sitofp (result : Z) (source_type : type) (reg : Z) (target_type : type)
| I_call (result : option Z) (callee_type : type) (spelling : string)
    (arguments : list call_arg)
| I_member (result : Z) (t : type) (is_pointer : bool) (base : Z) (place : item_t)
| I_call_abs (result : Z) (t : type) (is_integer : bool) (reg : Z)
| I_phi (result : Z) (t : type) (then_value : operand) (label_then : item_t)
    (else_value : operand) (label_else : item_t)
| I_var_alloca (id : Z) (t : type)
| I_global_head (id : Z)
| I_global_value (t : type) (v : operand)
| I_global_common (t : type) (is_integer : bool)
| I_global_array_head (id : item_t) (N : nat) (t : type)
| I_global_array_item (v : operand) (last : bool)
| I_define (ret_type : type) (is_main : bool) (spelling : string)
    (param_types : list type)
| I_param_alloca (id : Z) (t : type)
| I_param_store (t : type) (i : nat) (id : Z)
| I_ret_void
| I_ret_const_integer (c : item_t)
| I_ret_const_double (d : float)
| I_ret_reg (t : type) (reg : Z)
| I_function_end.

(** *** The encoder state ([struct information]) *)

Record information : Type := {
  sx : syntax   (* [sx]: the tables *);
  io : list instr   (* [sx->io]: the lines written so far *);
  system_errors : list err_t   (* what [system_error] reported *);
  register_num : Z;
  label_num : item_t;
  init_num : item_t;
  block_num : item_t;
  request_reg : Z;
  variable_location : location_t;
  answer_reg : Z;
  answer_const : item_t;
  answer_string : Z;
  answer_const_double : float;
  answer_kind : answer_t;
  label_true : item_t;
  label_false : item_t;
  label_break : item_t;
  label_continue : item_t;
  label_ternary_end : item_t;
  arrays : gmap Z (list item_t);
  was_stack_functions : bool;
  was_dynamic : bool;
  was_file : bool;
  was_abs : bool;
  was_fabs : bool;
  was_function : gset Z;
  is_main : bool
}.

Definition set_io (v : list instr) (info : information) : information :=
  {| sx := sx info; io := v; system_errors := system_errors info;
     register_num := register_num info; label_num := label_num info;
     init_num := init_num info; block_num := block_num info;
     request_reg := request_reg info;
     variable_location := variable_location info;
     answer_reg := answer_reg info; answer_const := answer_const info;
     answer_string := answer_string info;
     answer_const_double := answer_const_double info;
     answer_kind := answer_kind info; label_true := label_true info;
     label_false := label_false info; label_break := label_break info;
     label_continue := label_continue info;
     label_ternary_end := label_ternary_end info; arrays := arrays info;
     was_stack_functions := was_stack_functions info;
     was_dynamic := was_dynamic info; was_file := was_file info;
     was_abs := was_abs info; was_fabs := was_fabs info;
     was_function := was_function info; is_main := is_main info |}.

Definition set_system_errors (v : list err_t) (info : information) : information :=
  {| sx := sx info; io := io info; system_errors := v;
     register_num := register_num info; label_num := label_num info;
     init_num := init_num info; block_num := block_num info;
     request_reg := request_reg info;
     variable_location := variable_location info;
     answer_reg := answer_reg info; answer_const := answer_const info;
     answer_string := answer_string info;
     answer_const_double := answer_const_double info;
     answer_kind := answer_kind info; label_true := label_true info;
     label_false := label_false info; label_break := label_break info;
     label_continue := label_continue info;
     label_ternary_end := label_ternary_end info; arrays := arrays info;
     was_stack_functions := was_stack_functions info;
     was_dynamic := was_dynamic info; was_file := was_file info;
     was_abs := was_abs info; was_fabs := was_fabs info;
     was_function := was_function info; is_main := is_main info |}.

Definition set_register_num (v : Z) (info : information) : information :=
  {| sx := sx info; io := io info; system_errors := system_errors info;
     register_num := v; label_num := label_num info;
     init_num := init_num info; block_num := block_num info;
     request_reg := request_reg info;
     variable_location := variable_location info;
     answer_reg := answer_reg info; answer_const := answer_const info;
     answer_string := answer_string info;
     answer_const_double := answer_const_double info;
     answer_kind := answer_kind info; label_true := label_true info;
     label_false := label_false info; label_break := label_break info;
     label_continue := label_continue info;
     label_ternary_end := label_ternary_end info; arrays := arrays info;
     was_stack_functions := was_stack_functions info;
     was_dynamic := was_dynamic info; was_file := was_file info;
     was_abs := was_abs info; was_fabs := was_fabs info;
     was_function := was_function info; is_main := is_main info |}.

Definition set_label_num (v : item_t) (info : information) : information :=
  {| sx := sx info; io := io info; system_errors := system_errors info;
     register_num := register_num info; label_num := v;
     init_num := init_num info; block_num := block_num info;
     request_reg := request_reg info;
     variable_location := variable_location info;
     answer_reg := answer_reg info; answer_const := answer_const info;
     answer_string := answer_string info;
     answer_const_double := answer_const_double info;
     answer_kind := answer_kind info; label_true := label_true info;
     label_false := label_false info; label_break := label_break info;
     label_continue := label_continue info;
     label_ternary_end := label_ternary_end info; arrays := arrays info;
     was_stack_functions := was_stack_functions info;
     was_dynamic := was_dynamic info; was_file := was_file info;
     was_abs := was_abs info; was_fabs := was_fabs info;
     was_function := was_function info; is_main := is_main info |}.

Definition set_init_num (v : item_t) (info : information) : information :=
  {| sx := sx info; io := io info; system_errors := system_errors info;
     register_num := register_num info; label_num := label_num info;
     init_num := v; block_num := block_num info;
     request_reg := request_reg info;
     variable_location := variable_location info;
     answer_reg := answer_reg info; answer_const := answer_const info;
     answer_string := answer_string info;
     answer_const_double := answer_const_double info;
     answer_kind := answer_kind info; label_true := label_true info;
     label_false := label_false info; label_break := label_break info;
     label_continue := label_continue info;
     label_ternary_end := label_ternary_end info; arrays := arrays info;
     was_stack_functions := was_stack_functions info;
     was_dynamic := was_dynamic info; was_file := was_file info;
     was_abs := was_abs info; was_fabs := was_fabs info;
     was_function := was_function info; is_main := is_main info |}.

Definition set_block_num (v : item_t) (info : information) : information :=
  {| sx := sx info; io := io info; system_errors := system_errors info;
     register_num := register_num info; label_num := label_num info;
     init_num := init_num info; block_num := v;
     request_reg := request_reg info;
     variable_location := variable_location info;
     answer_reg := answer_reg info; answer_const := answer_const info;
     answer_string := answer_string info;
     answer_const_double := answer_const_double info;
     answer_kind := answer_kind info; label_true := label_true info;
     label_false := label_false info; label_break := label_break info;
     label_continue := label_continue info;
     label_ternary_end := label_ternary_end info; arrays := arrays info;
     was_stack_functions := was_stack_functions info;
     was_dynamic := was_dynamic info; was_file := was_file info;
     was_abs := was_abs info; was_fabs := was_fabs info;
     was_function := was_function info; is_main := is_main info |}.

Definition set_request_reg (v : Z) (info : information) : information :=
  {| sx := sx info; io := io info; system_errors := system_errors info;
     register_num := register_num info; label_num := label_num info;
     init_num := init_num info; block_num := block_num info;
     request_reg := v; variable_location := variable_location info;
     answer_reg := answer_reg info; answer_const := answer_const info;
     answer_string := answer_string info;
     answer_const_double := answer_const_double info;
     answer_kind := answer_kind info; label_true := label_true info;
     label_false := label_false info; label_break := label_break info;
     label_continue := label_continue info;
     label_ternary_end := label_ternary_end info; arrays := arrays info;
     was_stack_functions := was_stack_functions info;
     was_dynamic := was_dynamic info; was_file := was_file info;
     was_abs := was_abs info; was_fabs := was_fabs info;
     was_function := was_function info; is_main := is_main info |}.

Definition set_variable_location (v : location_t) (info : information) : information :=
  {| sx := sx info; io := io info; system_errors := system_errors info;
     register_num := register_num info; label_num := label_num info;
     init_num := init_num info; block_num := block_num info;
     request_reg := request_reg info; variable_location := v;
     answer_reg := answer_reg info; answer_const := answer_const info;
     answer_string := answer_string info;
     answer_const_double := answer_const_double info;
     answer_kind := answer_kind info; label_true := label_true info;
     label_false := label_false info; label_break := label_break info;
     label_continue := label_continue info;
     label_ternary_end := label_ternary_end info; arrays := arrays info;
     was_stack_functions := was_stack_functions info;
     was_dynamic := was_dynamic info; was_file := was_file info;
     was_abs := was_abs info; was_fabs := was_fabs info;
     was_function := was_function info; is_main := is_main info |}.

Definition set_answer_reg (v : Z) (info : information) : information :=
  {| sx := sx info; io := io info; system_errors := system_errors info;
     register_num := register_num info; label_num := label_num info;
     init_num := init_num info; block_num := block_num info;
     request_reg := request_reg info;
     variable_location := variable_location info; answer_reg := v;
     answer_const := answer_const info; answer_string := answer_string info;
     answer_const_double := answer_const_double info;
     answer_kind := answer_kind info; label_true := label_true info;
     label_false := label_false info; label_break := label_break info;
     label_continue := label_continue info;
     label_ternary_end := label_ternary_end info; arrays := arrays info;
     was_stack_functions := was_stack_functions info;
     was_dynamic := was_dynamic info; was_file := was_file info;
     was_abs := was_abs info; was_fabs := was_fabs info;
     was_function := was_function info; is_main := is_main info |}.

Definition set_answer_const (v : item_t) (info : information) : information :=
  {| sx := sx info; io := io info; system_errors := system_errors info;
     register_num := register_num info; label_num := label_num info;
     init_num := init_num info; block_num := block_num info;
     request_reg := request_reg info;
     variable_location := variable_location info;
     answer_reg := answer_reg info; answer_const := v;
     answer_string := answer_string info;
     answer_const_double := answer_const_double info;
     answer_kind := answer_kind info; label_true := label_true info;
     label_false := label_false info; label_break := label_break info;
     label_continue := label_continue info;
     label_ternary_end := label_ternary_end info; arrays := arrays info;
     was_stack_functions := was_stack_functions info;
     was_dynamic := was_dynamic info; was_file := was_file info;
     was_abs := was_abs info; was_fabs := was_fabs info;
     was_function := was_function info; is_main := is_main info |}.

Definition set_answer_string (v : Z) (info : information) : information :=
  {| sx := sx info; io := io info; system_errors := system_errors info;
     register_num := register_num info; label_num := label_num info;
     init_num := init_num info; block_num := block_num info;
     request_reg := request_reg info;
     variable_location := variable_location info;
     answer_reg := answer_reg info; answer_const := answer_const info;
     answer_string := v; answer_const_double := answer_const_double info;
     answer_kind := answer_kind info; label_true := label_true info;
     label_false := label_false info; label_break := label_break info;
     label_continue := label_continue info;
     label_ternary_end := label_ternary_end info; arrays := arrays info;
     was_stack_functions := was_stack_functions info;
     was_dynamic := was_dynamic info; was_file := was_file info;
     was_abs := was_abs info; was_fabs := was_fabs info;
     was_function := was_function info; is_main := is_main info |}.

Definition set_answer_const_double (v : float) (info : information) : information :=
  {| sx := sx info; io := io info; system_errors := system_errors info;
     register_num := register_num info; label_num := label_num info;
     init_num := init_num info; block_num := block_num info;
     request_reg := request_reg info;
     variable_location := variable_location info;
     answer_reg := answer_reg info; answer_const := answer_const info;
     answer_string := answer_string info; answer_const_double := v;
     answer_kind := answer_kind info; label_true := label_true info;
     label_false := label_false info; label_break := label_break info;
     label_continue := label_continue info;
     label_ternary_end := label_ternary_end info; arrays := arrays info;
     was_stack_functions := was_stack_functions info;
     was_dynamic := was_dynamic info; was_file := was_file info;
     was_abs := was_abs info; was_fabs := was_fabs info;
     was_function := was_function info; is_main := is_main info |}.

Definition set_answer_kind (v : answer_t) (info : information) : information :=
  {| sx := sx info; io := io info; system_errors := system_errors info;
     register_num := register_num info; label_num := label_num info;
     init_num := init_num info; block_num := block_num info;
     request_reg := request_reg info;
     variable_location := variable_location info;
     answer_reg := answer_reg info; answer_const := answer_const info;
     answer_string := answer_string info;
     answer_const_double := answer_const_double info; answer_kind := v;
     label_true := label_true info; label_false := label_false info;
     label_break := label_break info; label_continue := label_continue info;
     label_ternary_end := label_ternary_end info; arrays := arrays info;
     was_stack_functions := was_stack_functions info;
     was_dynamic := was_dynamic info; was_file := was_file info;
     was_abs := was_abs info; was_fabs := was_fabs info;
     was_function := was_function info; is_main := is_main info |}.

Definition set_label_true (v : item_t) (info : information) : information :=
  {| sx := sx info; io := io info; system_errors := system_errors info;
     register_num := register_num info; label_num := label_num info;
     init_num := init_num info; block_num := block_num info;
     request_reg := request_reg info;
     variable_location := variable_location info;
     answer_reg := answer_reg info; answer_const := answer_const info;
     answer_string := answer_string info;
     answer_const_double := answer_const_double info;
     answer_kind := answer_kind info; label_true := v;
     label_false := label_false info; label_break := label_break info;
     label_continue := label_continue info;
     label_ternary_end := label_ternary_end info; arrays := arrays info;
     was_stack_functions := was_stack_functions info;
     was_dynamic := was_dynamic info; was_file := was_file info;
     was_abs := was_abs info; was_fabs := was_fabs info;
     was_function := was_function info; is_main := is_main info |}.

Definition set_label_false (v : item_t) (info : information) : information :=
  {| sx := sx info; io := io info; system_errors := system_errors info;
     register_num := register_num info; label_num := label_num info;
     init_num := init_num info; block_num := block_num info;
     request_reg := request_reg info;
     variable_location := variable_location info;
     answer_reg := answer_reg info; answer_const := answer_const info;
     answer_string := answer_string info;
     answer_const_double := answer_const_double info;
     answer_kind := answer_kind info; label_true := label_true info;
     label_false := v; label_break := label_break info;
     label_continue := label_continue info;
     label_ternary_end := label_ternary_end info; arrays := arrays info;
     was_stack_functions := was_stack_functions info;
     was_dynamic := was_dynamic info; was_file := was_file info;
     was_abs := was_abs info; was_fabs := was_fabs info;
     was_function := was_function info; is_main := is_main info |}.

Definition set_label_break (v : item_t) (info : information) : information :=
  {| sx := sx info; io := io info; system_errors := system_errors info;
     register_num := register_num info; label_num := label_num info;
     init_num := init_num info; block_num := block_num info;
     request_reg := request_reg info;
     variable_location := variable_location info;
     answer_reg := answer_reg info; answer_const := answer_const info;
     answer_string := answer_string info;
     answer_const_double := answer_const_double info;
     answer_kind := answer_kind info; label_true := label_true info;
     label_false := label_false info; label_break := v;
     label_continue := label_continue info;
     label_ternary_end := label_ternary_end info; arrays := arrays info;
     was_stack_functions := was_stack_functions info;
     was_dynamic := was_dynamic info; was_file := was_file info;
     was_abs := was_abs info; was_fabs := was_fabs info;
     was_function := was_function info; is_main := is_main info |}.

Definition set_label_continue (v : item_t) (info : information) : information :=
  {| sx := sx info; io := io info; system_errors := system_errors info;
     register_num := register_num info; label_num := label_num info;
     init_num := init_num info; block_num := block_num info;
     request_reg := request_reg info;
     variable_location := variable_location info;
     answer_reg := answer_reg info; answer_const := answer_const info;
     answer_string := answer_string info;
     answer_const_double := answer_const_double info;
     answer_kind := answer_kind info; label_true := label_true info;
     label_false := label_false info; label_break := label_break info;
     label_continue := v; label_ternary_end := label_ternary_end info;
     arrays := arrays info; was_stack_functions := was_stack_functions info;
     was_dynamic := was_dynamic info; was_file := was_file info;
     was_abs := was_abs info; was_fabs := was_fabs info;
     was_function := was_function info; is_main := is_main info |}.

Definition set_label_ternary_end (v : item_t) (info : information) : information :=
  {| sx := sx info; io := io info; system_errors := system_errors info;
     register_num := register_num info; label_num := label_num info;
     init_num := init_num info; block_num := block_num info;
     request_reg := request_reg info;
     variable_location := variable_location info;
     answer_reg := answer_reg info; answer_const := answer_const info;
     answer_string := answer_string info;
     answer_const_double := answer_const_double info;
     answer_kind := answer_kind info; label_true := label_true info;
     label_false := label_false info; label_break := label_break info;
     label_continue := label_continue info; label_ternary_end := v;
     arrays := arrays info; was_stack_functions := was_stack_functions info;
     was_dynamic := was_dynamic info; was_file := was_file info;
     was_abs := was_abs info; was_fabs := was_fabs info;
     was_function := was_function info; is_main := is_main info |}.

Definition set_arrays (v : gmap Z (list item_t)) (info : information) : information :=
  {| sx := sx info; io := io info; system_errors := system_errors info;
     register_num := register_num info; label_num := label_num info;
     init_num := init_num info; block_num := block_num info;
     request_reg := request_reg info;
     variable_location := variable_location info;
     answer_reg := answer_reg info; answer_const := answer_const info;
     answer_string := answer_string info;
     answer_const_double := answer_const_double info;
     answer_kind := answer_kind info; label_true := label_true info;
     label_false := label_false info; label_break := label_break info;
     label_continue := label_continue info;
     label_ternary_end := label_ternary_end info; arrays := v;
     was_stack_functions := was_stack_functions info;
     was_dynamic := was_dynamic info; was_file := was_file info;
     was_abs := was_abs info; was_fabs := was_fabs info;
     was_function := was_function info; is_main := is_main info |}.

Definition set_was_stack_functions (v : bool) (info : information) : information :=
  {| sx := sx info; io := io info; system_errors := system_errors info;
     register_num := register_num info; label_num := label_num info;
     init_num := init_num info; block_num := block_num info;
     request_reg := request_reg info;
     variable_location := variable_location info;
     answer_reg := answer_reg info; answer_const := answer_const info;
     answer_string := answer_string info;
     answer_const_double := answer_const_double info;
     answer_kind := answer_kind info; label_true := label_true info;
     label_false := label_false info; label_break := label_break info;
     label_continue := label_continue info;
     label_ternary_end := label_ternary_end info; arrays := arrays info;
     was_stack_functions := v; was_dynamic := was_dynamic info;
     was_file := was_file info; was_abs := was_abs info;
     was_fabs := was_fabs info; was_function := was_function info;
     is_main := is_main info |}.

Definition set_was_dynamic (v : bool) (info : information) : information :=
  {| sx := sx info; io := io info; system_errors := system_errors info;
     register_num := register_num info; label_num := label_num info;
     init_num := init_num info; block_num := block_num info;
     request_reg := request_reg info;
     variable_location := variable_location info;
     answer_reg := answer_reg info; answer_const := answer_const info;
     answer_string := answer_string info;
     answer_const_double := answer_const_double info;
     answer_kind := answer_kind info; label_true := label_true info;
     label_false := label_false info; label_break := label_break info;
     label_continue := label_continue info;
     label_ternary_end := label_ternary_end info; arrays := arrays info;
     was_stack_functions := was_stack_functions info; was_dynamic := v;
     was_file := was_file info; was_abs := was_abs info;
     was_fabs := was_fabs info; was_function := was_function info;
     is_main := is_main info |}.

Definition set_was_file (v : bool) (info : information) : information :=
  {| sx := sx info; io := io info; system_errors := system_errors info;
     register_num := register_num info; label_num := label_num info;
     init_num := init_num info; block_num := block_num info;
     request_reg := request_reg info;
     variable_location := variable_location info;
     answer_reg := answer_reg info; answer_const := answer_const info;
     answer_string := answer_string info;
     answer_const_double := answer_const_double info;
     answer_kind := answer_kind info; label_true := label_true info;
     label_false := label_false info; label_break := label_break info;
     label_continue := label_continue info;
     label_ternary_end := label_ternary_end info; arrays := arrays info;
     was_stack_functions := was_stack_functions info;
     was_dynamic := was_dynamic info; was_file := v; was_abs := was_abs info;
     was_fabs := was_fabs info; was_function := was_function info;
     is_main := is_main info |}.

Definition set_was_abs (v : bool) (info : information) : information :=
  {| sx := sx info; io := io info; system_errors := system_errors info;
     register_num := register_num info; label_num := label_num info;
     init_num := init_num info; block_num := block_num info;
     request_reg := request_reg info;
     variable_location := variable_location info;
     answer_reg := answer_reg info; answer_const := answer_const info;
     answer_string := answer_string info;
     answer_const_double := answer_const_double info;
     answer_kind := answer_kind info; label_true := label_true info;
     label_false := label_false info; label_break := label_break info;
     label_continue := label_continue info;
     label_ternary_end := label_ternary_end info; arrays := arrays info;
     was_stack_functions := was_stack_functions info;
     was_dynamic := was_dynamic info; was_file := was_file info;
     was_abs := v; was_fabs := was_fabs info;
     was_function := was_function info; is_main := is_main info |}.

Definition set_was_fabs (v : bool) (info : information) : information :=
  {| sx := sx info; io := io info; system_errors := system_errors info;
     register_num := register_num info; label_num := label_num info;
     init_num := init_num info; block_num := block_num info;
     request_reg := request_reg info;
     variable_location := variable_location info;
     answer_reg := answer_reg info; answer_const := answer_const info;
     answer_string := answer_string info;
     answer_const_double := answer_const_double info;
     answer_kind := answer_kind info; label_true := label_true info;
     label_false := label_false info; label_break := label_break info;
     label_continue := label_continue info;
     label_ternary_end := label_ternary_end info; arrays := arrays info;
     was_stack_functions := was_stack_functions info;
     was_dynamic := was_dynamic info; was_file := was_file info;
     was_abs := was_abs info; was_fabs := v;
     was_function := was_function info; is_main := is_main info |}.

Definition set_was_function (v : gset Z) (info : information) : information :=
  {| sx := sx info; io := io info; system_errors := system_errors info;
     register_num := register_num info; label_num := label_num info;
     init_num := init_num info; block_num := block_num info;
     request_reg := request_reg info;
     variable_location := variable_location info;
     answer_reg := answer_reg info; answer_const := answer_const info;
     answer_string := answer_string info;
     answer_const_double := answer_const_double info;
     answer_kind := answer_kind info; label_true := label_true info;
     label_false := label_false info; label_break := label_break info;
     label_continue := label_continue info;
     label_ternary_end := label_ternary_end info; arrays := arrays info;
     was_stack_functions := was_stack_functions info;
     was_dynamic := was_dynamic info; was_file := was_file info;
     was_abs := was_abs info; was_fabs := was_fabs info; was_function := v;
     is_main := is_main info |}.

Definition set_is_main (v : bool) (info : information) : information :=
  {| sx := sx info; io := io info; system_errors := system_errors info;
     register_num := register_num info; label_num := label_num info;
     init_num := init_num info; block_num := block_num info;
     request_reg := request_reg info;
     variable_location := variable_location info;
     answer_reg := answer_reg info; answer_const := answer_const info;
     answer_string := answer_string info;
     answer_const_double := answer_const_double info;
     answer_kind := answer_kind info; label_true := label_true info;
     label_false := label_false info; label_break := label_break info;
     label_continue := label_continue info;
     label_ternary_end := label_ternary_end info; arrays := arrays info;
     was_stack_functions := was_stack_functions info;
     was_dynamic := was_dynamic info; was_file := was_file info;
     was_abs := was_abs info; was_fabs := was_fabs info;
     was_function := was_function info; is_main := v |}.

Definition uni_printf (line : instr) (info : information) : information :=
  set_io (io info ++ [line]) info.

Definition system_error (num : err_t) (info : information) : information :=
  set_system_errors (system_errors info ++ [num]) info.

(** *** The table of array descriptors

    Modelled from the spec: [hash.h] is not among the sources.  "A hash keyed
    by identifier id, value is a tuple (is_static, dim1, ..., dimn)."  The
    index of a record is its key; a read outside a record gives [ITEM_MAX]. *)

Definition hash_add (h : gmap Z (list item_t)) (key : Z) (amount : nat)
  : gmap Z (list item_t) * Z :=
  match h !! key with
  | Some _ => (h, key)
  | None => (<[key := replicate amount 0]> h, key)
  end.

Definition hash_get_index (h : gmap Z (list item_t)) (key : Z) : Z := key.
Definition hash_get_key (h : gmap Z (list item_t)) (index : Z) : Z := index.

Definition hash_get_record (h : gmap Z (list item_t)) (key : Z) : list item_t :=
  match h !! key with Some l => l | None => [] end.

Definition hash_get_amount (h : gmap Z (list item_t)) (key : Z) : Z :=
  Z.of_nat (length (hash_get_record h key)).

Definition hash_get (h : gmap Z (list item_t)) (key : Z) (i : nat) : item_t :=
  nth i (hash_get_record h key) ITEM_MAX.

Definition hash_set_by_index (h : gmap Z (list item_t)) (index : Z) (i : nat)
  (value : item_t) : gmap Z (list item_t) :=
  alter (fun l => <[i := value]> l) index h.

Definition hash_get_amount_by_index := hash_get_amount.
Definition hash_get_by_index := hash_get.

(** *** Helpers of the emitter *)

Definition usual_arithmetic_conversions (info : information)
  (left_type right_type : type) : type :=
  if type_is_integer (sx info) left_type && type_is_integer (sx info) right_type
  then
    if type_t_eqb (type_get_class left_type) TYPE_CHARACTER
       && type_t_eqb (type_get_class left_type) TYPE_CHARACTER
    then TYPE_CHARACTER else TYPE_INTEGER
  else TYPE_FLOATING.

Fixpoint array_get_type (array_type : type) : type :=
  match array_type with
  | type_array element => array_get_type element
  | _ => array_type
  end.

Fixpoint array_get_dim (array_type : type) : nat :=
  match array_type with
  | type_array element => S (array_get_dim element)
  | _ => O
  end.

(** [type_to_io] writes the text of a type, which the lines below carry as
    the type itself; what it leaves in the state is [was_file]. *)
Fixpoint type_mentions_file (t : type) : bool :=
  match t with
  | type_primitive TYPE_FILE => true
  | type_pointer element | type_array element => type_mentions_file element
  | type_function r ps =>
      type_mentions_file r
      || (fix params (l : list type) : bool :=
            match l with
            | [] => false
            | p :: l => type_mentions_file p || params l
            end) ps
  | _ => false
  end.

Definition type_to_io (info : information) (t : type) : information :=
  if type_mentions_file t then set_was_file true info else info.

Definition to_code_operation_reg_reg (info : information) (operation : binary_t)
  (fst snd : Z) (t : type) : information :=
  let info := type_to_io info t in
  uni_printf (I_operation (register_num info) operation t t false
                (O_reg fst) (O_reg snd)) info.

Definition to_code_operation_reg_const_integer (info : information)
  (operation : binary_t) (fst : Z) (snd : item_t) (t : type) : information :=
  let info := type_to_io info t in
  uni_printf (I_operation (register_num info) operation TYPE_INTEGER t false
                (O_reg fst) (O_int snd)) info.

Definition to_code_operation_reg_const_double (info : information)
  (operation : binary_t) (fst : Z) (snd : float) : information :=
  uni_printf (I_operation (register_num info) operation TYPE_FLOATING
                TYPE_FLOATING false (O_reg fst) (O_double snd)) info.

Definition to_code_operation_const_reg_integer (info : information)
  (operation : binary_t) (fst : item_t) (snd : Z) (t : type) : information :=
  let info := type_to_io info t in
  uni_printf (I_operation (register_num info) operation TYPE_INTEGER t false
                (O_int fst) (O_reg snd)) info.

Definition to_code_operation_const_reg_double (info : information)
  (operation : binary_t) (fst : float) (snd : Z) : information :=
  uni_printf (I_operation (register_num info) operation TYPE_FLOATING
                TYPE_FLOATING false (O_double fst) (O_reg snd)) info.

Definition to_code_operation_reg_null (info : information) (operation : binary_t)
  (fst : Z) (t : type) : information :=
  let info := type_to_io info t in
  uni_printf (I_operation (register_num info) operation TYPE_INTEGER t true
                (O_reg fst) O_null) info.

Definition to_code_operation_null_reg (info : information) (operation : binary_t)
  (snd : Z) (t : type) : information :=
  let info := type_to_io info t in
  uni_printf (I_operation (register_num info) operation TYPE_INTEGER t true
                O_null (O_reg snd)) info.

Definition to_code_load (info : information) (result id : Z) (t : type)
  (is_array is_local : bool) : information :=
  let info := type_to_io info t in
  uni_printf (I_load result t id is_array is_local) info.

Definition to_code_store_reg (info : information) (reg id : Z) (t : type)
  (is_array is_pointer is_local : bool) : information :=
  let info := type_to_io info t in
  uni_printf (I_store t (O_reg reg) is_pointer id is_array is_local) info.

Definition to_code_store_const_integer (info : information) (arg : item_t)
  (id : Z) (is_array is_local : bool) (t : type) : information :=
  let info := type_to_io info t in
  uni_printf (I_store t (O_int arg) false id is_array is_local) info.

Definition to_code_store_const_double (info : information) (arg : float)
  (id : Z) (is_array is_local : bool) : information :=
  uni_printf (I_store TYPE_FLOATING (O_double arg) false id is_array is_local) info.

Definition to_code_store_null (info : information) (id : Z) (t : type)
  : information :=
  let info := type_to_io info t in
  uni_printf (I_store t O_null false id false true) info.

Definition to_code_try_zext_to (info : information) : information :=
  if negb (answer_eqb (answer_kind info) ALOGIC) then info
  else
    let info := uni_printf (I_zext (register_num info) (answer_reg info)) info in
    let info := set_answer_kind AREG info in
    let info := set_answer_reg (register_num info) info in
    set_register_num (register_num info + 1) info.

Definition to_code_label (info : information) (label_num : item_t) : information :=
  uni_printf (I_label label_num) info.

Definition to_code_unconditional_branch (info : information) (label_num : item_t)
  : information :=
  uni_printf (I_br label_num) info.

Definition to_code_conditional_branch (info : information) : information :=
  uni_printf (I_br_cond (answer_reg info) (label_true info) (label_false info)) info.

Definition to_code_stack_save (info : information) (index : item_t) : information :=
  let info := uni_printf (I_dyn_alloca index) info in
  let info := uni_printf (I_stacksave (register_num info)) info in
  let info := uni_printf (I_dyn_store (register_num info) index) info in
  let info := set_register_num (register_num info + 1) info in
  set_was_stack_functions true info.

Definition to_code_stack_load (info : information) (index : item_t) : information :=
  let info := uni_printf (I_dyn_load (register_num info) index) info in
  let info := uni_printf (I_stackrestore (register_num info)) info in
  let info := set_register_num (register_num info + 1) info in
  set_was_stack_functions true info.

Definition to_code_alloc_array_static (info : information) (index : Z)
  (t : type) (is_local : bool) : information :=
  let info := uni_printf (I_array_head (hash_get_key (arrays info) index) is_local) info in
  let dim := size_wrap (hash_get_amount_by_index (arrays info) index - 1) in
  if (dim =? 0) || (dim >? MAX_DIMENSIONS) then
    system_error such_array_is_not_supported info
  else
    let info := type_to_io info t in
    uni_printf (I_array_tail (tail (hash_get_record (arrays info) index)) t is_local) info.

Definition to_code_alloc_array_dynamic (info : information) (index : Z)
  (t : type) : information :=
  let to_alloc := hash_get_by_index (arrays info) index 1 in
  let dim := size_wrap (hash_get_amount_by_index (arrays info) index - 1) in
  if (dim =? 0) || (dim >? MAX_DIMENSIONS) then
    system_error such_array_is_not_supported info
  else
    let '(info, to_alloc) :=
      fold_left
        (fun '(info, to_alloc) bound =>
           let info := uni_printf (I_mul_nuw (register_num info) to_alloc bound) info in
           (set_register_num (register_num info + 1) info, register_num info))
        (tail (tail (hash_get_record (arrays info) index))) (info, to_alloc) in
    let info := type_to_io info t in
    uni_printf (I_dynarr_alloca (hash_get_key (arrays info) index) t to_alloc) info.

Definition to_code_slice (info : information) (id : Z) (cur_dimension : Z)
  (prev_slice : item_t) (t : type) (is_local : bool) : information :=
  let info := type_to_io info t in
  let index :=
    if answer_eqb (answer_kind info) AREG then O_reg (answer_reg info)
    else O_int (answer_const info) in
  let info :=
    uni_printf (I_slice (register_num info) id cur_dimension prev_slice t is_local
                  (hash_get_record (arrays info) id) index) info in
  set_register_num (register_num info + 1) info.

Definition check_type_and_branch (info : information) : information :=
  match answer_kind info with
  | ACONST =>
      to_code_unconditional_branch info
        (if answer_const info =? 0 then label_false info else label_true info)
  | AREG =>
      let info :=
        to_code_operation_reg_const_integer info BIN_NE (answer_reg info) 0
          TYPE_INTEGER in
      let info := set_answer_reg (register_num info) info in
      let info := set_register_num (register_num info + 1) info in
      to_code_conditional_branch info
  | ALOGIC => to_code_conditional_branch info
  | _ => info
  end.

(** *** Expressions

    The functions are mutually recursive in the source; here each one
    receives [emit_expression] as its first argument and the recursion is
    tied in [emit_expression] below. *)

Section Expressions.

Variable emit_expression : information -> expr -> information.

Definition emit_cast_expression (info : information) (nd : expr) : information :=
  match nd with
  | expr_cast target_type source_type expression_to_cast =>
      let info := emit_expression info expression_to_cast in
      let info := type_to_io info source_type in
      let info := type_to_io info target_type in
      let info :=
        uni_printf (I_sitofp (register_num info) source_type (answer_reg info)
                      target_type) info in
      let info := set_answer_reg (register_num info) info in
      set_register_num (register_num info + 1) info
  | _ => info
  end.

Definition emit_identifier_expression (info : information) (nd : expr)
  : information :=
  let t := expression_get_type nd in
  let id := expression_identifier_get_id nd in
  let is_local := ident_is_local (sx info) id in
  let is_addr_to_val := location_eqb (variable_location info) LMEM in
  let '(info, t) :=
    if is_addr_to_val then
      let info := to_code_load info (register_num info) id t false is_local in
      let info := set_register_num (register_num info + 1) info in
      let info := set_variable_location LREG info in
      (info, type_pointer_get_element_type t)
    else (info, t) in
  let info :=
    if type_is_array t then
      let info := set_answer_const 0 info in
      let info := to_code_slice info id 0 0 (array_get_type t) is_local in
      set_answer_reg (register_num info) info
    else
      let info :=
        to_code_load info (register_num info)
          (if is_addr_to_val then register_num info - 1 else id) t
          is_addr_to_val (is_addr_to_val || is_local) in
      let info := set_answer_reg (register_num info) info in
      set_register_num (register_num info + 1) info in
  set_answer_kind AREG info.

Definition emit_literal_expression (info : information) (nd : expr)
  : information :=
  let t := expression_get_type nd in
  if type_is_string (sx info) t then
    let info := set_answer_string (expression_literal_get_string nd) info in
    set_answer_kind ASTR info
  else if type_is_integer (sx info) t then
    let num := expression_literal_get_integer nd in
    if location_eqb (variable_location info) LMEM then
      let info :=
        to_code_store_const_integer info num (request_reg info) false
          (ident_is_local (sx info) (request_reg info)) t in
      set_answer_kind AREG info
    else
      let info := set_answer_kind ACONST info in
      set_answer_const num info
  else if type_is_floating t then
    let num := expression_literal_get_floating nd in
    if location_eqb (variable_location info) LMEM then
      let info :=
        to_code_store_const_double info num (request_reg info) false
          (ident_is_local (sx info) (request_reg info)) in
      set_answer_kind AREG info
    else
      let info := set_answer_kind ACONST info in
      set_answer_const_double num info
  else set_answer_kind ANULL info.

(** On a node that is not a subscript (a chain of subscripts shorter than
    the rank recorded for [id], which the source leaves as a TODO) there is
    no base and no index to descend into: only the slice is written. *)
Fixpoint emit_one_dimension_subscript (info : information) (nd : expr) (id : Z)
  (cur_dimension : Z) {struct nd} : information :=
  let dimensions := size_wrap (hash_get_amount (arrays info) id - 1) in
  let is_local := ident_is_local (sx info) id in
  let arr_type := ident_get_type (sx info) id in
  let t := array_get_type arr_type in
  match nd with
  | expr_subscript _ base index =>
      let info :=
        if negb (cur_dimension =? size_wrap (dimensions - 1)) then
          emit_one_dimension_subscript info base id (size_wrap (cur_dimension + 1))
        else info in
      let info := set_variable_location LFREE info in
      let info := emit_expression info index in
      to_code_slice info id cur_dimension (register_num info - 1) t is_local
  | _ =>
      let info := set_variable_location LFREE info in
      to_code_slice info id cur_dimension (register_num info - 1) t is_local
  end.

Fixpoint subscript_root (nd : expr) : expr :=
  match nd with
  | expr_subscript _ base _ => subscript_root base
  | _ => nd
  end.

Definition emit_subscript_expression (info : information) (nd : expr)
  : information :=
  let base := subscript_root nd in
  let id := expression_identifier_get_id base in
  let location := variable_location info in
  let info := emit_one_dimension_subscript info nd id 0 in
  let info :=
    if negb (location_eqb location LMEM) then
      let arr_type := ident_get_type (sx info) id in
      let t := array_get_type arr_type in
      let info :=
        to_code_load info (register_num info) (register_num info - 1) t true true in
      set_register_num (register_num info + 1) info
    else info in
  let info := set_answer_reg (register_num info - 1) info in
  set_answer_kind AREG info.

(** What the second loop of [emit_call_expression] prints for an argument,
    from what the first loop stored for it. *)
Definition call_argument (info : information) (value_type : type) : call_arg :=
  match answer_kind info with
  | AREG => CA_value value_type (O_reg (answer_reg info))
  | ASTR =>
      CA_string (answer_string info) (strings_length (sx info) (answer_string info))
  | _ =>
      if type_is_integer (sx info) value_type
      then CA_value value_type (O_int (answer_const info))
      else CA_value value_type (O_double (answer_const_double info))
  end.

Definition call_argument_to_io (info : information) (a : call_arg) : information :=
  match a with
  | CA_string _ _ => info
  | CA_value t _ => type_to_io info t
  end.

Definition emit_call_expression (info : information) (nd : expr) : information :=
  match nd with
  | expr_call func_type callee arguments =>
      let args := length arguments in
      if Nat.ltb MAX_FUNCTION_ARGS args then system_error too_many_arguments info
      else
        let func_ref := expression_identifier_get_id callee in
        let info :=
          if func_ref <? BEGIN_USER_FUNC (sx info)
          then set_was_function ({[ func_ref ]} ∪ was_function info) info
          else info in
        let '(info, printed) :=
          fold_left
            (fun '(info, printed) argument =>
               let info := set_variable_location LFREE info in
               let value_type := expression_get_type argument in
               let info := emit_expression info argument in
               let info := to_code_try_zext_to info in
               (info, printed ++ [call_argument info value_type]))
            arguments (info, []) in
        let '(info, result) :=
          if negb (type_is_void func_type) then
            let result := register_num info in
            let info := set_answer_kind AREG info in
            let info := set_answer_reg (register_num info) info in
            (set_register_num (register_num info + 1) info, Some result)
          else (info, None) in
        let info := type_to_io info (expression_get_type callee) in
        let info := fold_left call_argument_to_io printed info in
        uni_printf (I_call result (expression_get_type callee)
                      (ident_get_spelling (sx info) func_ref) printed) info
  | _ => info
  end.

Definition emit_member_expression (info : information) (nd : expr) : information :=
  match nd with
  | expr_member elem_type base place =>
      let t := expression_get_type base in
      let id := expression_identifier_get_id base in
      let is_pointer := type_is_pointer t in
      let '(info, t) :=
        if type_is_pointer t then
          let result := register_num info in
          let info := set_register_num (register_num info + 1) info in
          let info := to_code_load info result id t false (ident_is_local (sx info) id) in
          (info, type_pointer_get_element_type t)
        else (info, t) in
      let info :=
        uni_printf (I_member (register_num info) t is_pointer
                      (if is_pointer then register_num info - 1 else id) place) info in
      let info :=
        if negb (location_eqb (variable_location info) LMEM) then
          let info := set_register_num (register_num info + 1) info in
          let info :=
            to_code_load info (register_num info) (register_num info - 1)
              elem_type true true in
          set_answer_kind AREG info
        else info in
      let info := set_answer_reg (register_num info) info in
      set_register_num (register_num info + 1) info
  | _ => info
  end.

Definition emit_inc_dec_expression (info : information) (nd : expr) : information :=
  match nd with
  | expr_unary operation_type operation operand =>
      let is_array_or_pointer :=
        expression_t_eqb (expression_get_class operand) EXPR_SUBSCRIPT
        || expression_t_eqb (expression_get_class operand) EXPR_UNARY in
      let '(info, id) :=
        if negb is_array_or_pointer then (info, expression_identifier_get_id operand)
        else
          let info := set_variable_location LMEM info in
          let info := emit_expression info operand in
          (info, answer_reg info) in
      let info :=
        to_code_load info (register_num info) id operation_type is_array_or_pointer
          (ident_is_local (sx info) id) in
      let info := set_answer_kind AREG info in
      let info := set_answer_reg (register_num info) info in
      let info := set_register_num (register_num info + 1) info in
      let arithmetic (info : information) : information :=
        let op :=
          match operation with
          | UN_PREINC | UN_POSTINC => BIN_ADD
          | _ => BIN_SUB
          end in
        if type_is_integer (sx info) operation_type then
          to_code_operation_reg_const_integer info op (register_num info - 1) 1
            operation_type
        else
          to_code_operation_reg_const_double info op (register_num info - 1)
            (double_of_item 1) in
      let info :=
        match operation with
        | UN_PREINC | UN_PREDEC =>
            arithmetic (set_answer_reg (register_num info) info)
        | UN_POSTINC | UN_POSTDEC => arithmetic info
        | _ => info
        end in
      let info :=
        to_code_store_reg info (register_num info) id operation_type
          is_array_or_pointer false (ident_is_local (sx info) id) in
      set_register_num (register_num info + 1) info
  | _ => info
  end.

Definition emit_unary_expression (info : information) (nd : expr) : information :=
  match nd with
  | expr_unary t operator operand =>
      match operator with
      | UN_POSTINC | UN_POSTDEC | UN_PREINC | UN_PREDEC =>
          emit_inc_dec_expression info nd
      | UN_MINUS | UN_NOT =>
          let operation_type := t in
          let info := set_variable_location LREG info in
          let info := emit_expression info operand in
          let info := to_code_try_zext_to info in
          let info :=
            match operator with
            | UN_MINUS =>
                if type_is_integer (sx info) operation_type then
                  to_code_operation_const_reg_integer info BIN_SUB 0
                    (answer_reg info) operation_type
                else if type_is_floating operation_type then
                  to_code_operation_const_reg_double info BIN_SUB
                    (double_of_item 0) (answer_reg info)
                else info
            | _ =>
                to_code_operation_reg_const_integer info BIN_XOR
                  (answer_reg info) (-1) operation_type
            end in
          let info := set_answer_kind AREG info in
          let info := set_answer_reg (register_num info) info in
          set_register_num (register_num info + 1) info
      | UN_LOGNOT =>
          let temp := label_true info in
          let info := set_label_true (label_false info) info in
          let info := set_label_false temp info in
          emit_expression info operand
      | UN_ADDRESS =>
          let info := set_answer_reg (expression_identifier_get_id operand) info in
          set_answer_kind AMEM info
      | UN_INDIRECTION =>
          let info :=
            set_variable_location
              (if location_eqb (variable_location info) LMEM then LREG else LMEM)
              info in
          emit_expression info operand
      | UN_ABS =>
          let info := set_variable_location LFREE info in
          let info := emit_expression info operand in
          let info := type_to_io info t in
          let is_integer := type_is_integer (sx info) t in
          let info :=
            if is_integer then set_was_abs true info else set_was_fabs true info in
          let info :=
            uni_printf (I_call_abs (register_num info) t is_integer (answer_reg info))
              info in
          let info := set_answer_kind AREG info in
          let info := set_answer_reg (register_num info) info in
          set_register_num (register_num info + 1) info
      | UN_UPB => info
      end
  | _ => info
  end.

Definition emit_integral_expression (info : information) (nd : expr)
  (kind : answer_t) : information :=
  match nd with
  | expr_binary t operation LHS RHS =>
      let info := set_variable_location LFREE info in
      let answer_type := expression_get_type LHS in
      let info := emit_expression info LHS in
      let operation_type :=
        if answer_eqb kind ALOGIC
        then usual_arithmetic_conversions info answer_type t
        else t in
      let info := to_code_try_zext_to info in
      let left_kind := answer_kind info in
      let left_reg := answer_reg info in
      let left_const := answer_const info in
      let left_const_double := answer_const_double info in
      let info := set_variable_location LFREE info in
      let info := emit_expression info RHS in
      let info := to_code_try_zext_to info in
      let right_kind := answer_kind info in
      let right_reg := answer_reg info in
      let right_const := answer_const info in
      let right_const_double := answer_const_double info in
      let info :=
        match left_kind, right_kind with
        | AREG, AREG =>
            to_code_operation_reg_reg info operation left_reg right_reg operation_type
        | AREG, ACONST =>
            if type_is_integer (sx info) operation_type then
              to_code_operation_reg_const_integer info operation left_reg
                right_const operation_type
            else
              to_code_operation_reg_const_double info operation left_reg
                right_const_double
        | ACONST, AREG =>
            if type_is_integer (sx info) operation_type then
              to_code_operation_const_reg_integer info operation left_const
                right_reg operation_type
            else
              to_code_operation_const_reg_double info operation left_const_double
                right_reg
        | AREG, ANULL =>
            to_code_operation_reg_null info operation left_reg operation_type
        | ANULL, AREG =>
            to_code_operation_null_reg info operation right_reg operation_type
        | _, _ => info
        end in
      let info := set_answer_reg (register_num info) info in
      let info := set_register_num (register_num info + 1) info in
      set_answer_kind kind info
  | _ => info
  end.

Definition emit_assignment_expression (info : information) (nd : expr)
  : information :=
  match nd with
  | expr_binary operation_type assignment_type LHS RHS =>
      let is_array := expression_t_eqb (expression_get_class LHS) EXPR_SUBSCRIPT in
      let '(info, id) :=
        if negb is_array then (info, expression_identifier_get_id LHS)
        else
          let info := set_variable_location LMEM info in
          let info := emit_expression info LHS in
          (info, answer_reg info) in
      let info := set_variable_location LFREE info in
      let info := emit_expression info RHS in
      let info := to_code_try_zext_to info in
      let result := answer_reg info in
      let '(info, result) :=
        match assignment_type with
        | BIN_ASSIGN => (info, result)
        | _ =>
            let info :=
              to_code_load info (register_num info) id operation_type is_array
                (ident_is_local (sx info) id) in
            let info := set_register_num (register_num info + 1) info in
            let info :=
              if answer_eqb (answer_kind info) AREG then
                to_code_operation_reg_reg info assignment_type
                  (register_num info - 1) (answer_reg info) operation_type
              else if type_is_integer (sx info) operation_type then
                to_code_operation_reg_const_integer info assignment_type
                  (register_num info - 1) (answer_const info) operation_type
              else if type_is_floating operation_type then
                to_code_operation_reg_const_double info assignment_type
                  (register_num info - 1) (answer_const_double info)
              else info in
            let result := register_num info in
            let info := set_register_num (register_num info + 1) info in
            (set_answer_kind AREG info, result)
        end in
      if answer_eqb (answer_kind info) AREG || answer_eqb (answer_kind info) AMEM
      then
        let info :=
          to_code_store_reg info result id operation_type is_array
            (answer_eqb (answer_kind info) AMEM) (ident_is_local (sx info) id) in
        let info := set_answer_kind AREG info in
        set_answer_reg result info
      else if type_is_integer (sx info) operation_type then
        to_code_store_const_integer info (answer_const info) id is_array
          (ident_is_local (sx info) id) operation_type
      else if type_is_floating operation_type then
        to_code_store_const_double info (answer_const_double info) id is_array
          (ident_is_local (sx info) id)
      else
        let info := to_code_store_null info id operation_type in
        set_answer_kind ANULL info
  | _ => info
  end.

Definition emit_binary_expression (info : information) (nd : expr) : information :=
  match nd with
  | expr_binary _ operator LHS RHS =>
      if operation_is_assignment operator then emit_assignment_expression info nd
      else
        match operator with
        | BIN_MUL | BIN_DIV | BIN_REM | BIN_ADD | BIN_SUB | BIN_SHL | BIN_SHR
        | BIN_AND | BIN_XOR | BIN_OR =>
            emit_integral_expression info nd AREG
        | BIN_LT | BIN_GT | BIN_LE | BIN_GE | BIN_EQ | BIN_NE =>
            emit_integral_expression info nd ALOGIC
        | BIN_LOG_OR | BIN_LOG_AND =>
            let label_next := label_num info in
            let info := set_label_num (label_num info + 1) info in
            let old_label_true := label_true info in
            let old_label_false := label_false info in
            let info :=
              match operator with
              | BIN_LOG_OR => set_label_false label_next info
              | _ => set_label_true label_next info
              end in
            let info := emit_expression info LHS in
            let info :=
              if answer_eqb (answer_kind info) ALOGIC
              then to_code_conditional_branch info
              else info in
            let info := to_code_label info label_next in
            let info := set_label_true old_label_true info in
            let info := set_label_false old_label_false info in
            emit_expression info RHS
        | _ => info
        end
  | _ => info
  end.

Definition emit_ternary_expression (info : information) (nd : expr) : information :=
  match nd with
  | expr_ternary t condition LHS RHS =>
      let old_label_true := label_true info in
      let old_label_false := label_false info in
      let label_then := label_num info in
      let label_else := label_num info + 1 in
      let label_end := label_num info + 2 in
      let info := set_label_num (label_num info + 3) info in
      let info := set_label_true label_then info in
      let info := set_label_false label_else info in
      let info := set_variable_location LFREE info in
      let info := emit_expression info condition in
      let info := check_type_and_branch info in
      let info := to_code_label info label_then in
      let info := set_variable_location LFREE info in
      let then_is_ternary := expression_t_eqb (expression_get_class LHS) EXPR_TERNARY in
      let info := emit_expression info LHS in
      let then_answer := answer_kind info in
      let then_reg := answer_reg info in
      let then_const := answer_const info in
      let label_then :=
        if then_is_ternary then label_ternary_end info else label_then in
      let info := to_code_unconditional_branch info label_end in
      let info := to_code_label info label_else in
      let info := set_variable_location LFREE info in
      let else_is_ternary := expression_t_eqb (expression_get_class RHS) EXPR_TERNARY in
      let info := emit_expression info RHS in
      let else_answer := answer_kind info in
      let else_reg := answer_reg info in
      let else_const := answer_const info in
      let label_else :=
        if else_is_ternary then label_ternary_end info else label_else in
      let info := to_code_unconditional_branch info label_end in
      let info := to_code_label info label_end in
      let info := type_to_io info t in
      let info :=
        uni_printf
          (I_phi (register_num info) t
             (if answer_eqb then_answer AREG then O_reg then_reg else O_int then_const)
             label_then
             (if answer_eqb else_answer AREG then O_reg else_reg else O_int else_const)
             label_else) info in
      let info := set_answer_kind AREG info in
      let info := set_answer_reg (register_num info) info in
      let info := set_register_num (register_num info + 1) info in
      let info := set_label_true old_label_true info in
      let info := set_label_false old_label_false info in
      set_label_ternary_end label_end info
  | _ => info
  end.

End Expressions.

Fixpoint emit_expression (info : information) (nd : expr) {struct nd}
  : information :=
  match expression_get_class nd with
  | EXPR_CAST => emit_cast_expression emit_expression info nd
  | EXPR_IDENTIFIER => emit_identifier_expression info nd
  | EXPR_LITERAL => emit_literal_expression info nd
  | EXPR_SUBSCRIPT => emit_subscript_expression emit_expression info nd
  | EXPR_CALL => emit_call_expression emit_expression info nd
  | EXPR_MEMBER => emit_member_expression info nd
  | EXPR_UNARY => emit_unary_expression emit_expression info nd
  | EXPR_BINARY => emit_binary_expression emit_expression info nd
  | EXPR_TERNARY => emit_ternary_expression emit_expression info nd
  | _ => info
  end.

(** *** Initializers *)

Fixpoint emit_one_dimension_initialization (info : information) (nd : expr)
  (id : item_t) (arr_type : type) (cur_dimension : Z) (prev_slice : item_t)
  (is_local : bool) {struct nd} : information :=
  match nd with
  | expr_initializer _ subexprs =>
      let size := length subexprs in
      let t := array_get_type arr_type in
      fst
        (fold_left
           (fun '(info, i) initializer =>
              let info := set_answer_const (Z.of_nat i) info in
              let info := set_answer_kind ACONST info in
              let slice_reg := register_num info in
              let info :=
                if is_local
                then to_code_slice info id cur_dimension prev_slice t true
                else info in
              let info := set_variable_location LFREE info in
              let last := Nat.eqb i (size - 1) in
              let info :=
                if cur_dimension =? 0 then
                  let info := emit_expression info initializer in
                  if answer_eqb (answer_kind info) AREG then
                    to_code_store_reg info (answer_reg info) slice_reg t true false
                      is_local
                  else if type_is_integer (sx info) t then
                    if is_local then
                      to_code_store_const_integer info (answer_const info) slice_reg
                        true true t
                    else
                      uni_printf
                        (I_global_array_item (O_int (answer_const info)) last) info
                  else
                    if is_local then
                      to_code_store_const_double info (answer_const_double info)
                        slice_reg true true
                    else
                      uni_printf
                        (I_global_array_item (O_double (answer_const_double info))
                           last) info
                else
                  emit_one_dimension_initialization info initializer id arr_type
                    (cur_dimension - 1) slice_reg true in
              (info, S i))
           subexprs (info, O))
  | _ => info
  end.

Definition first_subexpr (nd : expr) : expr :=
  match nd with
  | expr_initializer _ (e :: _) => e
  | _ => expr_broken
  end.

Fixpoint set_initializer_bounds (h : gmap Z (list item_t)) (index : Z)
  (i dimensions : nat) (list_expression : expr) {struct dimensions}
  : gmap Z (list item_t) :=
  match dimensions with
  | O => h
  | S dimensions =>
      let h :=
        hash_set_by_index h index (1 + i)
          (Z.of_nat (expression_initializer_get_size list_expression)) in
      set_initializer_bounds h index (S i) dimensions (first_subexpr list_expression)
  end.

(** Modelled from the spec: the string pool is in [syntax.h], which is not
    among the sources; it holds the strings in UTF-8, and [string_get]
    above gives the symbols of a string.  The emitter reads a string
    through [const char *]: what it finds at index [i] is byte [i] of the
    UTF-8 encoding of the symbols, as a [char], which is signed on the
    machines the compiler is built for. *)
Definition utf8_symbol (c : Z) : list Z :=
  if c <? 128 then [c]
  else if c <? 2048 then [192 + c / 64; 128 + c mod 64]
  else if c <? 65536 then
    [224 + c / 4096; 128 + (c / 64) mod 64; 128 + c mod 64]
  else
    [240 + c / 262144; 128 + (c / 4096) mod 64; 128 + (c / 64) mod 64;
     128 + c mod 64].

Definition string_bytes (symbols : list Z) : list Z :=
  concat (map utf8_symbol symbols).

Definition char_of_byte (b : Z) : item_t :=
  if b <? 128 then b else b - 256.

Definition emit_initialization (info : information) (nd : expr) (id : item_t)
  (arr_type : type) : information :=
  if expression_t_eqb (expression_get_class nd) EXPR_INITIALIZER
     && type_is_array (expression_get_type nd)
  then
    let dimensions := array_get_dim arr_type in
    let N := expression_initializer_get_size nd in
    let index := hash_get_index (arrays info) id in
    let info :=
      set_arrays (set_initializer_bounds (arrays info) index O dimensions nd) info in
    let t := array_get_type arr_type in
    let is_local := ident_is_local (sx info) id in
    let info :=
      if is_local then to_code_alloc_array_static info index t true
      else
        let info := type_to_io info t in
        uni_printf (I_global_array_head id N t) info in
    emit_one_dimension_initialization info nd id arr_type
      (size_wrap (Z.of_nat dimensions - 1)) 0 is_local
  else if expression_t_eqb (expression_get_class nd) EXPR_LITERAL
          && type_is_array (expression_get_type nd)
  then
    let string := string_get (sx info) (expression_literal_get_string nd) in
    let length := strings_length (sx info) (expression_literal_get_string nd) in
    let index := hash_get_index (arrays info) id in
    let info := set_arrays (hash_set_by_index (arrays info) index 1 length) info in
    let t := array_get_type arr_type in
    let info := to_code_alloc_array_static info index t true in
    fold_left
      (fun info i =>
         let info := set_answer_const (Z.of_nat i) info in
         let info := set_answer_kind ACONST info in
         let slice_reg := register_num info in
         let info := to_code_slice info id 0 0 t true in
         to_code_store_const_integer info
           (char_of_byte (nth i (string_bytes string) 0)) slice_reg true true t)
      (seq 0 (Z.to_nat length)) info
  else info.

(** *** Declarations and statements *)

Definition nonzero (v : item_t) : bool := negb (v =? 0).

Definition emit_variable_declaration (info : information) (nd : decl)
  (is_local : bool) : information :=
  match nd with
  | decl_variable id dim_exprs initializer =>
      let has_init := match initializer with Some _ => true | None => false end in
      let t := ident_get_type (sx info) id in
      let info :=
        if negb (type_is_array t) && is_local then
          let info := type_to_io info t in
          let info := uni_printf (I_var_alloca id t) info in
          match initializer with
          | Some initializer =>
              let info := set_variable_location LFREE info in
              let info := set_request_reg id info in
              let info := emit_expression info initializer in
              if answer_eqb (answer_kind info) ACONST then
                if type_is_integer (sx info) t then
                  to_code_store_const_integer info (answer_const info)
                    (request_reg info) false is_local t
                else
                  to_code_store_const_double info (answer_const_double info)
                    (request_reg info) false is_local
              else if answer_eqb (answer_kind info) AREG then
                to_code_store_reg info (answer_reg info) id t false false is_local
              else info
          | None => info
          end
        else if negb (type_is_array t) && negb is_local then
          let info := uni_printf (I_global_head id) info in
          match initializer with
          | Some initializer =>
              let info := set_variable_location LFREE info in
              let info := emit_expression info initializer in
              if answer_eqb (answer_kind info) ACONST then
                let info := type_to_io info t in
                if type_is_integer (sx info) t then
                  uni_printf (I_global_value t (O_int (answer_const info))) info
                else
                  uni_printf (I_global_value t (O_double (answer_const_double info)))
                    info
              else info
          | None =>
              let info := type_to_io info t in
              uni_printf (I_global_common t (type_is_integer (sx info) t)) info
          end
        else
          let dimensions := array_get_dim t in
          let element_type := array_get_type t in
          let '(h, index) := hash_add (arrays info) id (1 + dimensions) in
          let info := set_arrays (hash_set_by_index h index IS_STATIC 1) info in
          let '(info, _) :=
            fold_left
              (fun '(info, j) dim_size =>
                 let info := set_variable_location LFREE info in
                 let info := emit_expression info dim_size in
                 let info :=
                   if negb has_init then
                     if answer_eqb (answer_kind info) ACONST then
                       let info :=
                         if negb (nonzero (hash_get_by_index (arrays info) index IS_STATIC))
                         then system_error array_borders_cannot_be_static_dynamic info
                         else info in
                       set_arrays
                         (hash_set_by_index (arrays info) index j (answer_const info))
                         info
                     else
                       let info :=
                         if nonzero (hash_get_by_index (arrays info) index IS_STATIC)
                            && Nat.ltb 1 j
                         then system_error array_borders_cannot_be_static_dynamic info
                         else info in
                       let info :=
                         set_arrays
                           (hash_set_by_index (arrays info) index j (answer_reg info))
                           info in
                       set_arrays (hash_set_by_index (arrays info) index IS_STATIC 0)
                         info
                   else info in
                 (info, S j))
              dim_exprs (info, 1%nat) in
          if nonzero (hash_get_by_index (arrays info) index IS_STATIC) && negb has_init
          then to_code_alloc_array_static info index element_type is_local
          else if negb has_init then
            let info :=
              if negb (was_dynamic info) then to_code_stack_save info (-1) else info in
            let info := to_code_alloc_array_dynamic info index element_type in
            set_was_dynamic true info
          else info in
      match initializer with
      | Some initializer => emit_initialization info initializer id t
      | None => info
      end
  | _ => info
  end.

Section Statements.

Variable emit_statement : information -> stmt -> information.
Variable emit_declaration : information -> decl -> bool -> information.

Definition emit_labeled_statement (info : information) (nd : stmt) : information :=
  match nd with
  | stmt_labeled l substmt =>
      let label := item_wrap (- item_wrap l) in
      let info := to_code_unconditional_branch info label in
      let info := to_code_label info label in
      emit_statement info substmt
  | _ => info
  end.

Definition emit_compound_statement (info : information) (nd : stmt)
  (is_function_body : bool) : information :=
  let block_num_ := block_num info in
  let info := set_block_num (block_num info + 1) info in
  let info :=
    if negb is_function_body then to_code_stack_save info block_num_ else info in
  let info :=
    match nd with
    | stmt_compound substmts => fold_left emit_statement substmts info
    | _ => info
    end in
  if negb is_function_body then to_code_stack_load info block_num_ else info.

Definition emit_if_statement (info : information) (nd : stmt) : information :=
  match nd with
  | stmt_if condition then_substmt else_substmt =>
      let old_label_true := label_true info in
      let old_label_false := label_false info in
      let label_if := label_num info in
      let label_else := label_num info + 1 in
      let label_end := label_num info + 2 in
      let info := set_label_num (label_num info + 3) info in
      let info := set_label_true label_if info in
      let info := set_label_false label_else info in
      let info := set_variable_location LFREE info in
      let info := emit_expression info condition in
      let info := check_type_and_branch info in
      let info := to_code_label info label_if in
      let info := emit_statement info then_substmt in
      let info := to_code_unconditional_branch info label_end in
      let info := to_code_label info label_else in
      let info :=
        match else_substmt with
        | Some else_substmt => emit_statement info else_substmt
        | None => info
        end in
      let info := to_code_unconditional_branch info label_end in
      let info := to_code_label info label_end in
      let info := set_label_true old_label_true info in
      set_label_false old_label_false info
  | _ => info
  end.

Definition emit_while_statement (info : information) (nd : stmt) : information :=
  match nd with
  | stmt_while condition body =>
      let old_label_true := label_true info in
      let old_label_false := label_false info in
      let old_label_break := label_break info in
      let old_label_continue := label_continue info in
      let label_condition := label_num info in
      let label_body := label_num info + 1 in
      let label_end := label_num info + 2 in
      let info := set_label_num (label_num info + 3) info in
      let info := set_label_true label_body info in
      let info := set_label_false label_end info in
      let info := set_label_break label_end info in
      let info := set_label_continue label_body info in
      let info := to_code_unconditional_branch info label_condition in
      let info := to_code_label info label_condition in
      let info := set_variable_location LFREE info in
      let info := emit_expression info condition in
      let info := check_type_and_branch info in
      let info := to_code_label info label_body in
      let info := emit_statement info body in
      let info := to_code_unconditional_branch info label_condition in
      let info := to_code_label info label_end in
      let info := set_label_true old_label_true info in
      let info := set_label_false old_label_false info in
      let info := set_label_break old_label_break info in
      set_label_continue old_label_continue info
  | _ => info
  end.

Definition emit_do_statement (info : information) (nd : stmt) : information :=
  match nd with
  | stmt_do body condition =>
      let old_label_true := label_true info in
      let old_label_false := label_false info in
      let old_label_break := label_break info in
      let old_label_continue := label_continue info in
      let label_loop := label_num info in
      let label_end := label_num info + 1 in
      let info := set_label_num (label_num info + 2) info in
      let info := set_label_true label_loop info in
      let info := set_label_false label_end info in
      let info := set_label_break label_end info in
      let info := set_label_continue label_loop info in
      let info := to_code_unconditional_branch info label_loop in
      let info := to_code_label info label_loop in
      let info := emit_statement info body in
      let info := set_variable_location LFREE info in
      let info := emit_expression info condition in
      let info := check_type_and_branch info in
      let info := to_code_label info label_end in
      let info := set_label_true old_label_true info in
      let info := set_label_false old_label_false info in
      let info := set_label_break old_label_break info in
      set_label_continue old_label_continue info
  | _ => info
  end.

Definition emit_for_statement (info : information) (nd : stmt) : information :=
  match nd with
  | stmt_for inition condition increment body =>
      let old_label_true := label_true info in
      let old_label_false := label_false info in
      let old_label_break := label_break info in
      let old_label_continue := label_continue info in
      let label_condition := label_num info in
      let label_body := label_num info + 1 in
      let label_incr := label_num info + 2 in
      let label_end := label_num info + 3 in
      let info := set_label_num (label_num info + 4) info in
      let info := set_label_true label_body info in
      let info := set_label_false label_end info in
      let info := set_label_break label_end info in
      let info := set_label_continue label_body info in
      let info :=
        match inition with
        | Some inition => emit_statement info inition
        | None => info
        end in
      let info := to_code_unconditional_branch info label_condition in
      let info := to_code_label info label_condition in
      let info :=
        match condition with
        | Some condition => emit_expression info condition
        | None => info
        end in
      let info := check_type_and_branch info in
      let info := to_code_label info label_incr in
      let info :=
        match increment with
        | Some increment => emit_expression info increment
        | None => info
        end in
      let info := to_code_unconditional_branch info label_condition in
      let info := to_code_label info label_body in
      let info := emit_statement info body in
      let info := to_code_unconditional_branch info label_incr in
      let info := to_code_label info label_end in
      let info := set_label_true old_label_true info in
      let info := set_label_false old_label_false info in
      let info := set_label_break old_label_break info in
      set_label_continue old_label_continue info
  | _ => info
  end.

Definition emit_return_statement (info : information) (nd : stmt) : information :=
  match nd with
  | stmt_return expression =>
      let info :=
        if was_dynamic info then to_code_stack_load info (-1) else info in
      if is_main info then info
      else
        match expression with
        | Some expression =>
            let info := set_variable_location LREG info in
            let info := emit_expression info expression in
            let answer_type := expression_get_type expression in
            if answer_eqb (answer_kind info) ACONST
               && type_is_integer (sx info) answer_type
            then uni_printf (I_ret_const_integer (answer_const info)) info
            else if answer_eqb (answer_kind info) ACONST
                    && type_is_floating answer_type
            then uni_printf (I_ret_const_double (answer_const_double info)) info
            else if answer_eqb (answer_kind info) AREG then
              let info := type_to_io info answer_type in
              uni_printf (I_ret_reg answer_type (answer_reg info)) info
            else info
        | None => uni_printf I_ret_void info
        end
  | _ => info
  end.

Definition emit_declaration_statement (info : information) (nd : stmt)
  : information :=
  match nd with
  | stmt_declaration declarators =>
      fold_left (fun info decl => emit_declaration info decl true) declarators info
  | _ => info
  end.

Definition emit_function_definition (info : information) (nd : decl)
  : information :=
  match nd with
  | decl_function ref_ident params body =>
      let func_type := ident_get_type (sx info) ref_ident in
      let ret_type :=
        if negb (ref_ident =? ref_main (sx info))
        then type_function_get_return_type func_type
        else type_primitive TYPE_INTEGER in
      let parameters := type_function_get_parameter_amount func_type in
      let info := set_was_dynamic false info in
      let info := type_to_io info ret_type in
      let info :=
        if ref_ident =? ref_main (sx info) then set_is_main true info else info in
      let info :=
        fold_left
          (fun info i => type_to_io info (type_function_get_parameter_type func_type i))
          (seq 0 parameters) info in
      let info :=
        uni_printf
          (I_define ret_type (ref_ident =? ref_main (sx info))
             (ident_get_spelling (sx info) ref_ident)
             (map (type_function_get_parameter_type func_type) (seq 0 parameters)))
          info in
      let info :=
        fold_left
          (fun info i =>
             let id := nth i params 0 in
             let param_type := ident_get_type (sx info) id in
             let info := type_to_io info param_type in
             let info := uni_printf (I_param_alloca id param_type) info in
             uni_printf (I_param_store param_type i id) info)
          (seq 0 parameters) info in
      let info := emit_compound_statement info body true in
      let info :=
        if type_is_void ret_type then
          let info :=
            if was_dynamic info then to_code_stack_load info (-1) else info in
          uni_printf I_ret_void info
        else if ref_ident =? ref_main (sx info) then
          let info := uni_printf (I_ret_const_integer 0) info in
          set_is_main false info
        else info in
      uni_printf I_function_end info
  | _ => info
  end.

End Statements.

Fixpoint emit_statement (info : information) (nd : stmt) {struct nd}
  : information :=
  match nd with
  | stmt_declaration _ => emit_declaration_statement emit_declaration info nd
  | stmt_labeled _ _ => emit_labeled_statement emit_statement info nd
  | stmt_case _ _ => info
  | stmt_default _ => info
  | stmt_compound _ => emit_compound_statement emit_statement info nd false
  | stmt_expr expression => emit_expression info expression
  | stmt_null => info
  | stmt_if _ _ _ => emit_if_statement emit_statement info nd
  | stmt_switch _ _ => info
  | stmt_while _ _ => emit_while_statement emit_statement info nd
  | stmt_do _ _ => emit_do_statement emit_statement info nd
  | stmt_for _ _ _ _ => emit_for_statement emit_statement info nd
  | stmt_goto label => to_code_unconditional_branch info (item_wrap label)
  | stmt_continue => to_code_unconditional_branch info (label_continue info)
  | stmt_break => to_code_unconditional_branch info (label_break info)
  | stmt_return _ => emit_return_statement info nd
  | stmt_other => info
  end
with emit_declaration (info : information) (nd : decl) (is_local : bool)
  {struct nd} : information :=
  match nd with
  | decl_variable _ _ _ => emit_variable_declaration info nd is_local
  | decl_function _ _ _ => emit_function_definition emit_statement info nd
  | decl_other => info
  end.

(** *** [emit_translation_unit]

    The declarations of the unit are emitted in order, none of them local.
    The lines that follow them are no instructions: they declare what the
    flags say was used.  They are kept apart from [io], and the result is
    the final state with these lines, which come after [io].  The value the
    function returns is [sx->was_error], a field of the tables that no
    emitter writes to; the two lines written under [_MSC_VER] only are left
    out. *)
Inductive unit_line : Type :=
| U_declare_stacksave      (* declare i8* @llvm.stacksave() *)
| U_declare_stackrestore   (* declare void @llvm.stackrestore(i8* ) *)
| U_struct_IO_FILE         (* %struct._IO_FILE = type { ... } *)
| U_struct_IO_marker       (* %struct._IO_marker = type { ... } *)
| U_declare_abs            (* declare i32 @abs(i32) *)
| U_declare_fabs           (* declare double @llvm.fabs.f64(double) *).

Definition emit_translation_unit (info : information) (nd : list decl)
  : information * list unit_line :=
  let info := fold_left (fun info decl => emit_declaration info decl false) nd info in
  let out := [] in
  let out :=
    if was_stack_functions info
    then out ++ [U_declare_stacksave; U_declare_stackrestore] else out in
  let out :=
    if was_file info then out ++ [U_struct_IO_FILE; U_struct_IO_marker] else out in
  let out := if was_abs info then out ++ [U_declare_abs] else out in
  let out := if was_fabs info then out ++ [U_declare_fabs] else out in
  (info, out).

End LLVMGen.

(** ** Concrete inputs

    A table of identifiers, small trees and an encoder state in its initial
    configuration ([encode_to_llvm]), on which the definitions above are
    evaluated below. *)

Module Examples.
Import Tree.

(** Identifier 0 is [printf], 7 a [void] function, 8 [main], 9 an [int]
    function; every other identifier is a local [int].  String [n] of the
    pool is the format made of [n] placeholders [%i]. *)
Definition ex_syntax : syntax :=
  {| type_is_integer :=
       fun t => match type_get_class t with
                | TYPE_INTEGER | TYPE_CHARACTER | TYPE_BOOLEAN => true
                | _ => false
                end;
     type_string := type_array TYPE_CHARACTER;
     ident_get_type :=
       fun id =>
         if id =? 0 then type_function TYPE_INTEGER [type_array TYPE_CHARACTER; type_primitive TYPE_VARARG]
         else if id =? 7 then type_function TYPE_VOID []
         else if id =? 8 then type_function TYPE_VOID []
         else if id =? 9 then type_function TYPE_INTEGER []
         else TYPE_INTEGER;
     ident_is_local := fun id => 9 <? id;
     ident_get_spelling :=
       fun id => if id =? 0 then "printf"%string
                 else if id =? 8 then "main"%string else "f"%string;
     string_get := fun i => concat (replicate (Z.to_nat i) [37; 105]);
     strings_length := fun i => 2 * i;
     ref_main := 8;
     BEGIN_USER_FUNC := 5 |}.

Definition ex_loc : location := {| loc_begin := 0; loc_end := 0 |}.

Definition ex_node (op : operation_t) (t : type) (payload : arg)
  (children : list nat) : node_data :=
  {| nd_type := op;
     nd_args := [AType t; AItem (category_item RVALUE); payload; AItem 0; AItem 0];
     nd_children := children; nd_removed := false |}.

Definition ex_block (children : list nat) : node_data :=
  {| nd_type := OP_BLOCK; nd_args := []; nd_children := children;
     nd_removed := false |}.

Definition ex_literal (t : type) (v : item_t) : node_data :=
  ex_node OP_LITERAL t (AItem v) [].

Definition ex_builder (tr : vector) : Builder.builder :=
  {| Builder.sx := ex_syntax; Builder.tree := tr; Builder.reports := [];
     Builder.context := node_at 0; Builder.func_type := type_function TYPE_VOID [] |}.

Definition ex_tree_1_0 : vector :=
  [ex_block [1; 2]; ex_literal TYPE_INTEGER 1; ex_literal TYPE_INTEGER 0]%nat.
Definition ex_tree_7_0 : vector :=
  [ex_block [1; 2]; ex_literal TYPE_INTEGER 7; ex_literal TYPE_INTEGER 0]%nat.

(** The operands of [ITEM_MIN / -1], the least value and [-1], under the
    root. *)
Definition ex_tree_min_m1 : vector :=
  [ex_block [1; 2]; ex_literal TYPE_INTEGER ITEM_MIN;
   ex_literal TYPE_INTEGER (-1)]%nat.

(** The character literal ['a'] and the integer literal [1], under the root. *)
Definition ex_tree_char : vector :=
  [ex_block [1]; ex_literal TYPE_CHARACTER 97]%nat.
Definition ex_tree_int : vector :=
  [ex_block [1]; ex_literal TYPE_INTEGER 1]%nat.
(** The integer literal [1] and the floating literal [2.0], under the
    root. *)
Definition ex_tree_int_float : vector :=
  [ex_block [1; 2]; ex_literal TYPE_INTEGER 1;
   ex_node OP_LITERAL TYPE_FLOATING (ADouble (double_of_item 2)) []]%nat.

(** The boolean literal [true], under the root. *)
Definition ex_tree_bool : vector :=
  [ex_block [1]; ex_literal TYPE_BOOLEAN 1]%nat.


(** [printf("%i%i...%i", 1, ..., 1)] with [n] value arguments: the callee
    is node 1, the format node 2, the values nodes 3 to [n + 2]. *)
Definition ex_printf_tree (n : nat) : vector :=
  [ex_block (seq 1 (n + 2));
   ex_node OP_IDENTIFIER (ident_get_type ex_syntax 0) (AItem 0) [];
   ex_node OP_LITERAL (type_array TYPE_CHARACTER) (AItem (Z.of_nat n)) []]
  ++ replicate n (ex_literal TYPE_INTEGER 1).

Definition ex_printf_args (n : nat) : list node :=
  node_at <$> seq 2 (n + 1).

Import AST LLVMGen.

Definition ex_information : information :=
  {| sx := ex_syntax; io := []; system_errors := [];
     register_num := 1; label_num := 1; init_num := 1; block_num := 1;
     request_reg := 0; variable_location := LREG; answer_reg := 0;
     answer_const := 0; answer_string := 0;
     answer_const_double := double_of_item 0; answer_kind := AREG;
     label_true := 0; label_false := 0; label_break := 0; label_continue := 0;
     label_ternary_end := 0; arrays := ∅;
     was_stack_functions := false; was_dynamic := false; was_file := false;
     was_abs := false; was_fabs := false; was_function := ∅; is_main := false |}.

(** The expression [!x], for a local [x], and the state in which the
    branch of an [if] is emitted once labels 1 and 2 are taken for the
    branches. *)
Definition ex_lognot : expr :=
  expr_unary TYPE_INTEGER UN_LOGNOT (expr_identifier TYPE_INTEGER 10).

Definition ex_in_branch : information :=
  set_label_false 2 (set_label_true 1 ex_information).

(** The body [{ return 3; }]. *)
Definition ex_main_body : stmt :=
  stmt_compound [stmt_return (Some (expr_literal TYPE_INTEGER (AItem 3)))].

(** The block [{ { break; } return; }]. *)
Definition ex_nested_blocks : stmt :=
  stmt_compound [stmt_compound [stmt_break]; stmt_return None].

End Examples.

(** * Properties of the builder: what is stated

    The predicates in which the properties of the builder are stated. *)

Module BuilderProperties.
Import Tree Builder.

(** A node is detached when it is flagged as removed and no node of the
    arena has it as a child. *)
Definition detached (tr : vector) (i : nat) : Prop :=
  (exists d, tr !! i = Some d /\ nd_removed d = true)
  /\ (forall k d, tr !! k = Some d -> i ∉ nd_children d).





(** [nd] is a literal node without children, of type [t] and payload [v]. *)
Definition literal_node (tr : vector) (nd : node) (t : type) (v : Z) : Prop :=
  expression_get_class tr nd = EXPR_LITERAL
  /\ expression_get_type tr nd = t
  /\ expression_literal_get_integer tr nd = v
  /\ node_get_amount tr nd = O.



(** [build_cast_expression] applied to its own result. *)
Definition build_cast_twice (target_type : type) (expr : node) (tr : vector)
  : vector * node :=
  let p := build_cast_expression target_type expr tr in
  build_cast_expression target_type (snd p) (fst p).

(** The types that [evaluate_args] records for a placeholder. *)
Definition placeholder_type (s : syntax) (t : type) : Prop :=
  t = TYPE_INTEGER \/ t = TYPE_FLOATING \/ t = type_string s.

(** The type that [evaluate_args] records for the specifier [c]. *)
Definition specifier_type (s : syntax) (c : Z) (t : type) : Prop :=
  (is_specifier_integer c = true /\ t = TYPE_INTEGER)
  \/ (is_specifier_floating c = true /\ t = TYPE_FLOATING)
  \/ (is_specifier_string c = true /\ t = type_string s).

(** The entries of [placeholders] and [format_types] under [n] are the
    specifiers of placeholders and their types. *)
Definition placeholders_recorded (s : syntax) (n : nat)
  (format_types : list type) (placeholders : list Z) : Prop :=
  forall k, (k < n)%nat ->
    exists c t,
      placeholders !! k = Some c /\ format_types !! k = Some t
      /\ specifier_type s c t.

(** The entries of [format_types] under [n] are types of placeholders. *)
Definition placeholders_typed (s : syntax) (n : nat) (format_types : list type)
  : Prop :=
  forall k, (k < n)%nat ->
    exists t, format_types !! k = Some t /\ placeholder_type s t.


End BuilderProperties.

(** * Properties of the emitter: what is stated

    The relations between the state of the emitter before and after a piece
    of emission, in which the properties of the emitter are stated. *)

Module LLVMGenProperties.
Import AST LLVMGen.

(** ** Lines and steps

    A line is quiet when it is no return instruction and, if it stores to or
    loads from a stack slot, the slot is the function-wide slot [-1]. *)
Definition quiet_line (l : instr) : Prop :=
  match l with
  | I_ret_void | I_ret_const_integer _ | I_ret_const_double _ | I_ret_reg _ _ => False
  | I_dyn_store _ k | I_dyn_load _ k => k = -1
  | _ => True
  end.

(** A quiet step from [i] to [j]: the tables, the loop labels, the block
    counter and [is_main] are kept, and only quiet lines are written.
    Expressions and declarations of variables are quiet steps. *)
Definition quiet_step (i j : information) : Prop :=
  sx j = sx i
  /\ label_break j = label_break i
  /\ label_continue j = label_continue i
  /\ block_num j = block_num i
  /\ is_main j = is_main i
  /\ exists out, io j = io i ++ out /\ Forall quiet_line out.

(** [f] takes a quiet step on the expression [e]. *)
Definition quiet_on (f : information -> expr -> information) (e : expr) : Prop :=
  forall i j, quiet_step i j -> quiet_step i (f j e).

(** The slices of [e], emitted with [f] for the indices, are a quiet step. *)
Definition quiet_slices (f : information -> expr -> information) (e : expr)
  : Prop :=
  forall id cur i j, quiet_step i j ->
    quiet_step i (emit_one_dimension_subscript f j e id cur).

(** ** The loop labels *)

Definition labels_kept (i j : information) : Prop :=
  label_break j = label_break i /\ label_continue j = label_continue i.

(** The statement [s] keeps the loop labels, as a statement and as the body
    of a function. *)
Definition keeps_labels (s : stmt) : Prop :=
  (forall i j, labels_kept i j -> labels_kept i (emit_statement j s))
  /\ (forall b i j, labels_kept i j ->
        labels_kept i (emit_compound_statement emit_statement j s b)).

(** ** Inside [main]

    A line that is no return instruction. *)
Definition no_return (l : instr) : Prop :=
  match l with
  | I_ret_void | I_ret_const_integer _ | I_ret_const_double _ | I_ret_reg _ _ =>
      False
  | _ => True
  end.

(** A step inside [main], from [i] to [j]: the tables are kept, [is_main]
    is set in [j], and no return instruction is written. *)
Definition main_step (i j : information) : Prop :=
  sx j = sx i /\ is_main j = true
  /\ exists out, io j = io i ++ out /\ Forall no_return out.

(** A statement is plain when no function is defined inside it (as in C,
    functions are defined at the top level only). *)
Definition plain_declaration (d : decl) : bool :=
  match d with decl_function _ _ _ => false | _ => true end.

Fixpoint plain_statement (s : stmt) : bool :=
  match s with
  | stmt_declaration ds => forallb plain_declaration ds
  | stmt_labeled _ s | stmt_case _ s | stmt_default s | stmt_switch _ s
  | stmt_while _ s | stmt_do s _ => plain_statement s
  | stmt_compound ss => forallb plain_statement ss
  | stmt_if _ s o =>
      plain_statement s
      && match o with Some s' => plain_statement s' | None => true end
  | stmt_for o _ _ s =>
      match o with Some s' => plain_statement s' | None => true end
      && plain_statement s
  | _ => true
  end.

(** The plain statement [s] is a step inside [main], as a statement and as
    the body of a function. *)
Definition keeps_main (s : stmt) : Prop :=
  plain_statement s = true ->
  (forall i j, main_step i j -> main_step i (emit_statement j s))
  /\ (forall b i j, main_step i j ->
        main_step i (emit_compound_statement emit_statement j s b)).

(** ** Walking through a body

    A relation on the first component of a pair of a state and a counter. *)
Definition on_fst {B : Type} (rel : information -> Prop) (p : information * B)
  : Prop := rel (fst p).

(** [post x], to be proved by a walk through [x] along which every state
    met satisfies [rel]. *)
Definition walking (rel post : information -> Prop) (x : information) : Prop :=
  post x.

(** ** The block slots

    The lines are read in order; [next] is a bound under which no key of a
    block slot is stored any more, [open] the keys of the slots stored to and
    not yet loaded from, the innermost first.  A store to a block slot needs
    a key from [next] on and opens the slot; a load needs the innermost open
    slot and closes it.  Slot [-1], which belongs to the function, is not
    looked at. *)
Fixpoint stack_scan (next : item_t) (open : list item_t) (out : list instr)
  : option (item_t * list item_t) :=
  match out with
  | [] => Some (next, open)
  | I_dyn_store _ k :: out =>
      if k =? -1 then stack_scan next open out
      else if next <=? k then stack_scan (k + 1) (k :: open) out
      else None
  | I_dyn_load _ k :: out =>
      if k =? -1 then stack_scan next open out
      else
        match open with
        | k' :: open' => if k =? k' then stack_scan next open' out else None
        | [] => None
        end
  | _ :: out => stack_scan next open out
  end.

(** A step from [i] to [j] that leaves the slots [pending] open: read from
    any bound up to the block counter of [i], the lines written pass the
    scan, which ends under the block counter of [j] with [pending] opened on
    top of what was open. *)
Definition block_step (pending : list item_t) (i j : information) : Prop :=
  block_num i <= block_num j
  /\ exists out,
       io j = io i ++ out
       /\ forall next open, next <= block_num i ->
            exists next', next' <= block_num j
              /\ stack_scan next open out = Some (next', pending ++ open).

(** The statement [s] closes the slots it opens, as a statement and as the
    body of a function (the block counter is not negative: it starts
    at 1). *)
Definition keeps_blocks (s : stmt) : Prop :=
  (forall pending i j, 0 <= block_num i -> block_step pending i j ->
     block_step pending i (emit_statement j s))
  /\ (forall b pending i j, 0 <= block_num i -> block_step pending i j ->
        block_step pending i (emit_compound_statement emit_statement j s b)).

(** A line that is no store to and no load from a stack slot. *)
Definition slot_free (l : instr) : Prop :=
  match l with
  | I_dyn_store _ _ | I_dyn_load _ _ => False
  | _ => True
  end.

(** ** Declared if used

    A line that calls [@llvm.stacksave], [@llvm.stackrestore], [@abs] or
    [@llvm.fabs.f64] is covered in the state [j] when the flag that makes
    [emit_translation_unit] declare the function is set in [j]; a line that
    calls the function of identifier [r] is covered when, [r] being a
    library function of [builtin_t], [r] is among [was_function j]. *)
Definition line_declared (j : information) (l : instr) : Prop :=
  match l with
  | I_stacksave _ | I_stackrestore _ => was_stack_functions j = true
  | I_call_abs _ _ is_integer _ =>
      if is_integer then was_abs j = true else was_fabs j = true
  | I_call _ _ spelling _ =>
      exists r, spelling = ident_get_spelling (sx j) r
                /\ ((r <? BEGIN_USER_FUNC (sx j)) = true -> r ∈ was_function j)
  | _ => True
  end.

(** A step from [i] to [j] that covers what it uses: the tables are kept,
    no flag is taken back, and every line written is covered in [j]. *)
Definition uses_step (i j : information) : Prop :=
  sx j = sx i
  /\ (was_stack_functions i = true -> was_stack_functions j = true)
  /\ (was_abs i = true -> was_abs j = true)
  /\ (was_fabs i = true -> was_fabs j = true)
  /\ was_function i ⊆ was_function j
  /\ exists out, io j = io i ++ out /\ Forall (line_declared j) out.

(** The same, with the flag of the callee [r] set on the way. *)
Definition uses_call (r : Z) (i j : information) : Prop :=
  uses_step i j
  /\ ((r <? BEGIN_USER_FUNC (sx i)) = true -> r ∈ was_function j).

Definition uses_on (f : information -> expr -> information) (e : expr) : Prop :=
  forall i j, uses_step i j -> uses_step i (f j e).

Definition uses_slices (f : information -> expr -> information) (e : expr)
  : Prop :=
  forall id cur i j, uses_step i j ->
    uses_step i (emit_one_dimension_subscript f j e id cur).

Definition keeps_uses (s : stmt) : Prop :=
  (forall i j, uses_step i j -> uses_step i (emit_statement j s))
  /\ (forall b i j, uses_step i j ->
        uses_step i (emit_compound_statement emit_statement j s b)).

(** The lines [out], which follow the instructions of a unit, declare what
    the instruction [l] calls. *)
Definition unit_declares (out : list unit_line) (l : instr) : Prop :=
  match l with
  | I_stacksave _ => U_declare_stacksave ∈ out
  | I_stackrestore _ => U_declare_stackrestore ∈ out
  | I_call_abs _ _ is_integer _ =>
      if is_integer then U_declare_abs ∈ out else U_declare_fabs ∈ out
  | _ => True
  end.

(** ** Leaving a block *)

(** A line that stores to or loads from no stack slot but the function-wide
    one. *)
Definition function_slot (l : instr) : Prop :=
  match l with
  | I_dyn_store _ k | I_dyn_load _ k => k = -1
  | _ => True
  end.

(** A step that touches no stack slot of a block. *)
Definition exit_step (i j : information) : Prop :=
  exists out, io j = io i ++ out /\ Forall function_slot out.

(** ** The labels

    The labels that a statement takes from the program: the targets of its
    [goto]s and the labels of its labeled statements, as they are written. *)
Fixpoint statement_labels (s : stmt) : list item_t :=
  match s with
  | stmt_declaration ds => flat_map declaration_labels ds
  | stmt_labeled l s => item_wrap (- item_wrap l) :: statement_labels s
  | stmt_compound ss => flat_map statement_labels ss
  | stmt_if _ s o =>
      statement_labels s
      ++ match o with Some s' => statement_labels s' | None => [] end
  | stmt_while _ s | stmt_do s _ => statement_labels s
  | stmt_for o _ _ s =>
      match o with Some s' => statement_labels s' | None => [] end
      ++ statement_labels s
  | stmt_goto l => [item_wrap l]
  | _ => []
  end
with declaration_labels (d : decl) : list item_t :=
  match d with
  | decl_function _ _ body => statement_labels body
  | _ => []
  end.

(** A label that is placed is one of the program's, in [U], or one taken
    from the counter, from [lo] on and under [hi]; a label that is branched
    to may also be one of the labels [C] of the context. *)
Definition label_placed (U : list item_t) (lo hi k : item_t) : Prop :=
  lo <= k < hi \/ In k U.

Definition label_used (U : list item_t) (C : item_t -> Prop)
  (lo hi k : item_t) : Prop :=
  lo <= k < hi \/ In k U \/ C k.

Definition labels_within (U : list item_t) (C : item_t -> Prop)
  (lo hi : item_t) (l : instr) : Prop :=
  match l with
  | I_label k => label_placed U lo hi k
  | I_br k => label_used U C lo hi k
  | I_br_cond _ a b => label_used U C lo hi a /\ label_used U C lo hi b
  | _ => True
  end.

(** A label of the context: one of [C], or one taken from the counter. *)
Definition label_ok (C : item_t -> Prop) (lo hi k : item_t) : Prop :=
  C k \/ lo <= k < hi.

(** A step from [i] to [j] that keeps the labels within bounds: the
    counter of [j] has reached [m], the four labels of the context of [j]
    are labels of [C] or were taken from the counter, from [lo] on, and so
    are the labels of the lines written. *)
Definition label_step (U : list item_t) (C : item_t -> Prop) (lo m : item_t)
  (i j : information) : Prop :=
  lo <= m /\ m <= label_num j
  /\ label_ok C lo (label_num j) (label_true j)
  /\ label_ok C lo (label_num j) (label_false j)
  /\ label_ok C lo (label_num j) (label_break j)
  /\ label_ok C lo (label_num j) (label_continue j)
  /\ exists out,
       io j = io i ++ out
       /\ Forall (labels_within U C lo (label_num j)) out.

Definition label_on (U : list item_t) (C : item_t -> Prop) (lo : item_t)
  (f : information -> expr -> information) (e : expr) : Prop :=
  forall m i j, label_step U C lo m i j -> label_step U C lo m i (f j e).

Definition label_slices (U : list item_t) (C : item_t -> Prop) (lo : item_t)
  (f : information -> expr -> information) (e : expr) : Prop :=
  forall id cur m i j, label_step U C lo m i j ->
    label_step U C lo m i (emit_one_dimension_subscript f j e id cur).

(** The statement [s], whose labels are in [U], keeps the labels within
    bounds, as a statement and as the body of a function. *)
Definition keeps_fresh (U : list item_t) (C : item_t -> Prop) (lo : item_t)
  (s : stmt) : Prop :=
  incl (statement_labels s) U ->
  (forall m i j, label_step U C lo m i j ->
     label_step U C lo m i (emit_statement j s))
  /\ (forall b m i j, label_step U C lo m i j ->
        label_step U C lo m i (emit_compound_statement emit_statement j s b)).

(** The labels out of a loop: where [break] and [continue] go. *)
Definition loop_exit (i : information) (k : item_t) : Prop :=
  k = label_break i \/ k = label_continue i.

Definition no_label (k : item_t) : Prop := False.

(** The statement [s], emitted from [i], takes [n] labels or more from the
    counter, and the labels of its lines are labels taken from the counter
    in its emission or labels of the program written in [s]; a branch may
    also go to a label of [C]. *)
Definition fresh_labels (n : Z) (C : item_t -> Prop) (i : information)
  (s : stmt) : Prop :=
  label_num i + n <= label_num (emit_statement i s)
  /\ exists out,
       io (emit_statement i s) = io i ++ out
       /\ Forall
            (labels_within (statement_labels s) C (label_num i)
               (label_num (emit_statement i s)))
            out.

End LLVMGenProperties.

(** * Properties of the builder *)

Module BuilderFacts.
Import Tree Builder BuilderProperties.

(** ** Arithmetic of [item_t] *)




Lemma item_wrap_id z : item_in_range z -> item_wrap z = z.
Proof.
  unfold item_in_range, item_wrap, ITEM_MIN, ITEM_MAX. intros H.
  rewrite Z.mod_small; lia.
Qed.








(** ** Equality of types *)

Lemma type_t_eqb_refl c : type_t_eqb c c = true.
Proof. destruct c; reflexivity. Qed.

Lemma type_eqb_refl : forall t, type_eqb t t = true.
Proof.
  fix IH 1. intros [c|i|i|e|e|ms|r ps]; cbn.
  - apply type_t_eqb_refl.
  - apply Z.eqb_refl.
  - apply Z.eqb_refl.
  - apply IH.
  - apply IH.
  - induction ms as [|[n t] ms IHms]; [reflexivity|].
    rewrite Z.eqb_refl, IH, IHms. reflexivity.
  - rewrite IH. cbn. induction ps as [|t ps IHps]; [reflexivity|].
    rewrite IH, IHps. reflexivity.
Qed.

Lemma type_t_eqb_eq a b : type_t_eqb a b = true -> a = b.
Proof. destruct a, b; cbn; intros H; try discriminate; reflexivity. Qed.

Lemma type_eqb_eq : forall a b, type_eqb a b = true -> a = b.
Proof.
  fix IH 1. intros [c|i|i|e|e|ms|r ps] [c'|i'|i'|e'|e'|ms'|r' ps'] H;
    cbn in H; try discriminate.
  - f_equal. apply type_t_eqb_eq. exact H.
  - f_equal. apply Z.eqb_eq. exact H.
  - f_equal. apply Z.eqb_eq. exact H.
  - f_equal. apply IH. exact H.
  - f_equal. apply IH. exact H.
  - f_equal. revert ms' H.
    induction ms as [|[n t] ms IHms]; intros [|[n' t'] ms'] H;
      try discriminate; [reflexivity|].
    apply andb_prop in H. destruct H as [H H3].
    apply andb_prop in H. destruct H as [H1 H2].
    apply Z.eqb_eq in H1. apply IH in H2. apply IHms in H3. congruence.
  - apply andb_prop in H. destruct H as [H1 H2]. apply IH in H1. subst r'.
    f_equal. revert ps' H2.
    induction ps as [|t ps IHps]; intros [|t' ps'] H;
      try discriminate; [reflexivity|].
    apply andb_prop in H. destruct H as [H1 H2].
    apply IH in H1. apply IHps in H2. congruence.
Qed.

(** ** The arena *)

Lemma node_remove_detached tr i :
  (i < length tr)%nat -> detached (node_remove tr (node_at i)) i.
Proof.
  intros Hi. unfold detached, node_remove. split.
  - destruct (lookup_lt_is_Some_2 tr i Hi) as [d Hd].
    exists (set_removed true (drop_child i d)). split; [|reflexivity].
    rewrite list_lookup_alter_eq, list_lookup_fmap, Hd. reflexivity.
  - intros k d Hk.
    assert (exists d0, nd_children d = filter (fun c => c <> i) (nd_children d0))
      as [d0 ->].
    { destruct (decide (i = k)) as [->|Hne].
      - rewrite list_lookup_alter_eq, list_lookup_fmap in Hk.
        destruct (tr !! k) as [d0|]; [|discriminate]. cbn in Hk.
        injection Hk as <-. exists d0. reflexivity.
      - rewrite list_lookup_alter_ne, list_lookup_fmap in Hk by done.
        destruct (tr !! k) as [d0|]; [|discriminate]. cbn in Hk.
        injection Hk as <-. exists d0. reflexivity. }
    intros Hin. apply list_elem_of_filter in Hin. tauto.
Qed.


Lemma node_set_arg_keeps_detached tr nd k a i :
  detached tr i -> detached (node_set_arg tr nd k a) i.
Proof.
  destruct nd as [|j]; [trivial|].
  intros [[d [Hd Hr]] Hc]. unfold detached, node_set_arg. split.
  - destruct (decide (j = i)) as [->|Hne].
    + eexists. rewrite list_lookup_alter_eq, Hd. cbn. split; [reflexivity|exact Hr].
    + exists d. rewrite list_lookup_alter_ne by done. split; assumption.
  - intros k' d' Hk.
    destruct (decide (j = k')) as [->|Hne].
    + rewrite list_lookup_alter_eq in Hk.
      destruct (tr !! k') as [d0|] eqn:Hd0; [|discriminate]. cbn in Hk.
      injection Hk as <-. cbn. exact (Hc k' d0 Hd0).
    + rewrite list_lookup_alter_ne in Hk by done. exact (Hc k' d' Hk).
Qed.

Lemma stamp_keeps_detached tr nd t c payload loc i :
  detached tr i -> detached (stamp tr nd t c payload loc) i.
Proof.
  intros H. unfold stamp. repeat apply node_set_arg_keeps_detached. exact H.
Qed.

Lemma node_add_child_keeps_detached tr ctx op argc i :
  (i < length tr)%nat -> detached tr i ->
  detached (fst (node_add_child tr ctx op argc)) i.
Proof.
  destruct ctx as [|c]; [trivial|].
  intros Hi [[d [Hd Hr]] Hc]. unfold detached, node_add_child. cbn. split.
  - destruct (decide (c = i)) as [->|Hne].
    + eexists. rewrite lookup_app_l by (rewrite length_alter; exact Hi).
      rewrite list_lookup_alter_eq, Hd. cbn. split; [reflexivity|exact Hr].
    + exists d. rewrite lookup_app_l by (rewrite length_alter; exact Hi).
      rewrite list_lookup_alter_ne by done. split; assumption.
  - intros k d' Hk.
    apply lookup_app_Some in Hk as [Hk|[Hlen Hk]].
    + destruct (decide (c = k)) as [->|Hne].
      * rewrite list_lookup_alter_eq in Hk.
        destruct (tr !! k) as [d0|] eqn:Hd0; [|discriminate]. cbn in Hk.
        injection Hk as <-. cbn. intros Hin.
        apply elem_of_app in Hin as [Hin|Hin]; [exact (Hc k d0 Hd0 Hin)|].
        apply list_elem_of_singleton in Hin. lia.
      * rewrite list_lookup_alter_ne in Hk by done. exact (Hc k d' Hk).
    + apply list_lookup_singleton_Some in Hk as [_ <-]. cbn.
      apply not_elem_of_nil.
Qed.

(** The node that [expression_literal] creates. *)
Lemma expression_literal_spec tr ctx t payload loc :
  node_is_correct ctx = true ->
  exists tr',
    expression_literal tr ctx t payload loc = (tr', node_at (length tr))
    /\ tr' !! length tr
       = Some {| nd_type := OP_LITERAL;
                 nd_args := [AType t; AItem (category_item RVALUE); payload;
                             AItem (loc_begin loc); AItem (loc_end loc)];
                 nd_children := []; nd_removed := false |}
    /\ (forall i, (i < length tr)%nat -> detached tr i -> detached tr' i).
Proof.
  destruct ctx as [|c]; [discriminate|]. intros _.
  unfold expression_literal. cbn [node_add_child].
  eexists. split; [reflexivity|]. split.
  - unfold stamp, node_set_arg.
    rewrite !list_lookup_alter_eq.
    rewrite lookup_app_r by (rewrite length_alter; lia).
    rewrite length_alter, Nat.sub_diag. reflexivity.
  - intros i Hi Hd. apply stamp_keeps_detached.
    apply (node_add_child_keeps_detached tr (node_at c) OP_LITERAL 5 i Hi Hd).
Qed.

(** ** Constant folding of integer operands *)

Lemma literal_node_of_lookup tr n t v b e :
  tr !! n = Some {| nd_type := OP_LITERAL;
                    nd_args := [AType t; AItem (category_item RVALUE); AItem v;
                                AItem b; AItem e];
                    nd_children := []; nd_removed := false |} ->
  literal_node tr (node_at n) t v.
Proof.
  intros H. unfold literal_node, expression_get_class, expression_get_type,
    expression_literal_get_integer, node_get_amount, node_get_arg, node_get.
  rewrite H. cbn. auto.
Qed.

Lemma class_literal_lookup tr i :
  expression_get_class tr (node_at i) = EXPR_LITERAL -> (i < length tr)%nat.
Proof.
  unfold expression_get_class, node_get. intros H.
  destruct (tr !! i) eqn:E; [|discriminate].
  apply lookup_lt_Some in E. exact E.
Qed.



Lemma length_node_remove tr nd : length (node_remove tr nd) = length tr.
Proof.
  destruct nd; [reflexivity|]. unfold node_remove.
  rewrite length_alter, length_fmap. reflexivity.
Qed.



Import Examples.


(** The remainder of the literals [7] and [0]: the fold has no result. *)
Lemma fold_binary_expression_remainder_by_zero :
  fold_binary_expression TYPE_INTEGER (node_at 1) (node_at 2) BIN_REM ex_loc
    (ex_builder ex_tree_7_0)
  = Undefined.
Proof. reflexivity. Qed.

(** A division or a remainder of two integer literals whose right operand
    is zero: both operands are removed, then the quotient is evaluated by
    the builder itself; no diagnostic is reported and no node is returned. *)
Lemma fold_binary_expression_zero_divisor :
  forall (bldr : builder) (t : type) (LHS RHS : node) (op : binary_t)
    (loc : location),
    expression_get_class (tree bldr) LHS = EXPR_LITERAL ->
    expression_get_class (tree bldr) RHS = EXPR_LITERAL ->
    type_get_class (expression_get_type (tree bldr) LHS) = TYPE_INTEGER ->
    expression_literal_get_integer (tree bldr) RHS = 0 ->
    op = BIN_DIV \/ op = BIN_REM ->
    fold_binary_expression t LHS RHS op loc bldr = Undefined.
Proof.
  intros bldr t LHS RHS op loc Hl Hr Ht H0 Hop.
  unfold fold_binary_expression, bind, with_tree, on_tree.
  rewrite Hl, Hr. cbn [expression_t_eqb negb orb]. cbv beta iota.
  rewrite Ht, H0. destruct Hop as [-> | ->]; reflexivity.
Qed.

(** C4 (the code at the failing input).  [1 / 0]: the fold does not leave
    the expression for the runtime and reports nothing; it evaluates the
    division, which C leaves undefined. *)
Theorem fold_binary_expression_division_by_zero :
  fold_binary_expression TYPE_INTEGER (node_at 1) (node_at 2) BIN_DIV ex_loc
    (ex_builder ex_tree_1_0)
  = Undefined.
Proof. reflexivity. Qed.

(** C5 (the code at the failing input).  [ITEM_MIN / -1], the least value
    divided by [-1]: in two's-complement arithmetic the quotient [2 ^ 63]
    is the least value again, but the builder, which has no test for these
    operands either, removes them and evaluates the division itself, which
    traps: no literal is returned. *)
Theorem fold_binary_expression_least_by_minus_one :
  fold_binary_expression TYPE_INTEGER (node_at 1) (node_at 2) BIN_DIV ex_loc
    (ex_builder ex_tree_min_m1)
  = Undefined.
Proof. reflexivity. Qed.

(** ** [build_cast_expression] *)

Lemma stamp_lookup tr n t c payload loc d :
  tr !! n = Some d -> length (nd_args d) = 5%nat ->
  stamp tr (node_at n) t c payload loc !! n
  = Some (set_args [AType t; AItem (category_item c); payload;
                    AItem (loc_begin loc); AItem (loc_end loc)] d).
Proof.
  intros Hd Hlen. unfold stamp, node_set_arg.
  rewrite !list_lookup_alter_eq, Hd.
  destruct d as [op args ch rm]. cbn in Hlen.
  do 5 (destruct args as [|? args]; [discriminate|]).
  destruct args; [|discriminate]. reflexivity.
Qed.

Lemma node_insert_lookup tr i op argc :
  fst (node_insert tr (node_at i) op argc) !! length tr
  = Some {| nd_type := op; nd_args := replicate argc (AItem 0);
            nd_children := [i]; nd_removed := false |}.
Proof.
  cbn. rewrite lookup_app_r by (rewrite length_fmap; lia).
  rewrite length_fmap, Nat.sub_diag. reflexivity.
Qed.

Lemma expression_cast_type tr target_type source_type i loc :
  let p := expression_cast tr target_type source_type (node_at i) loc in
  snd p = node_at (length tr)
  /\ expression_get_type (fst p) (snd p) = target_type.
Proof.
  unfold expression_cast.
  pose proof (node_insert_lookup tr i OP_CAST 5) as H.
  cbn [node_insert] in *. cbn [fst snd] in *.
  split; [reflexivity|].
  unfold expression_get_type, node_get_arg, node_get.
  erewrite stamp_lookup; [|exact H|reflexivity]. reflexivity.
Qed.

Lemma build_cast_literal_type tr i loc value :
  (i < length tr)%nat ->
  let tr1 := fst (node_insert tr (node_at i) OP_LITERAL 5) in
  expression_get_type
    (node_remove
       (stamp tr1 (node_at (length tr)) TYPE_FLOATING RVALUE (ADouble value) loc)
       (node_at i))
    (node_at (length tr))
  = TYPE_FLOATING.
Proof.
  intros Hi tr1.
  pose proof (node_insert_lookup tr i OP_LITERAL 5) as H. fold tr1 in H.
  unfold expression_get_type, node_get_arg, node_get, node_remove.
  rewrite list_lookup_alter_ne by lia.
  rewrite list_lookup_fmap.
  erewrite stamp_lookup; [|exact H|reflexivity]. reflexivity.
Qed.

(** C8 (as amended).  For a correct node [e], [build_cast_expression]
    returns [e] and leaves the tree as it is whenever the type of [e] is the
    target type; and it is idempotent when the target type is
    [TYPE_FLOATING], or [e] is not a literal, or the type of [e] is the
    target type. *)
Theorem build_cast_expression_idempotent :
  forall (target_type : type) (e : node) (tr : vector),
    node_is_correct e = true ->
    (expression_get_type tr e = target_type ->
     build_cast_expression target_type e tr = (tr, e))
    /\ (target_type = TYPE_FLOATING
        \/ expression_get_class tr e <> EXPR_LITERAL
        \/ expression_get_type tr e = target_type ->
        build_cast_twice target_type e tr
        = build_cast_expression target_type e tr).
Proof.
  intros T [|i] tr Hc; [discriminate|].
  assert (Hsecond : forall tr1 n,
            expression_get_type tr1 (node_at n) = T ->
            build_cast_expression T (node_at n) tr1 = (tr1, node_at n)).
  { intros tr1 n Hty. unfold build_cast_expression. cbn [node_is_correct negb].
    rewrite Hty, type_eqb_refl. reflexivity. }
  split; [apply Hsecond|]. intros Hside.
  unfold build_cast_twice. cbv zeta.
  assert (Hfirst :
    build_cast_expression T (node_at i) tr = (tr, node_at i)
    \/ exists tr1 n, build_cast_expression T (node_at i) tr = (tr1, node_at n)
                     /\ expression_get_type tr1 (node_at n) = T).
  { destruct (type_eqb T (expression_get_type tr (node_at i))) eqn:Eq.
    { left. apply Hsecond. symmetry. apply type_eqb_eq. exact Eq. }
    right. unfold build_cast_expression. cbn [node_is_correct negb].
    rewrite Eq. cbn [negb].
    destruct (expression_t_eqb (expression_get_class tr (node_at i)) EXPR_LITERAL)
      eqn:Ecl.
    - assert (Hlit : expression_get_class tr (node_at i) = EXPR_LITERAL).
      { destruct (expression_get_class tr (node_at i)); try discriminate.
        reflexivity. }
      destruct Hside as [-> | [Hne | Hty]]; [|contradiction|].
      + pose proof (class_literal_lookup _ _ Hlit) as Hi.
        cbn [node_insert].
        eexists. exists (length tr). split; [reflexivity|].
        apply (build_cast_literal_type tr i (node_get_location tr (node_at i))
                 (double_of_item (expression_literal_get_integer tr (node_at i)))
                 Hi).
      + rewrite Hty, type_eqb_refl in Eq. discriminate.
    - pose proof (expression_cast_type tr T (expression_get_type tr (node_at i)) i
                    (node_get_location tr (node_at i))) as [Hnd Hty].
      destruct (expression_cast tr T (expression_get_type tr (node_at i))
                  (node_at i) (node_get_location tr (node_at i))) as [tr1 r1].
      cbn [fst snd] in *. subst r1.
      exists tr1, (length tr). split; [reflexivity|exact Hty]. }
  destruct Hfirst as [E | (tr1 & n & E & Hty)]; rewrite E; cbn [fst snd].
  - exact E.
  - apply Hsecond. exact Hty.
Qed.

Lemma build_cast_expression_idempotent_witness :
  build_cast_expression TYPE_INTEGER (node_at 1) ex_tree_int
  = (ex_tree_int, node_at 1)
  /\ build_cast_twice TYPE_FLOATING (node_at 1) ex_tree_int
     = build_cast_expression TYPE_FLOATING (node_at 1) ex_tree_int.
Proof.
  split.
  - apply (proj1 (build_cast_expression_idempotent TYPE_INTEGER (node_at 1)
                    ex_tree_int eq_refl)).
    reflexivity.
  - apply (proj2 (build_cast_expression_idempotent TYPE_FLOATING (node_at 1)
                    ex_tree_int eq_refl)).
    left. reflexivity.
Defined.

(** A cast of the character literal ['a'] to [int]: the first application
    replaces the literal by a floating literal, the second one replaces that
    literal again.  The claim C8, as stated for every target type, fails. *)
Lemma build_cast_expression_not_idempotent :
  snd (build_cast_expression TYPE_INTEGER (node_at 1) ex_tree_char) = node_at 2
  /\ snd (build_cast_twice TYPE_INTEGER (node_at 1) ex_tree_char) = node_at 3.
Proof. split; vm_compute; reflexivity. Qed.

(** ** [check_assignment_operands] on the broken node *)

(** C9.  Whatever the expected type, [check_assignment_operands] applied to
    the broken node returns [true] and leaves the builder, hence its
    reports, as they are. *)
Theorem check_assignment_operands_broken :
  forall (fuel : nat) (expected_type : type) (bldr : builder),
    check_assignment_operands fuel expected_type node_broken bldr
    = Returns (true, node_broken) bldr.
Proof. intros [|fuel] expected_type bldr; reflexivity. Qed.

(** ** The limit on the arguments of [printf] *)

(** With twenty arguments or more, the format included, the call is
    rejected before the format is looked at. *)
Lemma build_printf_expression_argc_limit :
  forall (callee : node) (args : list node) (r_loc : location) (bldr : builder),
    (MAX_PRINTF_ARGS <= length args)%nat ->
    build_printf_expression callee (Some args) r_loc bldr
    = Returns node_broken (add_report (r_loc, too_many_printf_args) bldr).
Proof.
  intros callee args r_loc bldr H. unfold build_printf_expression.
  cbn [node_vector_size].
  destruct (Nat.eqb (length args) 0) eqn:E0.
  { apply Nat.eqb_eq in E0. unfold MAX_PRINTF_ARGS in H. lia. }
  apply Nat.leb_le in H. rewrite H. reflexivity.
Qed.

(** The scan of the format itself accepts twenty placeholders. *)
Lemma evaluate_args_twenty_placeholders :
  exists format_types placeholders,
    evaluate_args (node_at 2)
      (replicate MAX_PRINTF_ARGS (type_primitive TYPE_UNDEFINED))
      (replicate MAX_PRINTF_ARGS 0) (ex_builder (ex_printf_tree 20))
    = Returns (20%nat, format_types, placeholders) (ex_builder (ex_printf_tree 20)).
Proof. eexists. eexists. vm_compute. reflexivity. Qed.

(** Eighteen placeholders with eighteen values are accepted. *)
Lemma build_printf_expression_eighteen :
  exists bldr',
    build_printf_expression (node_at 1) (Some (ex_printf_args 18)) ex_loc
      (ex_builder (ex_printf_tree 18))
    = Returns (node_at 21) bldr'
    /\ reports bldr' = [].
Proof. eexists. vm_compute. split; reflexivity. Qed.

(** C2 (the code at the failing input).  [printf] with a format of twenty
    placeholders and twenty values: the call is rejected with
    [too_many_printf_args] and the broken node is returned. *)
Theorem build_printf_expression_twenty_placeholders :
  build_printf_expression (node_at 1) (Some (ex_printf_args 20)) ex_loc
    (ex_builder (ex_printf_tree 20))
  = Returns node_broken
      (add_report (ex_loc, too_many_printf_args) (ex_builder (ex_printf_tree 20))).
Proof. reflexivity. Qed.

(** ** Diagnostics of [check_assignment_operands] *)

Lemma reports_in_tree (f : vector -> vector * node) b nd b' :
  in_tree f b = Returns nd b' -> sx b' = sx b /\ reports b' = reports b.
Proof.
  unfold in_tree. destruct (f (tree b)) as [tr n]. intros H.
  injection H as _ <-. split; reflexivity.
Qed.

(** What a call of [check_assignment_operands] leaves in the builder. *)
Lemma check_assignment_operands_outcome fuel :
  forall expected_type init bldr r nd bldr',
    check_assignment_operands fuel expected_type init bldr = Returns (r, nd) bldr' ->
    sx bldr' = sx bldr
    /\ ((r = true /\ reports bldr' = reports bldr)
        \/ (r = false /\ exists rep, reports bldr' = reports bldr ++ [rep])).
Proof.
  induction fuel as [|fuel IH]; intros t init b r nd b' H.
  - cbn in H. destruct (node_is_correct init); cbn in H; [discriminate|].
    injection H as <- <- <-. auto.
  - cbn [check_assignment_operands] in H.
    destruct (node_is_correct init); cbn [negb] in H;
      [|injection H as <- <- <-; auto].
    cbv beta zeta in H.
    assert (Hloop : forall mt n i b0 ok b1,
      (fix loop (i n : nat) (member_type : nat -> type) {struct n} : M bool :=
         match n with
         | O => ret true
         | S n0 =>
             bind (with_tree (fun tr => expression_initializer_get_subexpr tr init i))
               (fun subexpr =>
                  bind (check_assignment_operands fuel (member_type i) subexpr)
                    (fun r : bool * node =>
                       if negb (fst r) then ret false
                       else loop (S i) n0 member_type))
         end) i n mt b0 = Returns ok b1 ->
      sx b1 = sx b0
      /\ ((ok = true /\ reports b1 = reports b0)
          \/ (ok = false /\ exists rep, reports b1 = reports b0 ++ [rep]))).
    { intros mt n. induction n as [|n IHn]; intros i b0 ok b1 E.
      - injection E as <- <-. auto.
      - unfold bind at 1, with_tree in E. unfold bind at 1 in E.
        destruct (check_assignment_operands fuel (mt i)
                    (expression_initializer_get_subexpr (tree b0) init i) b0)
          as [[r1 n1] b2| |] eqn:E1; try discriminate.
        apply IH in E1. destruct E1 as [S1 R1].
        cbn [fst] in E. destruct r1; cbn [negb] in E.
        + apply IHn in E. destruct E as [S2 R2].
          destruct R1 as [[_ R1]|[R1 _]]; [|discriminate].
          split; [congruence|]. rewrite <- R1. exact R2.
        + injection E as <- <-.
          destruct R1 as [[R1 _]|[_ R1]]; [discriminate|].
          split; [exact S1|]. right. split; [reflexivity|exact R1]. }
    assert (Herr : forall loc num,
      bind (semantic_error loc num) (fun _ => ret (false, init)) b
      = Returns (r, nd) b' ->
      sx b' = sx b
      /\ ((r = true /\ reports b' = reports b)
          \/ (r = false /\ exists rep, reports b' = reports b ++ [rep]))).
    { intros loc num E. injection E as <- <- <-. split; [reflexivity|].
      right. split; [reflexivity|]. eexists. reflexivity. }
    assert (Hok : Returns (true, init) b = Returns (r, nd) b' ->
      sx b' = sx b
      /\ ((r = true /\ reports b' = reports b)
          \/ (r = false /\ exists rep, reports b' = reports b ++ [rep]))).
    { intros E. injection E as <- <- <-. auto. }
    assert (Hlist : forall mt n,
      bind
        ((fix loop (i n : nat) (member_type : nat -> type) {struct n} : M bool :=
            match n with
            | O => ret true
            | S n0 =>
                bind (with_tree
                        (fun tr => expression_initializer_get_subexpr tr init i))
                  (fun subexpr =>
                     bind (check_assignment_operands fuel (member_type i) subexpr)
                       (fun r : bool * node =>
                          if negb (fst r) then ret false
                          else loop (S i) n0 member_type))
            end) O n mt)
        (fun ok : bool =>
           if negb ok then ret (false, init)
           else bind (on_tree (fun tr => expression_initializer_set_type tr init t))
                  (fun _ => ret (true, init))) b
      = Returns (r, nd) b' ->
      sx b' = sx b
      /\ ((r = true /\ reports b' = reports b)
          \/ (r = false /\ exists rep, reports b' = reports b ++ [rep]))).
    { intros mt n E. unfold bind at 1 in E.
      match type of E with
      | match ?L with _ => _ end = _ => destruct L as [ok b1| |] eqn:E1
      end; try discriminate.
      apply Hloop in E1. destruct E1 as [S1 R1].
      destruct ok; cbn [negb] in E.
      - injection E as <- <- <-. cbn [sx reports set_tree].
        destruct R1 as [[_ R1]|[R1 _]]; [|discriminate]. auto.
      - injection E as <- <- <-.
        destruct R1 as [[R1 _]|[_ R1]]; [discriminate|]. auto. }
    destruct (expression_t_eqb (expression_get_class (tree b) init)
                EXPR_INITIALIZER).
    + destruct (type_is_structure t).
      * destruct (negb _); [exact (Herr _ _ H)|exact (Hlist _ _ H)].
      * destruct (type_is_array t); [exact (Hlist _ _ H)|exact (Herr _ _ H)].
    + repeat match type of H with
             | (if ?c then _ else _) _ = _ => destruct c
             end;
        try exact (Hok H); try exact (Herr _ _ H).
      unfold bind in H.
      destruct (in_tree (build_cast_expression t init) b) as [n1 b1| |] eqn:E1;
        try discriminate.
      apply reports_in_tree in E1. destruct E1 as [S1 R1].
      injection H as <- <- <-. auto.
Qed.

(** X5.  A call of [check_assignment_operands] that accepts its operand
    reports nothing, and one that rejects it reports exactly one error,
    however deep the initializer is; the tables are never touched. *)
Theorem check_assignment_operands_reports fuel expected_type init bldr r nd bldr' :
  check_assignment_operands fuel expected_type init bldr = Returns (r, nd) bldr' ->
  sx bldr' = sx bldr
  /\ ((r = true /\ reports bldr' = reports bldr)
      \/ (r = false /\ exists rep, reports bldr' = reports bldr ++ [rep])).
Proof. apply check_assignment_operands_outcome. Qed.

Lemma check_assignment_operands_reports_witness :
  exists r nd bldr',
    check_assignment_operands 1 (type_pointer TYPE_INTEGER) (node_at 1)
      (ex_builder ex_tree_int) = Returns (r, nd) bldr'
    /\ r = false
    /\ sx bldr' = ex_syntax
    /\ exists rep, reports bldr' = [rep].
Proof.
  eexists _, _, _. split; [vm_compute; reflexivity|].
  split; [reflexivity|].
  destruct (check_assignment_operands_reports 1 (type_pointer TYPE_INTEGER)
              (node_at 1) (ex_builder ex_tree_int) _ _ _ eq_refl)
    as [Hsx [[Hr _]|[_ Hrep]]].
  - discriminate Hr.
  - split; [exact Hsx|exact Hrep].
Defined.

(** ** The scan of the format of [printf] *)

Lemma placeholders_typed_insert s n ft t :
  (n < length ft)%nat -> placeholder_type s t -> placeholders_typed s n ft ->
  placeholders_typed s (S n) (<[n := t]> ft).
Proof.
  intros Hn Ht H k Hk. destruct (Nat.eq_dec k n) as [->|Hne].
  - exists t. split; [|exact Ht]. apply list_lookup_insert_eq. exact Hn.
  - rewrite list_lookup_insert_ne by congruence. apply H. lia.
Qed.

Lemma evaluate_args_loop_spec loc :
  forall m string, (length string <= m)%nat ->
  forall args ft ph b n ft' ph' b',
    length ft = MAX_PRINTF_ARGS -> (args <= MAX_PRINTF_ARGS)%nat ->
    placeholders_typed (sx b) args ft ->
    evaluate_args_loop loc string args ft ph b = Returns (n, ft', ph') b' ->
    sx b' = sx b
    /\ (n <= MAX_PRINTF_ARGS)%nat
    /\ length ft' = MAX_PRINTF_ARGS
    /\ length ph' = length ph
    /\ placeholders_typed (sx b) n ft'
    /\ (reports b' = reports b
        \/ (n = O /\ exists rep, reports b' = reports b ++ [rep])).
Proof.
  induction m as [|m IH]; intros string Hlen args ft ph b n ft' ph' b' Hft Hargs Hty H.
  { destruct string; [|cbn in Hlen; lia]. cbn in H.
    injection H as <- <- <- <-. repeat split; auto. }
  destruct string as [|c rest].
  { cbn in H. injection H as <- <- <- <-. repeat split; auto. }
  cbn [evaluate_args_loop] in H. cbn [length] in Hlen.
  destruct (c =? 0).
  { injection H as <- <- <- <-. repeat split; auto. }
  assert (Herr : forall num ph1, length ph1 = length ph ->
    bind (semantic_error loc num) (fun _ => ret (O, ft, ph1)) b
    = Returns (n, ft', ph') b' ->
    sx b' = sx b
    /\ (n <= MAX_PRINTF_ARGS)%nat
    /\ length ft' = MAX_PRINTF_ARGS
    /\ length ph' = length ph
    /\ placeholders_typed (sx b) n ft'
    /\ (reports b' = reports b
        \/ (n = O /\ exists rep, reports b' = reports b ++ [rep]))).
  { intros num ph1 L1 E. injection E as <- <- <- <-.
    repeat split; auto; [lia|intros k Hk; lia|].
    right. split; [reflexivity|]. eexists. reflexivity. }
  destruct (c =? 37); [|apply (IH rest) in H; auto; lia].
  set (specifier := match rest with [] => 0 | s :: _ => s end) in *.
  destruct (negb (specifier =? 37) && Nat.eqb args MAX_PRINTF_ARGS) eqn:Efull;
    [exact (Herr _ _ eq_refl H)|].
  cbv zeta in H.
  assert (Hnext : forall args1 ft1 ph1 b1,
    sx b1 = sx b -> reports b1 = reports b ->
    length ft1 = MAX_PRINTF_ARGS -> length ph1 = length ph ->
    (args1 <= MAX_PRINTF_ARGS)%nat ->
    placeholders_typed (sx b) args1 ft1 ->
    match rest with
    | [] => ret (args1, ft1, ph1)
    | _ :: rest' => evaluate_args_loop loc rest' args1 ft1 ph1
    end b1 = Returns (n, ft', ph') b' ->
    sx b' = sx b
    /\ (n <= MAX_PRINTF_ARGS)%nat
    /\ length ft' = MAX_PRINTF_ARGS
    /\ length ph' = length ph
    /\ placeholders_typed (sx b) n ft'
    /\ (reports b' = reports b
        \/ (n = O /\ exists rep, reports b' = reports b ++ [rep]))).
  { intros args1 ft1 ph1 b1 S1 R1 L1 L2 A1 T1 E. destruct rest as [|s rest'].
    - injection E as <- <- <- <-. repeat split; auto.
    - apply (IH rest') in E; [| cbn [length] in Hlen; lia | assumption
                              | assumption | rewrite S1; assumption].
      rewrite S1, R1, L2 in E. exact E. }
  assert (Hroom : (specifier =? 37) = false -> (args < MAX_PRINTF_ARGS)%nat).
  { intros E. rewrite E in Efull. cbn in Efull.
    apply Nat.eqb_neq in Efull. lia. }
  assert (Hstep : forall t,
    (specifier =? 37) = false -> placeholder_type (sx b) t ->
    match rest with
    | [] => ret (S args, <[args := t]> ft, <[args := specifier]> ph)
    | _ :: rest' =>
        evaluate_args_loop loc rest' (S args) (<[args := t]> ft)
          (<[args := specifier]> ph)
    end b = Returns (n, ft', ph') b' ->
    sx b' = sx b
    /\ (n <= MAX_PRINTF_ARGS)%nat
    /\ length ft' = MAX_PRINTF_ARGS
    /\ length ph' = length ph
    /\ placeholders_typed (sx b) n ft'
    /\ (reports b' = reports b
        \/ (n = O /\ exists rep, reports b' = reports b ++ [rep]))).
  { intros t E Ht. specialize (Hroom E).
    apply Hnext; auto; try (rewrite length_insert; auto); try lia.
    apply placeholders_typed_insert; auto. lia. }
  destruct (is_specifier_integer specifier) eqn:Ei.
  { assert (E : (specifier =? 37) = false).
    { unfold is_specifier_integer in Ei. destruct (specifier =? 37) eqn:E37; auto.
      apply Z.eqb_eq in E37. rewrite E37 in Ei. discriminate. }
    rewrite E in H. cbn [negb] in H. apply (Hstep TYPE_INTEGER E); auto.
    left. reflexivity. }
  destruct (is_specifier_floating specifier) eqn:Ef.
  { assert (E : (specifier =? 37) = false).
    { unfold is_specifier_floating in Ef. destruct (specifier =? 37) eqn:E37; auto.
      apply Z.eqb_eq in E37. rewrite E37 in Ef. discriminate. }
    rewrite E in H. cbn [negb] in H. apply (Hstep TYPE_FLOATING E); auto.
    right. left. reflexivity. }
  destruct (is_specifier_string specifier) eqn:Es.
  { assert (E : (specifier =? 37) = false).
    { unfold is_specifier_string in Es. destruct (specifier =? 37) eqn:E37; auto.
      apply Z.eqb_eq in E37. rewrite E37 in Es. discriminate. }
    rewrite E in H. cbn [negb] in H. apply (Hstep (type_string (sx b)) E); auto.
    right. right. reflexivity. }
  destruct (specifier =? 37) eqn:E37.
  { cbn [negb] in H. apply (Hnext args ft ph b); auto. }
  cbn [negb] in H.
  destruct (specifier =? 0);
    apply (Herr _ _ (length_insert _ _ _) H).
Qed.

Lemma placeholders_recorded_insert s n ft ph c t :
  (n < length ft)%nat -> (n < length ph)%nat -> specifier_type s c t ->
  placeholders_recorded s n ft ph ->
  placeholders_recorded s (S n) (<[n := t]> ft) (<[n := c]> ph).
Proof.
  intros Hn Hp Ht H k Hk. destruct (Nat.eq_dec k n) as [->|Hne].
  - exists c, t. split; [apply list_lookup_insert_eq; exact Hp|].
    split; [apply list_lookup_insert_eq; exact Hn|exact Ht].
  - rewrite !list_lookup_insert_ne by congruence. apply H. lia.
Qed.

Lemma evaluate_args_loop_records loc :
  forall m string, (length string <= m)%nat ->
  forall args ft ph b n ft' ph' b',
    length ft = MAX_PRINTF_ARGS -> length ph = MAX_PRINTF_ARGS ->
    (args <= MAX_PRINTF_ARGS)%nat ->
    placeholders_recorded (sx b) args ft ph ->
    evaluate_args_loop loc string args ft ph b = Returns (n, ft', ph') b' ->
    length ph' = MAX_PRINTF_ARGS
    /\ placeholders_recorded (sx b) n ft' ph'.
Proof.
  induction m as [|m IH];
    intros string Hlen args ft ph b n ft' ph' b' Hft Hph Hargs Hty H.
  { destruct string; [|cbn in Hlen; lia]. cbn in H.
    injection H as <- <- <- <-. split; auto. }
  destruct string as [|c rest].
  { cbn in H. injection H as <- <- <- <-. split; auto. }
  cbn [evaluate_args_loop] in H. cbn [length] in Hlen.
  destruct (c =? 0).
  { injection H as <- <- <- <-. split; auto. }
  assert (Herr : forall num ph1, length ph1 = MAX_PRINTF_ARGS ->
    bind (semantic_error loc num) (fun _ => ret (O, ft, ph1)) b
    = Returns (n, ft', ph') b' ->
    length ph' = MAX_PRINTF_ARGS
    /\ placeholders_recorded (sx b) n ft' ph').
  { intros num ph1 L1 E. injection E as <- <- <- <-.
    split; [exact L1|]. intros k Hk. lia. }
  destruct (c =? 37); [|apply (IH rest) in H; auto; lia].
  set (specifier := match rest with [] => 0 | s :: _ => s end) in *.
  destruct (negb (specifier =? 37) && Nat.eqb args MAX_PRINTF_ARGS) eqn:Efull;
    [exact (Herr _ _ Hph H)|].
  cbv zeta in H.
  assert (Hnext : forall args1 ft1 ph1,
    length ft1 = MAX_PRINTF_ARGS -> length ph1 = MAX_PRINTF_ARGS ->
    (args1 <= MAX_PRINTF_ARGS)%nat ->
    placeholders_recorded (sx b) args1 ft1 ph1 ->
    match rest with
    | [] => ret (args1, ft1, ph1)
    | _ :: rest' => evaluate_args_loop loc rest' args1 ft1 ph1
    end b = Returns (n, ft', ph') b' ->
    length ph' = MAX_PRINTF_ARGS
    /\ placeholders_recorded (sx b) n ft' ph').
  { intros args1 ft1 ph1 L1 L2 A1 T1 E. destruct rest as [|s rest'].
    - injection E as <- <- <- <-. split; auto.
    - apply (IH rest') in E; auto. cbn [length] in Hlen. lia. }
  assert (Hroom : (specifier =? 37) = false -> (args < MAX_PRINTF_ARGS)%nat).
  { intros E. rewrite E in Efull. cbn in Efull.
    apply Nat.eqb_neq in Efull. lia. }
  assert (Hstep : forall t,
    (specifier =? 37) = false -> specifier_type (sx b) specifier t ->
    match rest with
    | [] => ret (S args, <[args := t]> ft, <[args := specifier]> ph)
    | _ :: rest' =>
        evaluate_args_loop loc rest' (S args) (<[args := t]> ft)
          (<[args := specifier]> ph)
    end b = Returns (n, ft', ph') b' ->
    length ph' = MAX_PRINTF_ARGS
    /\ placeholders_recorded (sx b) n ft' ph').
  { intros t E Ht. specialize (Hroom E).
    apply Hnext; auto; try (rewrite length_insert; auto); try lia.
    apply placeholders_recorded_insert; auto; lia. }
  destruct (is_specifier_integer specifier) eqn:Ei.
  { assert (E : (specifier =? 37) = false).
    { unfold is_specifier_integer in Ei. destruct (specifier =? 37) eqn:E37; auto.
      apply Z.eqb_eq in E37. rewrite E37 in Ei. discriminate. }
    rewrite E in H. cbn [negb] in H. apply (Hstep TYPE_INTEGER E); auto.
    left. split; [exact Ei|reflexivity]. }
  destruct (is_specifier_floating specifier) eqn:Ef.
  { assert (E : (specifier =? 37) = false).
    { unfold is_specifier_floating in Ef. destruct (specifier =? 37) eqn:E37; auto.
      apply Z.eqb_eq in E37. rewrite E37 in Ef. discriminate. }
    rewrite E in H. cbn [negb] in H. apply (Hstep TYPE_FLOATING E); auto.
    right. left. split; [exact Ef|reflexivity]. }
  destruct (is_specifier_string specifier) eqn:Es.
  { assert (E : (specifier =? 37) = false).
    { unfold is_specifier_string in Es. destruct (specifier =? 37) eqn:E37; auto.
      apply Z.eqb_eq in E37. rewrite E37 in Es. discriminate. }
    rewrite E in H. cbn [negb] in H. apply (Hstep (type_string (sx b)) E); auto.
    right. right. split; [exact Es|reflexivity]. }
  destruct (specifier =? 37) eqn:E37.
  { cbn [negb] in H. apply (Hnext args ft ph); auto. }
  cbn [negb] in H.
  destruct (specifier =? 0);
    apply (Herr _ _ (eq_trans (length_insert _ _ _) Hph) H).
Qed.

(** X6.  The scan of a format, started with arrays [format_types] and
    [placeholders] of [MAX_PRINTF_ARGS] entries: the number of
    placeholders it returns is [MAX_PRINTF_ARGS] or less, the arrays keep
    their lengths, and at every index under this number [placeholders]
    holds a specifier of an integer, a floating value or a string and
    [format_types] the type that goes with it; and a scan that reports an
    error reports one and returns 0. *)
Theorem evaluate_args_bounds format_str ft ph b n ft' ph' b' :
  length ft = MAX_PRINTF_ARGS -> length ph = MAX_PRINTF_ARGS ->
  evaluate_args format_str ft ph b = Returns (n, ft', ph') b' ->
  (n <= MAX_PRINTF_ARGS)%nat
  /\ length ft' = MAX_PRINTF_ARGS
  /\ length ph' = MAX_PRINTF_ARGS
  /\ placeholders_recorded (sx b) n ft' ph'
  /\ (reports b' = reports b
      \/ (n = O /\ exists rep, reports b' = reports b ++ [rep])).
Proof.
  intros Hft Hph H. unfold evaluate_args in H.
  pose proof H as H'.
  eapply (evaluate_args_loop_spec _ _ _ (Nat.le_refl _)) in H; auto;
    [|lia|intros k Hk; lia].
  eapply (evaluate_args_loop_records _ _ _ (Nat.le_refl _)) in H'; auto;
    [|lia|intros k Hk; lia].
  tauto.
Qed.

Lemma evaluate_args_bounds_witness :
  exists n ft ph b',
    evaluate_args (node_at 2)
      (replicate MAX_PRINTF_ARGS (type_primitive TYPE_UNDEFINED))
      (replicate MAX_PRINTF_ARGS 0) (ex_builder (ex_printf_tree 3))
    = Returns (n, ft, ph) b'
    /\ n = 3%nat
    /\ (n <= MAX_PRINTF_ARGS)%nat
    /\ length ft = MAX_PRINTF_ARGS
    /\ length ph = MAX_PRINTF_ARGS
    /\ placeholders_recorded ex_syntax n ft ph
    /\ (reports b' = []
        \/ (n = O /\ exists rep, reports b' = [] ++ [rep])).
Proof.
  eexists _, _, _, _. split; [vm_compute; reflexivity|]. split; [reflexivity|].
  eapply (evaluate_args_bounds (node_at 2)
            (replicate MAX_PRINTF_ARGS (type_primitive TYPE_UNDEFINED))
            (replicate MAX_PRINTF_ARGS 0) (ex_builder (ex_printf_tree 3)));
    [reflexivity|reflexivity|vm_compute; reflexivity].
Defined.

(** The scan reports at most one error. *)
Lemma evaluate_args_reports format_str ft ph b r b' :
  length ft = MAX_PRINTF_ARGS ->
  evaluate_args format_str ft ph b = Returns r b' ->
  reports b' = reports b \/ exists rep, reports b' = reports b ++ [rep].
Proof.
  intros Hft H. destruct r as [[n ft'] ph']. unfold evaluate_args in H.
  eapply (evaluate_args_loop_spec _ _ _ (Nat.le_refl _)) in H; auto.
  - destruct H as (_ & _ & _ & _ & _ & [H|[_ H]]); auto.
  - lia.
  - intros k Hk. lia.
Qed.

(** ** Calls of [printf] that are accepted *)

(** X7.  A call of [printf] that is accepted has as many value arguments as
    the scan of its format counted placeholders, it has fewer than
    [MAX_PRINTF_ARGS] arguments in all, and checking the arguments has
    reported nothing. *)
Theorem build_printf_expression_accepted callee args r_loc b nd b' :
  build_printf_expression callee (Some args) r_loc b = Returns nd b' ->
  node_is_correct nd = true ->
  exists n ft ph b1,
    evaluate_args (node_vector_get args 0)
      (replicate MAX_PRINTF_ARGS (type_primitive TYPE_UNDEFINED))
      (replicate MAX_PRINTF_ARGS 0) b = Returns (n, ft, ph) b1
    /\ length args = S n
    /\ (length args < MAX_PRINTF_ARGS)%nat
    /\ reports b' = reports b1.
Proof.
  intros H Hnd. unfold build_printf_expression in H.
  cbn [node_vector_size] in H.
  destruct (Nat.eqb (length args) 0) eqn:E0.
  { injection H as <- <-. discriminate. }
  destruct (Nat.leb MAX_PRINTF_ARGS (length args)) eqn:Emax.
  { injection H as <- <-. discriminate. }
  unfold bind at 1 2 3, with_tree in H.
  destruct (negb _ || negb _).
  { injection H as <- <-. discriminate. }
  unfold bind at 1 in H.
  destruct (evaluate_args (node_vector_get args 0)
              (replicate MAX_PRINTF_ARGS (type_primitive TYPE_UNDEFINED))
              (replicate MAX_PRINTF_ARGS 0) b) as [[[n ft] ph] b1| |] eqn:Escan;
    try discriminate.
  cbn [fst snd] in H.
  destruct (Nat.eqb n (length args - 1)) eqn:En; cbn [negb] in H.
  2: { injection H as <- <-. discriminate. }
  exists n, ft, ph, b1. split; [reflexivity|].
  apply Nat.eqb_eq in En. apply Nat.eqb_neq in E0. apply Nat.leb_gt in Emax.
  split; [lia|]. split; [exact Emax|].
  assert (Hloop : forall fuel ftl m i a b0,
    (fix loop (i n : nat) (args : list node) {struct n} : M node :=
       match n with
       | O =>
           bind (fun b : builder => Returns (node_get_location (tree b) callee) b)
             (fun callee_loc : location =>
                in_tree
                  (fun tr : vector =>
                     expression_call tr TYPE_INTEGER callee args
                       {| loc_begin := loc_begin callee_loc;
                          loc_end := loc_end r_loc |}))
       | S n0 =>
           bind
             (check_assignment_operands fuel
                (nth (i - 1) ftl (type_primitive TYPE_UNDEFINED))
                (node_vector_get args i))
             (fun r0 : bool * node =>
                if negb (fst r0) then ret node_broken
                else loop (S i) n0 (<[i := snd r0]> args))
       end) i m a b0 = Returns nd b' ->
    reports b' = reports b0).
  { intros fuel ftl m. induction m as [|m IHm]; intros i a b0 E.
    - unfold bind in E. apply reports_in_tree in E. apply E.
    - unfold bind at 1 in E.
      destruct (check_assignment_operands fuel
                  (nth (i - 1) ftl (type_primitive TYPE_UNDEFINED))
                  (node_vector_get a i) b0) as [[r1 n1] b2| |] eqn:E1;
        try discriminate.
      apply check_assignment_operands_outcome in E1. destruct E1 as [_ R1].
      cbn [fst snd] in E. destruct r1; cbn [negb] in E.
      + apply IHm in E. destruct R1 as [[_ R1]|[R1 _]]; [|discriminate].
        congruence.
      + injection E as <- <-. discriminate. }
  apply Hloop in H. exact H.
Qed.

Lemma build_printf_expression_accepted_witness :
  exists nd b',
    build_printf_expression (node_at 1) (Some (ex_printf_args 2)) ex_loc
      (ex_builder (ex_printf_tree 2)) = Returns nd b'
    /\ node_is_correct nd = true
    /\ exists n ft ph b1,
         evaluate_args (node_vector_get (ex_printf_args 2) 0)
           (replicate MAX_PRINTF_ARGS (type_primitive TYPE_UNDEFINED))
           (replicate MAX_PRINTF_ARGS 0) (ex_builder (ex_printf_tree 2))
         = Returns (n, ft, ph) b1
         /\ length (ex_printf_args 2) = S n
         /\ (length (ex_printf_args 2) < MAX_PRINTF_ARGS)%nat
         /\ reports b' = reports b1.
Proof.
  eexists _, _. split; [vm_compute; reflexivity|]. split; [reflexivity|].
  eapply (build_printf_expression_accepted (node_at 1) (ex_printf_args 2)
            ex_loc (ex_builder (ex_printf_tree 2)));
    [vm_compute; reflexivity|reflexivity].
Defined.

(** ** Calls of [printf] that are rejected *)

(** X10.  No call of [printf] is rejected in silence: when the callee is a
    node of the tree and the builder returns the broken node, at least one
    error has been reported. *)
Theorem build_printf_expression_rejected callee args r_loc b nd b' :
  node_is_correct callee = true ->
  build_printf_expression callee args r_loc b = Returns nd b' ->
  node_is_correct nd = false ->
  exists rs rep, reports b' = reports b ++ rs ++ [rep].
Proof.
  intros Hcallee H Hnd.
  assert (Herr : forall loc num b0,
    bind (semantic_error loc num) (fun _ => ret node_broken) b0 = Returns nd b' ->
    exists rep, reports b' = reports b0 ++ [rep]).
  { intros loc num b0 E. injection E as _ <-. eexists. reflexivity. }
  assert (Hone : forall b0, (exists rep, reports b' = reports b0 ++ [rep]) ->
    reports b0 = reports b ->
    exists rs rep, reports b' = reports b ++ rs ++ [rep]).
  { intros b0 [rep E] E0. exists [], rep. rewrite E, E0. reflexivity. }
  unfold build_printf_expression in H.
  destruct args as [args|]; [|exact (Hone _ (Herr _ _ _ H) eq_refl)].
  cbn [node_vector_size] in H.
  destruct (Nat.eqb (length args) 0); [exact (Hone _ (Herr _ _ _ H) eq_refl)|].
  destruct (Nat.leb MAX_PRINTF_ARGS (length args));
    [exact (Hone _ (Herr _ _ _ H) eq_refl)|].
  unfold bind at 1 2 3, with_tree in H.
  destruct (negb _ || negb _); [exact (Hone _ (Herr _ _ _ H) eq_refl)|].
  unfold bind at 1 in H.
  destruct (evaluate_args (node_vector_get args 0)
              (replicate MAX_PRINTF_ARGS (type_primitive TYPE_UNDEFINED))
              (replicate MAX_PRINTF_ARGS 0) b) as [[[n ft] ph] b1| |] eqn:Escan;
    try discriminate.
  apply evaluate_args_reports in Escan; [|apply length_replicate].
  cbn [fst snd] in H.
  assert (Htwo : (exists rep, reports b' = reports b1 ++ [rep]) ->
    exists rs rep, reports b' = reports b ++ rs ++ [rep]).
  { intros [rep E]. destruct Escan as [E1|[rep1 E1]].
    - exists [], rep. rewrite E, E1. reflexivity.
    - exists [rep1], rep. rewrite E, E1, <- app_assoc. reflexivity. }
  destruct (Nat.eqb n (length args - 1)); cbn [negb] in H;
    [|exact (Htwo (Herr _ _ _ H))].
  apply Htwo. clear Htwo Hone Escan.
  assert (Hloop : forall fuel ftl m i a b0,
    (fix loop (i n : nat) (args : list node) {struct n} : M node :=
       match n with
       | O =>
           bind (fun b : builder => Returns (node_get_location (tree b) callee) b)
             (fun callee_loc : location =>
                in_tree
                  (fun tr : vector =>
                     expression_call tr TYPE_INTEGER callee args
                       {| loc_begin := loc_begin callee_loc;
                          loc_end := loc_end r_loc |}))
       | S n0 =>
           bind
             (check_assignment_operands fuel
                (nth (i - 1) ftl (type_primitive TYPE_UNDEFINED))
                (node_vector_get args i))
             (fun r0 : bool * node =>
                if negb (fst r0) then ret node_broken
                else loop (S i) n0 (<[i := snd r0]> args))
       end) i m a b0 = Returns nd b' ->
    exists rep, reports b' = reports b0 ++ [rep]).
  { intros fuel ftl m. induction m as [|m IHm]; intros i a b0 E.
    - exfalso. unfold bind, in_tree, expression_call in E.
      destruct callee as [|c]; [discriminate|].
      cbn [node_insert] in E. injection E as <- _. discriminate.
    - unfold bind at 1 in E.
      destruct (check_assignment_operands fuel
                  (nth (i - 1) ftl (type_primitive TYPE_UNDEFINED))
                  (node_vector_get a i) b0) as [[r1 n1] b2| |] eqn:E1;
        try discriminate.
      apply check_assignment_operands_outcome in E1. destruct E1 as [_ R1].
      cbn [fst snd] in E. destruct r1; cbn [negb] in E.
      + apply IHm in E. destruct R1 as [[_ R1]|[R1 _]]; [|discriminate].
        rewrite <- R1. exact E.
      + injection E as _ <-.
        destruct R1 as [[R1 _]|[_ R1]]; [discriminate|exact R1]. }
  apply Hloop in H. exact H.
Qed.

Lemma build_printf_expression_rejected_witness :
  exists nd b',
    build_printf_expression (node_at 1) (Some (ex_printf_args 1)) ex_loc
      (ex_builder (ex_printf_tree 2)) = Returns nd b'
    /\ node_is_correct nd = false
    /\ exists rs rep, reports b' = [] ++ rs ++ [rep].
Proof.
  eexists _, _. split; [vm_compute; reflexivity|]. split; [reflexivity|].
  eapply (build_printf_expression_rejected (node_at 1)
            (Some (ex_printf_args 1)) ex_loc (ex_builder (ex_printf_tree 2)));
    [reflexivity|vm_compute; reflexivity|reflexivity].
Defined.

(** ** The type of a cast *)

(** The type of the node that [build_cast_expression] returns: the target
    type, but for a literal whose type is another one, which becomes a
    floating literal whatever the target is. *)
Lemma build_cast_expression_result_type target_type e tr :
  node_is_correct e = true ->
  expression_get_type (fst (build_cast_expression target_type e tr))
    (snd (build_cast_expression target_type e tr))
  = if expression_t_eqb (expression_get_class tr e) EXPR_LITERAL
       && negb (type_eqb target_type (expression_get_type tr e))
    then TYPE_FLOATING else target_type.
Proof.
  intros Hc. destruct e as [|i]; [discriminate|].
  unfold build_cast_expression. cbn [node_is_correct negb].
  destruct (type_eqb target_type (expression_get_type tr (node_at i))) eqn:Eq;
    cbn [negb].
  { rewrite andb_false_r. apply type_eqb_eq in Eq. cbn [fst snd]. congruence. }
  rewrite andb_true_r.
  destruct (expression_t_eqb (expression_get_class tr (node_at i)) EXPR_LITERAL)
    eqn:Ecl.
  - assert (Hlit : expression_get_class tr (node_at i) = EXPR_LITERAL).
    { destruct (expression_get_class tr (node_at i)); try discriminate.
      reflexivity. }
    pose proof (class_literal_lookup _ _ Hlit) as Hi.
    cbn [node_insert fst snd].
    apply (build_cast_literal_type tr i (node_get_location tr (node_at i))
             (double_of_item (expression_literal_get_integer tr (node_at i)))
             Hi).
  - pose proof (expression_cast_type tr target_type
                  (expression_get_type tr (node_at i)) i
                  (node_get_location tr (node_at i))) as [Hnd Hty].
    exact Hty.
Qed.

(** The arguments of the nodes that are in the tree are left as they are. *)
Lemma node_set_arg_other tr n k a m :
  m <> n -> node_get_arg (node_set_arg tr (node_at n) k a) (node_at m) 0
            = node_get_arg tr (node_at m) 0.
Proof.
  intros H. unfold node_get_arg, node_get, node_set_arg.
  rewrite list_lookup_alter_ne by congruence. reflexivity.
Qed.

Lemma stamp_other tr n t c payload loc m :
  m <> n ->
  expression_get_type (stamp tr (node_at n) t c payload loc) (node_at m)
  = expression_get_type tr (node_at m).
Proof.
  intros H. unfold stamp, expression_get_type.
  rewrite !node_set_arg_other by exact H. reflexivity.
Qed.

Lemma node_insert_type tr e op argc m :
  (m < length tr)%nat ->
  expression_get_type (fst (node_insert tr e op argc)) (node_at m)
  = expression_get_type tr (node_at m).
Proof.
  intros H. destruct e as [|i]; [reflexivity|].
  unfold expression_get_type, node_get_arg, node_get. cbn [node_insert fst].
  rewrite lookup_app_l by (rewrite length_fmap; exact H).
  rewrite list_lookup_fmap. destruct (tr !! m); reflexivity.
Qed.

Lemma node_remove_type tr e m :
  expression_get_type (node_remove tr e) (node_at m)
  = expression_get_type tr (node_at m).
Proof.
  destruct e as [|i]; [reflexivity|].
  unfold expression_get_type, node_get_arg, node_get, node_remove.
  destruct (Nat.eq_dec m i) as [->|Hne].
  - rewrite list_lookup_alter_eq, list_lookup_fmap.
    destruct (tr !! i); reflexivity.
  - rewrite list_lookup_alter_ne by congruence. rewrite list_lookup_fmap.
    destruct (tr !! m); reflexivity.
Qed.

Lemma build_cast_expression_keeps_types target_type e tr m :
  (m < length tr)%nat ->
  expression_get_type (fst (build_cast_expression target_type e tr)) (node_at m)
  = expression_get_type tr (node_at m).
Proof.
  intros Hm. unfold build_cast_expression.
  destruct (negb (node_is_correct e)); [reflexivity|].
  destruct (negb _); [|reflexivity].
  destruct e as [|i].
  { destruct (expression_t_eqb _ _); reflexivity. }
  destruct (expression_t_eqb _ _).
  - change (expression_get_type
              (node_remove
                 (stamp (fst (node_insert tr (node_at i) OP_LITERAL 5))
                    (node_at (length tr)) TYPE_FLOATING RVALUE
                    (ADouble (double_of_item
                                (expression_literal_get_integer tr (node_at i))))
                    (node_get_location tr (node_at i)))
                 (node_at i)) (node_at m)
            = expression_get_type tr (node_at m)).
    rewrite node_remove_type.
    rewrite stamp_other by lia.
    apply (node_insert_type tr (node_at i) OP_LITERAL 5 m Hm).
  - change (expression_get_type
              (stamp (fst (node_insert tr (node_at i) OP_CAST 5))
                 (node_at (length tr)) target_type RVALUE
                 (AType (expression_get_type tr (node_at i)))
                 (node_get_location tr (node_at i))) (node_at m)
            = expression_get_type tr (node_at m)).
    rewrite stamp_other by lia.
    apply (node_insert_type tr (node_at i) OP_CAST 5 m Hm).
Qed.

(** X8.  The node that [build_cast_expression] returns for a node of the
    tree has the target type, unless the node is a literal of another type:
    a literal becomes a floating literal whatever the target type is.  The
    types of the nodes that were in the tree are left as they are. *)
Theorem build_cast_expression_types target_type e tr :
  node_is_correct e = true ->
  expression_get_type (fst (build_cast_expression target_type e tr))
    (snd (build_cast_expression target_type e tr))
  = (if expression_t_eqb (expression_get_class tr e) EXPR_LITERAL
        && negb (type_eqb target_type (expression_get_type tr e))
     then TYPE_FLOATING else target_type)
  /\ forall m, (m < length tr)%nat ->
       expression_get_type (fst (build_cast_expression target_type e tr))
         (node_at m)
       = expression_get_type tr (node_at m).
Proof.
  intros Hc. split.
  - apply build_cast_expression_result_type. exact Hc.
  - intros m. apply build_cast_expression_keeps_types.
Qed.

Lemma build_cast_expression_types_witness :
  expression_get_type
    (fst (build_cast_expression TYPE_INTEGER (node_at 1) ex_tree_char))
    (snd (build_cast_expression TYPE_INTEGER (node_at 1) ex_tree_char))
  = TYPE_FLOATING
  /\ forall m, (m < length ex_tree_char)%nat ->
       expression_get_type
         (fst (build_cast_expression TYPE_INTEGER (node_at 1) ex_tree_char))
         (node_at m)
       = expression_get_type ex_tree_char (node_at m).
Proof.
  apply (build_cast_expression_types TYPE_INTEGER (node_at 1) ex_tree_char).
  reflexivity.
Defined.

(** ** The usual arithmetic conversions *)

Lemma length_node_set_arg tr nd k a : length (node_set_arg tr nd k a) = length tr.
Proof. destruct nd; [reflexivity|]. apply length_alter. Qed.

Lemma type_is_floating_defined tr i :
  type_is_floating (expression_get_type tr (node_at i)) = true ->
  (i < length tr)%nat.
Proof.
  unfold expression_get_type, node_get_arg, node_get. intros H.
  apply lookup_lt_is_Some. destruct (tr !! i); [eauto|discriminate].
Qed.

(** A cast to the floating type returns a node of the tree it returns. *)
Lemma build_cast_expression_floating_node e tr :
  node_is_correct e = true ->
  exists m, snd (build_cast_expression TYPE_FLOATING e tr) = node_at m
            /\ (m < length (fst (build_cast_expression TYPE_FLOATING e tr)))%nat.
Proof.
  intros Hc. destruct e as [|i]; [discriminate|].
  unfold build_cast_expression. cbn [node_is_correct negb].
  destruct (type_eqb TYPE_FLOATING (expression_get_type tr (node_at i))) eqn:Eq;
    cbn [negb].
  { exists i. split; [reflexivity|]. cbn [fst].
    apply type_eqb_eq in Eq. apply type_is_floating_defined.
    rewrite <- Eq. reflexivity. }
  exists (length tr).
  destruct (expression_t_eqb _ _).
  - cbn [node_insert fst snd]. split; [reflexivity|].
    rewrite length_node_remove, !length_node_set_arg, length_app, length_fmap.
    cbn [length]. lia.
  - unfold expression_cast, stamp. cbn [node_insert fst snd].
    split; [reflexivity|].
    rewrite !length_node_set_arg, length_app, length_fmap. cbn [length]. lia.
Qed.

Lemma build_cast_expression_floating e tr :
  node_is_correct e = true ->
  expression_get_type (fst (build_cast_expression TYPE_FLOATING e tr))
    (snd (build_cast_expression TYPE_FLOATING e tr))
  = TYPE_FLOATING.
Proof.
  intros Hc. rewrite build_cast_expression_result_type by exact Hc.
  destruct (_ && _); reflexivity.
Qed.

(** X9.  The usual arithmetic conversions report nothing.  When one of the
    two operands, both nodes of the tree, has the floating type, the result
    type is the floating type and both operands returned have it in the
    tree returned; otherwise the result type is the integer type, whatever
    the types of the operands are, and the operands and the builder are
    left as they are. *)
Theorem usual_arithmetic_conversions_floating LHS RHS b t l r b' :
  node_is_correct LHS = true -> node_is_correct RHS = true ->
  usual_arithmetic_conversions LHS RHS b = Returns (t, l, r) b' ->
  reports b' = reports b
  /\ (if type_is_floating (expression_get_type (tree b) LHS)
         || type_is_floating (expression_get_type (tree b) RHS)
      then t = TYPE_FLOATING
           /\ expression_get_type (tree b') l = TYPE_FLOATING
           /\ expression_get_type (tree b') r = TYPE_FLOATING
      else t = TYPE_INTEGER /\ l = LHS /\ r = RHS /\ b' = b).
Proof.
  intros HL HR. unfold usual_arithmetic_conversions, bind, with_tree, ret.
  destruct (type_is_floating (expression_get_type (tree b) LHS)
            || type_is_floating (expression_get_type (tree b) RHS)).
  - unfold in_tree.
    pose proof (build_cast_expression_floating LHS (tree b) HL) as H1.
    destruct (build_cast_expression_floating_node LHS (tree b) HL)
      as (m & Hm & Hlt).
    destruct (build_cast_expression TYPE_FLOATING LHS (tree b)) as [tr1 l1].
    cbn [fst snd] in H1, Hm, Hlt. cbn [tree set_tree].
    pose proof (build_cast_expression_floating RHS tr1 HR) as H2.
    pose proof (build_cast_expression_keeps_types TYPE_FLOATING RHS tr1 m Hlt)
      as H3.
    destruct (build_cast_expression TYPE_FLOATING RHS tr1) as [tr2 r2].
    cbn [fst snd] in H2, H3.
    intros H. injection H as <- <- <- <-. cbn [tree set_tree reports].
    split; [reflexivity|]. split; [reflexivity|]. split; [|exact H2].
    rewrite Hm, H3, <- Hm. exact H1.
  - intros H. injection H as <- <- <- <-. repeat split; reflexivity.
Qed.

Lemma usual_arithmetic_conversions_floating_witness :
  exists t l r b',
    usual_arithmetic_conversions (node_at 1) (node_at 2)
      (ex_builder ex_tree_int_float) = Returns (t, l, r) b'
    /\ reports b' = []
    /\ t = TYPE_FLOATING
    /\ expression_get_type (tree b') l = TYPE_FLOATING
    /\ expression_get_type (tree b') r = TYPE_FLOATING.
Proof.
  eexists _, _, _, _. split; [vm_compute; reflexivity|].
  apply (usual_arithmetic_conversions_floating (node_at 1) (node_at 2)
           (ex_builder ex_tree_int_float) _ _ _ _ eq_refl eq_refl eq_refl).
Defined.

(** ** [fold_unary_expression] *)

Lemma literal_after_removal (bldr : builder) (i : nat) (t : type) (v : Z)
  (loc : location) :
  node_is_correct (context bldr) = true ->
  (i < length (tree bldr))%nat ->
  exists bldr',
    in_tree (fun tr => expression_literal tr (context bldr) t (AItem v) loc)
      (set_tree (node_remove (tree bldr) (node_at i)) bldr)
    = Returns (node_at (length (tree bldr))) bldr'
    /\ literal_node (tree bldr') (node_at (length (tree bldr))) t v
    /\ detached (tree bldr') i
    /\ reports bldr' = reports bldr.
Proof.
  intros Hctx Hi.
  pose (tr1 := node_remove (tree bldr) (node_at i)).
  assert (Hlen : length tr1 = length (tree bldr))
    by (unfold tr1; apply length_node_remove).
  assert (Hdi : detached tr1 i) by (apply node_remove_detached, Hi).
  destruct (expression_literal_spec tr1 (context bldr) t (AItem v) loc Hctx)
    as [tr' [E [Hnew Hkeep]]].
  exists (set_tree tr' (set_tree tr1 bldr)). unfold in_tree.
  cbn [tree set_tree context]. fold tr1.
  rewrite E, Hlen. rewrite Hlen in Hnew.
  split; [reflexivity|]. split.
  - eapply literal_node_of_lookup. exact Hnew.
  - split; [|reflexivity]. apply Hkeep; [lia|exact Hdi].
Qed.




(** X14.  On a literal of boolean type [fold_unary_expression] does not
    look at the operator: whatever it is, unary minus and [abs] included,
    the result is the boolean literal of the negated value, the operand has
    left the tree and nothing is reported. *)
Theorem fold_unary_expression_boolean_literal :
  forall (bldr : builder) (t : type) (ctg : category_t) (i : nat) (op : unary_t)
    (loc : location),
    expression_get_class (tree bldr) (node_at i) = EXPR_LITERAL ->
    type_get_class (expression_get_type (tree bldr) (node_at i)) = TYPE_BOOLEAN ->
    node_is_correct (context bldr) = true ->
    exists result bldr',
      fold_unary_expression t ctg (node_at i) op loc bldr = Returns result bldr'
      /\ literal_node (tree bldr') result TYPE_BOOLEAN
           (if expression_literal_get_boolean (tree bldr) (node_at i)
            then 0 else 1)
      /\ detached (tree bldr') i
      /\ reports bldr' = reports bldr.
Proof.
  intros bldr t ctg i op loc Hci Hty Hctx.
  pose proof (class_literal_lookup _ _ Hci) as Hi.
  destruct (literal_after_removal bldr i TYPE_BOOLEAN
              (if expression_literal_get_boolean (tree bldr) (node_at i)
               then 0 else 1) loc Hctx Hi)
    as [bldr' [E' [Hl [Hd Hrep]]]].
  exists (node_at (length (tree bldr))), bldr'.
  split; [|auto].
  rewrite <- E'.
  unfold fold_unary_expression, bind, with_tree, on_tree.
  rewrite Hci. cbn [expression_t_eqb negb]. rewrite Hty.
  unfold build_boolean_literal_expression. cbn [context set_tree].
  destruct (expression_literal_get_boolean (tree bldr) (node_at i)); reflexivity.
Qed.

Lemma fold_unary_expression_boolean_literal_witness :
  exists result bldr',
    fold_unary_expression TYPE_BOOLEAN RVALUE (node_at 1) UN_ABS ex_loc
      (ex_builder ex_tree_bool) = Returns result bldr'
    /\ literal_node (tree bldr') result TYPE_BOOLEAN 0
    /\ detached (tree bldr') 1
    /\ reports bldr' = reports (ex_builder ex_tree_bool).
Proof.
  apply (fold_unary_expression_boolean_literal (ex_builder ex_tree_bool)
           TYPE_BOOLEAN RVALUE 1 UN_ABS ex_loc); reflexivity.
Defined.

(** ** Assignment of an integer to a floating operand *)

(** What a cast to the floating type builds for an operand of the tree of
    another type: in the place of a literal, a floating literal without
    children that holds the integer of the literal as a double; in the
    place of any other operand, a cast node whose only child is the
    operand. *)
Lemma build_cast_expression_floating_shape (i : nat) (tr : vector) :
  type_eqb TYPE_FLOATING (expression_get_type tr (node_at i)) = false ->
  let tr' := fst (build_cast_expression TYPE_FLOATING (node_at i) tr) in
  let nd' := snd (build_cast_expression TYPE_FLOATING (node_at i) tr) in
  if expression_t_eqb (expression_get_class tr (node_at i)) EXPR_LITERAL
  then expression_get_class tr' nd' = EXPR_LITERAL
       /\ expression_literal_get_floating tr' nd'
          = double_of_item (expression_literal_get_integer tr (node_at i))
       /\ node_get_amount tr' nd' = 0%nat
  else expression_get_class tr' nd' = EXPR_CAST
       /\ node_get_amount tr' nd' = 1%nat
       /\ node_get_child tr' nd' 0 = node_at i.
Proof.
  intros Ht. unfold build_cast_expression.
  cbn [node_is_correct negb]. rewrite Ht. cbn [negb].
  destruct (expression_t_eqb (expression_get_class tr (node_at i)) EXPR_LITERAL)
    eqn:Ecl.
  - assert (Hi : (i < length tr)%nat).
    { apply lookup_lt_is_Some. revert Ecl.
      unfold expression_get_class, node_get.
      destruct (tr !! i); [eauto|discriminate]. }
    cbv zeta.
    change (Z.to_nat (DOUBLE_SIZE + 4)) with 5%nat.
    change (Z.to_nat (DOUBLE_SIZE + 2)) with 3%nat.
    change (Z.to_nat (DOUBLE_SIZE + 3)) with 4%nat.
    pose proof (node_insert_lookup tr i OP_LITERAL 5) as H.
    cbn [node_insert fst snd] in *.
    set (tr1 := (replace_child i (length tr) <$> tr) ++ _) in *.
    set (loc := node_get_location tr (node_at i)).
    set (value := expression_literal_get_integer tr (node_at i)).
    change (node_set_arg
              (node_set_arg
                 (node_set_arg
                    (node_set_arg
                       (node_set_arg tr1 (node_at (length tr)) 0
                          (AType TYPE_FLOATING))
                       (node_at (length tr)) 1 (AItem (category_item RVALUE)))
                    (node_at (length tr)) 2 (ADouble (double_of_item value)))
                 (node_at (length tr)) 3 (AItem (loc_begin loc)))
              (node_at (length tr)) 4 (AItem (loc_end loc)))
      with (stamp tr1 (node_at (length tr)) TYPE_FLOATING RVALUE
              (ADouble (double_of_item value)) loc).
    assert (E : node_remove
                  (stamp tr1 (node_at (length tr)) TYPE_FLOATING RVALUE
                     (ADouble (double_of_item value)) loc) (node_at i)
                !! length tr
                = Some {| nd_type := OP_LITERAL;
                          nd_args := [AType TYPE_FLOATING;
                                      AItem (category_item RVALUE);
                                      ADouble (double_of_item value);
                                      AItem (loc_begin loc);
                                      AItem (loc_end loc)];
                          nd_children := []; nd_removed := false |}).
    { unfold node_remove. rewrite list_lookup_alter_ne by lia.
      rewrite list_lookup_fmap.
      erewrite stamp_lookup; [|exact H|reflexivity].
      unfold drop_child, set_children, set_args, fmap, option_fmap, option_map.
      cbn [nd_type nd_args nd_children nd_removed].
      rewrite filter_cons_False by (intros Hn; apply Hn; reflexivity).
      reflexivity. }
    unfold expression_get_class, expression_literal_get_floating,
      node_get_amount, node_get_arg, node_get.
    rewrite E. repeat split.
  - unfold expression_cast.
    pose proof (node_insert_lookup tr i OP_CAST 5) as H.
    cbn [node_insert fst snd] in *.
    set (tr1 := (replace_child i (length tr) <$> tr) ++ _) in *.
    unfold expression_get_class, node_get_amount, node_get_child, node_get.
    erewrite stamp_lookup; [|exact H|reflexivity].
    repeat split.
Qed.

(** X15.  When a floating value is expected and the operand, a node of the
    tree that is no initializer list, has an integer type,
    [check_assignment_operands] accepts it and reports nothing.  What it
    returns in place of the operand is the node that
    [build_cast_expression] gives for the floating type and the operand, in
    the tree that [build_cast_expression] leaves: a node of the floating
    type, which is the operand itself if its type is the floating type
    already, a floating literal without children that holds the integer of
    the operand as a double if the operand is a literal, and a cast node
    whose only child is the operand otherwise. *)
Theorem check_assignment_operands_integer_to_floating fuel expected_type init bldr :
  node_is_correct init = true ->
  expression_t_eqb (expression_get_class (tree bldr) init) EXPR_INITIALIZER
  = false ->
  type_is_floating expected_type = true ->
  type_is_integer (sx bldr) (expression_get_type (tree bldr) init) = true ->
  exists tr' nd',
    build_cast_expression TYPE_FLOATING init (tree bldr) = (tr', nd')
    /\ check_assignment_operands (S fuel) expected_type init bldr
       = Returns (true, nd') (set_tree tr' bldr)
    /\ expression_get_type tr' nd' = TYPE_FLOATING
    /\ reports (set_tree tr' bldr) = reports bldr
    /\ (if type_eqb TYPE_FLOATING (expression_get_type (tree bldr) init)
        then nd' = init /\ tr' = tree bldr
        else if expression_t_eqb (expression_get_class (tree bldr) init)
                  EXPR_LITERAL
        then expression_get_class tr' nd' = EXPR_LITERAL
             /\ expression_literal_get_floating tr' nd'
                = double_of_item
                    (expression_literal_get_integer (tree bldr) init)
             /\ node_get_amount tr' nd' = 0%nat
        else expression_get_class tr' nd' = EXPR_CAST
             /\ node_get_amount tr' nd' = 1%nat
             /\ node_get_child tr' nd' 0 = init).
Proof.
  intros Hc Hcl Hf Hi.
  assert (Ht : expected_type = TYPE_FLOATING).
  { apply type_eqb_eq. exact Hf. }
  subst expected_type.
  exists (fst (build_cast_expression TYPE_FLOATING init (tree bldr))),
         (snd (build_cast_expression TYPE_FLOATING init (tree bldr))).
  split; [destruct (build_cast_expression _ _ _); reflexivity|].
  split; [|split; [apply build_cast_expression_floating; exact Hc|
                   split; [reflexivity|]]].
  - cbn [check_assignment_operands]. rewrite Hc. cbn [negb].
    cbv beta zeta. rewrite Hcl, Hi, Hf. cbn [andb].
    unfold bind, in_tree, ret.
    destruct (build_cast_expression TYPE_FLOATING init (tree bldr)) as [tr nd].
    reflexivity.
  - destruct init as [|i]; [discriminate|].
    destruct (type_eqb TYPE_FLOATING (expression_get_type (tree bldr) (node_at i)))
      eqn:Eq.
    + unfold build_cast_expression.
      cbn [node_is_correct negb]. rewrite Eq. split; reflexivity.
    + apply build_cast_expression_floating_shape. exact Eq.
Qed.

Lemma check_assignment_operands_integer_to_floating_witness :
  exists tr' nd',
    build_cast_expression TYPE_FLOATING (node_at 1) (tree (ex_builder ex_tree_int)) = (tr', nd')
    /\ check_assignment_operands 1 TYPE_FLOATING (node_at 1) (ex_builder ex_tree_int)
       = Returns (true, nd') (set_tree tr' (ex_builder ex_tree_int))
    /\ expression_get_type tr' nd' = TYPE_FLOATING
    /\ reports (set_tree tr' (ex_builder ex_tree_int)) = reports (ex_builder ex_tree_int)
    /\ (if type_eqb TYPE_FLOATING (expression_get_type (tree (ex_builder ex_tree_int)) (node_at 1))
        then nd' = (node_at 1) /\ tr' = tree (ex_builder ex_tree_int)
        else if expression_t_eqb (expression_get_class (tree (ex_builder ex_tree_int)) (node_at 1))
                  EXPR_LITERAL
        then expression_get_class tr' nd' = EXPR_LITERAL
             /\ expression_literal_get_floating tr' nd'
                = double_of_item
                    (expression_literal_get_integer (tree (ex_builder ex_tree_int)) (node_at 1))
             /\ node_get_amount tr' nd' = 0%nat
        else expression_get_class tr' nd' = EXPR_CAST
             /\ node_get_amount tr' nd' = 1%nat
             /\ node_get_child tr' nd' 0 = (node_at 1)).
Proof.
  apply (check_assignment_operands_integer_to_floating 0 TYPE_FLOATING
           (node_at 1) (ex_builder ex_tree_int)); reflexivity.
Defined.

End BuilderFacts.

(** * Properties of the emitter *)

Module LLVMGenFacts.
Import AST LLVMGen LLVMGenProperties Examples.

(** ** Quiet steps *)


Lemma quiet_refl i : quiet_step i i.
Proof.
  repeat split. exists []. split; [symmetry; apply app_nil_r|constructor].
Qed.

Lemma quiet_trans i j k : quiet_step i j -> quiet_step j k -> quiet_step i k.
Proof.
  intros (A1 & A2 & A3 & A4 & A5 & o1 & A6 & A7) (B1 & B2 & B3 & B4 & B5 & o2 & B6 & B7).
  repeat split; try congruence.
  exists (o1 ++ o2). split.
  - rewrite B6, A6, app_assoc. reflexivity.
  - apply Forall_app. split; assumption.
Qed.

Ltac quiet_setter :=
  let H := fresh in
  intros H; apply (quiet_trans _ _ _ H);
  repeat split; exists []; split; [symmetry; apply app_nil_r|constructor].

Lemma quiet_set_system_errors v i j :
  quiet_step i j -> quiet_step i (set_system_errors v j).
Proof. quiet_setter. Qed.

Lemma quiet_set_register_num v i j :
  quiet_step i j -> quiet_step i (set_register_num v j).
Proof. quiet_setter. Qed.

Lemma quiet_set_label_num v i j :
  quiet_step i j -> quiet_step i (set_label_num v j).
Proof. quiet_setter. Qed.

Lemma quiet_set_init_num v i j :
  quiet_step i j -> quiet_step i (set_init_num v j).
Proof. quiet_setter. Qed.

Lemma quiet_set_request_reg v i j :
  quiet_step i j -> quiet_step i (set_request_reg v j).
Proof. quiet_setter. Qed.

Lemma quiet_set_variable_location v i j :
  quiet_step i j -> quiet_step i (set_variable_location v j).
Proof. quiet_setter. Qed.

Lemma quiet_set_answer_reg v i j :
  quiet_step i j -> quiet_step i (set_answer_reg v j).
Proof. quiet_setter. Qed.

Lemma quiet_set_answer_const v i j :
  quiet_step i j -> quiet_step i (set_answer_const v j).
Proof. quiet_setter. Qed.

Lemma quiet_set_answer_string v i j :
  quiet_step i j -> quiet_step i (set_answer_string v j).
Proof. quiet_setter. Qed.

Lemma quiet_set_answer_const_double v i j :
  quiet_step i j -> quiet_step i (set_answer_const_double v j).
Proof. quiet_setter. Qed.

Lemma quiet_set_answer_kind v i j :
  quiet_step i j -> quiet_step i (set_answer_kind v j).
Proof. quiet_setter. Qed.

Lemma quiet_set_label_true v i j :
  quiet_step i j -> quiet_step i (set_label_true v j).
Proof. quiet_setter. Qed.

Lemma quiet_set_label_false v i j :
  quiet_step i j -> quiet_step i (set_label_false v j).
Proof. quiet_setter. Qed.

Lemma quiet_set_label_ternary_end v i j :
  quiet_step i j -> quiet_step i (set_label_ternary_end v j).
Proof. quiet_setter. Qed.

Lemma quiet_set_arrays v i j :
  quiet_step i j -> quiet_step i (set_arrays v j).
Proof. quiet_setter. Qed.

Lemma quiet_set_was_stack_functions v i j :
  quiet_step i j -> quiet_step i (set_was_stack_functions v j).
Proof. quiet_setter. Qed.

Lemma quiet_set_was_dynamic v i j :
  quiet_step i j -> quiet_step i (set_was_dynamic v j).
Proof. quiet_setter. Qed.

Lemma quiet_set_was_file v i j :
  quiet_step i j -> quiet_step i (set_was_file v j).
Proof. quiet_setter. Qed.

Lemma quiet_set_was_abs v i j :
  quiet_step i j -> quiet_step i (set_was_abs v j).
Proof. quiet_setter. Qed.

Lemma quiet_set_was_fabs v i j :
  quiet_step i j -> quiet_step i (set_was_fabs v j).
Proof. quiet_setter. Qed.

Lemma quiet_set_was_function v i j :
  quiet_step i j -> quiet_step i (set_was_function v j).
Proof. quiet_setter. Qed.

Lemma quiet_uni_printf l i j :
  quiet_line l -> quiet_step i j -> quiet_step i (uni_printf l j).
Proof.
  intros Hl H. apply (quiet_trans _ _ _ H).
  repeat split. exists [l]. split; [reflexivity|].
  constructor; [exact Hl|constructor].
Qed.

Lemma quiet_system_error e i j :
  quiet_step i j -> quiet_step i (system_error e j).
Proof. apply quiet_set_system_errors. Qed.

Lemma quiet_type_to_io t i j :
  quiet_step i j -> quiet_step i (type_to_io j t).
Proof.
  intros H. unfold type_to_io. destruct (type_mentions_file t); [|exact H].
  apply quiet_set_was_file. exact H.
Qed.

Create HintDb quiet discriminated.

#[local] Hint Resolve quiet_refl quiet_uni_printf quiet_system_error
  quiet_type_to_io
  quiet_set_system_errors
  quiet_set_register_num
  quiet_set_label_num
  quiet_set_init_num
  quiet_set_request_reg
  quiet_set_variable_location
  quiet_set_answer_reg
  quiet_set_answer_const
  quiet_set_answer_string
  quiet_set_answer_const_double
  quiet_set_answer_kind
  quiet_set_label_true
  quiet_set_label_false
  quiet_set_label_ternary_end
  quiet_set_arrays
  quiet_set_was_stack_functions
  quiet_set_was_dynamic
  quiet_set_was_file
  quiet_set_was_abs
  quiet_set_was_fabs
  quiet_set_was_function
  : quiet.

#[local] Hint Extern 1 (quiet_line _) => exact I : quiet.
#[local] Hint Extern 1 (quiet_line _) => reflexivity : quiet.

Ltac quiet_auto := auto 400 with quiet nocore.

(** ** Walking through a body

    The generic walk through a body written as a chain of [let]s: every
    state bound on the way is replaced by a variable about which only its
    relation [rel] to the entry state is kept.  [solve] proves [rel E] for a
    state [E] built from the states already met. *)

Lemma fold_left_rel {A : Type} (rel : information -> Prop)
  (f : information -> A -> information) (l : list A) :
  (forall j a, a ∈ l -> rel j -> rel (f j a)) ->
  forall j, rel j -> rel (fold_left f l j).
Proof.
  induction l as [|a l IH]; intros Hf j Hj; [exact Hj|].
  cbn. apply IH.
  - intros j' a' Hin. apply Hf. apply elem_of_cons. right. exact Hin.
  - apply Hf; [apply elem_of_cons; left; reflexivity|exact Hj].
Qed.

Lemma fold_left_pair_rel {A B : Type} (rel : information -> Prop)
  (f : information * B -> A -> information * B) (l : list A) :
  (forall j b a, a ∈ l -> rel j -> on_fst rel (f (j, b) a)) ->
  forall j b, rel j -> on_fst rel (fold_left f l (j, b)).
Proof.
  induction l as [|a l IH]; intros Hf j b Hj; [exact Hj|].
  cbn. specialize (Hf j b a) as Hstep.
  destruct (f (j, b) a) as [j' b'] eqn:E. apply IH.
  - intros j'' b'' a' Hin. apply Hf. apply elem_of_cons. right. exact Hin.
  - apply Hstep; [apply elem_of_cons; left; reflexivity|exact Hj].
Qed.

Ltac use_forall :=
  repeat match goal with
  | HF : Forall ?P ?l, Hin : ?a ∈ ?l |- _ =>
      let H := fresh "IHa" in
      pose proof (proj1 (Forall_forall P l) HF a Hin) as H; cbv beta in H;
      clear Hin
  end.

Ltac rel_of G :=
  lazymatch G with
  | on_fst ?r => r
  | walking ?r _ => r
  | _ => G
  end.

Ltac walk_let solve :=
  lazymatch goal with
  | |- ?G (let x := ?E in @?B x) =>
      lazymatch type of E with
      | information =>
          lazymatch E with
          | let y := ?E1 in @?E2 y =>
              change (G (let y := E1 in let x := E2 y in B x)); cbv beta
          | if ?c then _ else _ => destruct c eqn:?
          | match fold_left ?f ?l (?A, ?b) with pair _ _ => _ end =>
              let rel := rel_of G in
              let H := fresh "Hfold" in
              assert (H : on_fst rel (fold_left f l (A, b))) by solve;
              let y := fresh "info" in
              let z := fresh "acc" in
              destruct (fold_left f l (A, b)) as [y z];
              unfold on_fst in H; cbn [fst] in H
          | match ?d with _ => _ end => destruct d eqn:?
          | _ =>
              let rel := rel_of G in
              let H := fresh "Hstep" in
              assert (H : rel E) by solve;
              let y := fresh "info" in
              pose (y := E); change (rel y) in H; change (G (B y));
              clearbody y; cbv beta
          end
      | _ => change (G (B E)); cbv beta
      end
  end.

Ltac walk_pair solve :=
  lazymatch goal with
  | |- ?G (match ?P with pair a b => @?C a b end) =>
      lazymatch P with
      | let x := ?E in @?B x =>
          change (G (let x := E in match B x with pair a b => C a b end));
          cbv beta
      | if ?c then _ else _ => destruct c eqn:?
      | fold_left ?f ?l (?A, ?b) =>
          let rel := rel_of G in
          let H := fresh "Hfold" in
          assert (H : on_fst rel (fold_left f l (A, b))) by solve;
          let y := fresh "info" in
          let z := fresh "acc" in
          destruct (fold_left f l (A, b)) as [y z];
          unfold on_fst in H; cbn [fst] in H
      | (?A, ?t) =>
          lazymatch type of A with
          | information =>
              let rel := rel_of G in
              let H := fresh "Hstep" in
              assert (H : rel A) by solve;
              let y := fresh "info" in
              pose (y := A); change (rel y) in H; change (G (C y t));
              clearbody y; cbv beta
          end
      end
  end.

Ltac walk_branch :=
  lazymatch goal with
  | |- ?G (if ?c then _ else _) => destruct c eqn:?
  | |- ?G (match ?P with _ => _ end) =>
      lazymatch P with
      | if ?c then _ else _ => destruct c eqn:?
      | match ?x with _ => _ end => destruct x eqn:?
      | _ => destruct P eqn:?
      end
  end.

Ltac walk_with solve :=
  repeat first [ walk_let solve | walk_pair solve | walk_branch ];
  try solve.

Ltac quiet_solve :=
  first
    [ solve [quiet_auto]
    | lazymatch goal with
      | |- on_fst _ (_, _) => unfold on_fst; cbn [fst]; quiet_solve
      | |- ?rel (fst ?p) => change (on_fst rel p); quiet_solve
      | |- on_fst ?rel (fold_left ?f ?l (?j, ?b)) =>
          apply (fold_left_pair_rel rel f l);
          [ intros ? ? ? ? ?; cbv beta iota; use_forall; walk_with quiet_solve
          | quiet_solve ]
      | |- ?rel (fold_left ?f ?l ?j) =>
          apply (fold_left_rel rel f l);
          [ intros ? ? ? ?; cbv beta; use_forall; walk_with quiet_solve
          | quiet_solve ]
      end ].

Ltac walk := walk_with quiet_solve.

Lemma quiet_to_code_operation_reg_reg i j op a b t :
  quiet_step i j -> quiet_step i (to_code_operation_reg_reg j op a b t).
Proof. intros H. cbv beta delta [to_code_operation_reg_reg]. walk. Qed.

Lemma quiet_to_code_operation_reg_const_integer i j op a b t :
  quiet_step i j -> quiet_step i (to_code_operation_reg_const_integer j op a b t).
Proof. intros H. cbv beta delta [to_code_operation_reg_const_integer]. walk. Qed.

Lemma quiet_to_code_operation_reg_const_double i j op a b :
  quiet_step i j -> quiet_step i (to_code_operation_reg_const_double j op a b).
Proof. intros H. cbv beta delta [to_code_operation_reg_const_double]. walk. Qed.

Lemma quiet_to_code_operation_const_reg_integer i j op a b t :
  quiet_step i j -> quiet_step i (to_code_operation_const_reg_integer j op a b t).
Proof. intros H. cbv beta delta [to_code_operation_const_reg_integer]. walk. Qed.

Lemma quiet_to_code_operation_const_reg_double i j op a b :
  quiet_step i j -> quiet_step i (to_code_operation_const_reg_double j op a b).
Proof. intros H. cbv beta delta [to_code_operation_const_reg_double]. walk. Qed.

Lemma quiet_to_code_operation_reg_null i j op a t :
  quiet_step i j -> quiet_step i (to_code_operation_reg_null j op a t).
Proof. intros H. cbv beta delta [to_code_operation_reg_null]. walk. Qed.

Lemma quiet_to_code_operation_null_reg i j op a t :
  quiet_step i j -> quiet_step i (to_code_operation_null_reg j op a t).
Proof. intros H. cbv beta delta [to_code_operation_null_reg]. walk. Qed.

Lemma quiet_to_code_load i j r id t a l :
  quiet_step i j -> quiet_step i (to_code_load j r id t a l).
Proof. intros H. cbv beta delta [to_code_load]. walk. Qed.

Lemma quiet_to_code_store_reg i j r id t a p l :
  quiet_step i j -> quiet_step i (to_code_store_reg j r id t a p l).
Proof. intros H. cbv beta delta [to_code_store_reg]. walk. Qed.

Lemma quiet_to_code_store_const_integer i j v id a l t :
  quiet_step i j -> quiet_step i (to_code_store_const_integer j v id a l t).
Proof. intros H. cbv beta delta [to_code_store_const_integer]. walk. Qed.

Lemma quiet_to_code_store_const_double i j v id a l :
  quiet_step i j -> quiet_step i (to_code_store_const_double j v id a l).
Proof. intros H. cbv beta delta [to_code_store_const_double]. walk. Qed.

Lemma quiet_to_code_store_null i j id t :
  quiet_step i j -> quiet_step i (to_code_store_null j id t).
Proof. intros H. cbv beta delta [to_code_store_null]. walk. Qed.

Lemma quiet_to_code_try_zext_to i j :
  quiet_step i j -> quiet_step i (to_code_try_zext_to j).
Proof. intros H. cbv beta delta [to_code_try_zext_to]. walk. Qed.

Lemma quiet_to_code_label i j l :
  quiet_step i j -> quiet_step i (to_code_label j l).
Proof. intros H. cbv beta delta [to_code_label]. walk. Qed.

Lemma quiet_to_code_unconditional_branch i j l :
  quiet_step i j -> quiet_step i (to_code_unconditional_branch j l).
Proof. intros H. cbv beta delta [to_code_unconditional_branch]. walk. Qed.

Lemma quiet_to_code_conditional_branch i j :
  quiet_step i j -> quiet_step i (to_code_conditional_branch j).
Proof. intros H. cbv beta delta [to_code_conditional_branch]. walk. Qed.

Lemma quiet_to_code_slice i j id c p t l :
  quiet_step i j -> quiet_step i (to_code_slice j id c p t l).
Proof. intros H. cbv beta delta [to_code_slice]. walk. Qed.

#[local] Hint Resolve quiet_to_code_operation_reg_reg
  quiet_to_code_operation_reg_const_integer
  quiet_to_code_operation_reg_const_double
  quiet_to_code_operation_const_reg_integer
  quiet_to_code_operation_const_reg_double
  quiet_to_code_operation_reg_null quiet_to_code_operation_null_reg
  quiet_to_code_load quiet_to_code_store_reg quiet_to_code_store_const_integer
  quiet_to_code_store_const_double quiet_to_code_store_null
  quiet_to_code_try_zext_to quiet_to_code_label
  quiet_to_code_unconditional_branch quiet_to_code_conditional_branch
  quiet_to_code_slice : quiet.

Lemma quiet_check_type_and_branch i j :
  quiet_step i j -> quiet_step i (check_type_and_branch j).
Proof. intros H. cbv beta delta [check_type_and_branch]. walk. Qed.

Lemma quiet_to_code_stack_save_function i j :
  quiet_step i j -> quiet_step i (to_code_stack_save j (-1)).
Proof. intros H. cbv beta delta [to_code_stack_save]. walk. Qed.

Lemma quiet_to_code_stack_load_function i j :
  quiet_step i j -> quiet_step i (to_code_stack_load j (-1)).
Proof. intros H. cbv beta delta [to_code_stack_load]. walk. Qed.

Lemma quiet_to_code_alloc_array_static i j index t l :
  quiet_step i j -> quiet_step i (to_code_alloc_array_static j index t l).
Proof. intros H. cbv beta delta [to_code_alloc_array_static]. walk. Qed.

#[local] Hint Resolve quiet_check_type_and_branch
  quiet_to_code_stack_save_function quiet_to_code_stack_load_function
  quiet_to_code_alloc_array_static : quiet.

Lemma quiet_to_code_alloc_array_dynamic i j index t :
  quiet_step i j -> quiet_step i (to_code_alloc_array_dynamic j index t).
Proof. intros H. cbv beta delta [to_code_alloc_array_dynamic]. walk. Qed.

#[local] Hint Resolve quiet_to_code_alloc_array_dynamic : quiet.

Lemma quiet_call_argument_to_io i j a :
  quiet_step i j -> quiet_step i (call_argument_to_io j a).
Proof. intros H. cbv beta delta [call_argument_to_io]. walk. Qed.

#[local] Hint Resolve quiet_call_argument_to_io : quiet.

(** ** Expressions are quiet *)

Lemma expr_induction (P : expr -> Prop) :
  P expr_broken ->
  (forall t id, P (expr_identifier t id)) ->
  (forall t a, P (expr_literal t a)) ->
  (forall t base index, P base -> P index -> P (expr_subscript t base index)) ->
  (forall t callee args, P callee -> Forall P args -> P (expr_call t callee args)) ->
  (forall t base m, P base -> P (expr_member t base m)) ->
  (forall t s operand, P operand -> P (expr_cast t s operand)) ->
  (forall t op operand, P operand -> P (expr_unary t op operand)) ->
  (forall t op LHS RHS, P LHS -> P RHS -> P (expr_binary t op LHS RHS)) ->
  (forall t c LHS RHS, P c -> P LHS -> P RHS -> P (expr_ternary t c LHS RHS)) ->
  (forall t subexprs, Forall P subexprs -> P (expr_initializer t subexprs)) ->
  (forall t, P (expr_inline t)) ->
  forall e, P e.
Proof.
  intros Hbroken Hid Hlit Hsub Hcall Hmem Hcast Hun Hbin Htern Hinit Hinl.
  fix IH 1. intros [| | | | t callee args | | | | | | t subexprs |].
  - apply Hbroken.
  - apply Hid.
  - apply Hlit.
  - apply Hsub; apply IH.
  - apply Hcall; [apply IH|].
    induction args as [|a args IHargs]; constructor; [apply IH|exact IHargs].
  - apply Hmem; apply IH.
  - apply Hcast; apply IH.
  - apply Hun; apply IH.
  - apply Hbin; apply IH.
  - apply Htern; apply IH.
  - apply Hinit.
    induction subexprs as [|a l IHl]; constructor; [apply IH|exact IHl].
  - apply Hinl.
Qed.

Section QuietExpressions.

Variable f : information -> expr -> information.

Lemma quiet_emit_cast_expression t s operand :
  quiet_on f operand ->
  forall i j, quiet_step i j ->
    quiet_step i (emit_cast_expression f j (expr_cast t s operand)).
Proof.
  intros IH i j H. unfold quiet_on in IH.
  cbv beta iota delta [emit_cast_expression]. walk.
Qed.

Lemma quiet_emit_identifier_expression nd :
  forall i j, quiet_step i j -> quiet_step i (emit_identifier_expression j nd).
Proof. intros i j H. cbv beta delta [emit_identifier_expression]. walk. Qed.

Lemma quiet_emit_literal_expression nd :
  forall i j, quiet_step i j -> quiet_step i (emit_literal_expression j nd).
Proof. intros i j H. cbv beta delta [emit_literal_expression]. walk. Qed.

Lemma quiet_emit_call_expression t callee args :
  Forall (quiet_on f) args ->
  forall i j, quiet_step i j ->
    quiet_step i (emit_call_expression f j (expr_call t callee args)).
Proof.
  intros IH i j H. unfold quiet_on in IH.
  cbv beta iota delta [emit_call_expression]. walk.
Qed.

Lemma quiet_emit_member_expression nd :
  forall i j, quiet_step i j -> quiet_step i (emit_member_expression j nd).
Proof.
  intros i j H. destruct nd; cbv beta iota delta [emit_member_expression];
    try exact H. walk.
Qed.

Lemma quiet_slices_subscript t base index :
  quiet_slices f base -> quiet_on f index -> quiet_slices f (expr_subscript t base index).
Proof.
  intros IHbase IHindex id cur i j H. unfold quiet_slices, quiet_on in *.
  cbn beta iota delta [emit_one_dimension_subscript]. walk.
Qed.

Lemma quiet_slices_leaf nd :
  match nd with expr_subscript _ _ _ => False | _ => True end ->
  quiet_slices f nd.
Proof.
  intros Hnd id cur i j H. unfold quiet_slices.
  destruct nd; try contradiction;
    cbn beta iota delta [emit_one_dimension_subscript]; walk.
Qed.

Lemma quiet_emit_subscript_expression nd :
  quiet_slices f nd ->
  forall i j, quiet_step i j -> quiet_step i (emit_subscript_expression f j nd).
Proof.
  intros IH i j H. unfold quiet_slices in IH.
  cbv beta iota delta [emit_subscript_expression]. walk.
Qed.

Lemma quiet_emit_inc_dec_expression t op operand :
  quiet_on f operand ->
  forall i j, quiet_step i j ->
    quiet_step i (emit_inc_dec_expression f j (expr_unary t op operand)).
Proof.
  intros IH i j H. unfold quiet_on in IH.
  cbv beta iota delta [emit_inc_dec_expression]. walk.
Qed.

Lemma quiet_emit_unary_expression t op operand :
  quiet_on f operand ->
  forall i j, quiet_step i j ->
    quiet_step i (emit_unary_expression f j (expr_unary t op operand)).
Proof.
  intros IH i j H.
  pose proof (quiet_emit_inc_dec_expression t op operand IH) as Hinc.
  unfold quiet_on in IH.
  cbv beta iota delta [emit_unary_expression]. walk.
Qed.

Lemma quiet_emit_integral_expression t op LHS RHS kind :
  quiet_on f LHS -> quiet_on f RHS ->
  forall i j, quiet_step i j ->
    quiet_step i (emit_integral_expression f j (expr_binary t op LHS RHS) kind).
Proof.
  intros IHL IHR i j H. unfold quiet_on in *.
  cbv beta iota delta [emit_integral_expression]. walk.
Qed.

Lemma quiet_emit_assignment_expression t op LHS RHS :
  quiet_on f LHS -> quiet_on f RHS ->
  forall i j, quiet_step i j ->
    quiet_step i (emit_assignment_expression f j (expr_binary t op LHS RHS)).
Proof.
  intros IHL IHR i j H. unfold quiet_on in *.
  cbv beta iota delta [emit_assignment_expression]. walk.
Qed.

Lemma quiet_emit_binary_expression t op LHS RHS :
  quiet_on f LHS -> quiet_on f RHS ->
  forall i j, quiet_step i j ->
    quiet_step i (emit_binary_expression f j (expr_binary t op LHS RHS)).
Proof.
  intros IHL IHR i j H.
  pose proof (quiet_emit_integral_expression t op LHS RHS AREG IHL IHR) as Hint1.
  pose proof (quiet_emit_integral_expression t op LHS RHS ALOGIC IHL IHR) as Hint2.
  pose proof (quiet_emit_assignment_expression t op LHS RHS IHL IHR) as Hass.
  unfold quiet_on in *.
  cbv beta iota delta [emit_binary_expression]. walk.
Qed.

Lemma quiet_emit_ternary_expression t c LHS RHS :
  quiet_on f c -> quiet_on f LHS -> quiet_on f RHS ->
  forall i j, quiet_step i j ->
    quiet_step i (emit_ternary_expression f j (expr_ternary t c LHS RHS)).
Proof.
  intros IHc IHL IHR i j H. unfold quiet_on in *.
  cbv beta iota delta [emit_ternary_expression]. walk.
Qed.

End QuietExpressions.

Lemma emit_expression_eq info nd :
  emit_expression info nd
  = match expression_get_class nd with
    | EXPR_CAST => emit_cast_expression emit_expression info nd
    | EXPR_IDENTIFIER => emit_identifier_expression info nd
    | EXPR_LITERAL => emit_literal_expression info nd
    | EXPR_SUBSCRIPT => emit_subscript_expression emit_expression info nd
    | EXPR_CALL => emit_call_expression emit_expression info nd
    | EXPR_MEMBER => emit_member_expression info nd
    | EXPR_UNARY => emit_unary_expression emit_expression info nd
    | EXPR_BINARY => emit_binary_expression emit_expression info nd
    | EXPR_TERNARY => emit_ternary_expression emit_expression info nd
    | _ => info
    end.
Proof. destruct nd; reflexivity. Qed.

(** Every expression is lowered by a quiet step. *)
Lemma quiet_emit_expression_slices e :
  quiet_on emit_expression e /\ quiet_slices emit_expression e.
Proof.
  pattern e. apply expr_induction; clear e.
  - split; [intros i j Hq; exact Hq|apply quiet_slices_leaf; exact I].
  - intros t id. split; [|apply quiet_slices_leaf; exact I].
    intros i j Hq. rewrite emit_expression_eq.
    apply quiet_emit_identifier_expression. exact Hq.
  - intros t a. split; [|apply quiet_slices_leaf; exact I].
    intros i j Hq. rewrite emit_expression_eq.
    apply quiet_emit_literal_expression. exact Hq.
  - intros t base index [_ IHbase] [IHindex _].
    assert (Hs : quiet_slices emit_expression (expr_subscript t base index))
      by (apply quiet_slices_subscript; assumption).
    split; [|exact Hs].
    intros i j Hq. rewrite emit_expression_eq.
    apply quiet_emit_subscript_expression; assumption.
  - intros t callee args _ IHargs. split; [|apply quiet_slices_leaf; exact I].
    intros i j Hq. rewrite emit_expression_eq.
    apply quiet_emit_call_expression; [|exact Hq].
    eapply Forall_impl; [exact IHargs|]. intros a [Ha _]. exact Ha.
  - intros t base m _. split; [|apply quiet_slices_leaf; exact I].
    intros i j Hq. rewrite emit_expression_eq.
    apply quiet_emit_member_expression. exact Hq.
  - intros t s operand [IH _]. split; [|apply quiet_slices_leaf; exact I].
    intros i j Hq. rewrite emit_expression_eq.
    apply quiet_emit_cast_expression; assumption.
  - intros t op operand [IH _]. split; [|apply quiet_slices_leaf; exact I].
    intros i j Hq. rewrite emit_expression_eq.
    apply quiet_emit_unary_expression; assumption.
  - intros t op LHS RHS [IHL _] [IHR _]. split; [|apply quiet_slices_leaf; exact I].
    intros i j Hq. rewrite emit_expression_eq.
    apply quiet_emit_binary_expression; assumption.
  - intros t c LHS RHS [IHc _] [IHL _] [IHR _].
    split; [|apply quiet_slices_leaf; exact I].
    intros i j Hq. rewrite emit_expression_eq.
    apply quiet_emit_ternary_expression; assumption.
  - intros t subexprs _. split; [|apply quiet_slices_leaf; exact I].
    intros i j Hq. exact Hq.
  - intros t. split; [|apply quiet_slices_leaf; exact I].
    intros i j Hq. exact Hq.
Qed.

Lemma quiet_emit_expression e i j :
  quiet_step i j -> quiet_step i (emit_expression j e).
Proof. apply quiet_emit_expression_slices. Qed.

#[local] Hint Resolve quiet_emit_expression : quiet.

(** ** Initializers and variable declarations are quiet *)

Lemma quiet_emit_one_dimension_initialization nd :
  forall id arr_type cur prev is_local i j,
    quiet_step i j ->
    quiet_step i
      (emit_one_dimension_initialization j nd id arr_type cur prev is_local).
Proof.
  pattern nd. apply expr_induction; clear nd;
    try (intros; cbn beta iota fix delta [emit_one_dimension_initialization];
         assumption).
  intros t subexprs IH id arr_type cur prev is_local i j Hq.
  cbn beta iota fix delta [emit_one_dimension_initialization]. walk.
Qed.

#[local] Hint Resolve quiet_emit_one_dimension_initialization : quiet.

Lemma quiet_emit_initialization nd id arr_type i j :
  quiet_step i j -> quiet_step i (emit_initialization j nd id arr_type).
Proof. intros H. cbv beta delta [emit_initialization]. walk. Qed.

#[local] Hint Resolve quiet_emit_initialization : quiet.

Lemma quiet_emit_variable_declaration nd is_local i j :
  quiet_step i j -> quiet_step i (emit_variable_declaration j nd is_local).
Proof.
  intros H. destruct nd; cbv beta iota delta [emit_variable_declaration];
    try exact H.
  walk.
Qed.

#[local] Hint Resolve quiet_emit_variable_declaration : quiet.

(** ** Statements *)

Lemma stmt_induction (P : stmt -> Prop) (Q : decl -> Prop) :
  (forall ds, Forall Q ds -> P (stmt_declaration ds)) ->
  (forall l s, P s -> P (stmt_labeled l s)) ->
  (forall e s, P s -> P (stmt_case e s)) ->
  (forall s, P s -> P (stmt_default s)) ->
  (forall ss, Forall P ss -> P (stmt_compound ss)) ->
  (forall e, P (stmt_expr e)) ->
  P stmt_null ->
  (forall c s, P s -> forall o, match o with Some s' => P s' | None => True end ->
               P (stmt_if c s o)) ->
  (forall c s, P s -> P (stmt_switch c s)) ->
  (forall c s, P s -> P (stmt_while c s)) ->
  (forall s c, P s -> P (stmt_do s c)) ->
  (forall o c n s, match o with Some s' => P s' | None => True end -> P s ->
                   P (stmt_for o c n s)) ->
  (forall l, P (stmt_goto l)) ->
  P stmt_continue ->
  P stmt_break ->
  (forall o, P (stmt_return o)) ->
  P stmt_other ->
  (forall id dims init, Q (decl_variable id dims init)) ->
  (forall id params body, P body -> Q (decl_function id params body)) ->
  Q decl_other ->
  forall s, P s.
Proof.
  intros Hdecl Hlab Hcase Hdef Hcomp Hexpr Hnull Hif Hswitch Hwhile Hdo Hfor
    Hgoto Hcont Hbreak Hret Hother Hvar Hfun Hdother.
  fix IH 1. intros [ds|l s|e s|s|ss|e| |c s o|c s|c s|s c|o c n s|l| | |o| ].
  - apply Hdecl.
    induction ds as [|d ds IHds]; constructor; [|exact IHds].
    destruct d as [id dims init|id params body|].
    + apply Hvar.
    + apply Hfun. apply IH.
    + apply Hdother.
  - apply Hlab. apply IH.
  - apply Hcase. apply IH.
  - apply Hdef. apply IH.
  - apply Hcomp.
    induction ss as [|s ss IHss]; constructor; [apply IH|exact IHss].
  - apply Hexpr.
  - apply Hnull.
  - apply Hif; [apply IH|]. destruct o as [s'|]; [apply IH|exact I].
  - apply Hswitch. apply IH.
  - apply Hwhile. apply IH.
  - apply Hdo. apply IH.
  - apply Hfor; [|apply IH]. destruct o as [s'|]; [apply IH|exact I].
  - apply Hgoto.
  - apply Hcont.
  - apply Hbreak.
  - apply Hret.
  - apply Hother.
Qed.

Lemma emit_statement_eq info nd :
  emit_statement info nd
  = match nd with
    | stmt_declaration _ => emit_declaration_statement emit_declaration info nd
    | stmt_labeled _ _ => emit_labeled_statement emit_statement info nd
    | stmt_compound _ => emit_compound_statement emit_statement info nd false
    | stmt_expr expression => emit_expression info expression
    | stmt_if _ _ _ => emit_if_statement emit_statement info nd
    | stmt_while _ _ => emit_while_statement emit_statement info nd
    | stmt_do _ _ => emit_do_statement emit_statement info nd
    | stmt_for _ _ _ _ => emit_for_statement emit_statement info nd
    | stmt_goto label => to_code_unconditional_branch info (item_wrap label)
    | stmt_continue => to_code_unconditional_branch info (label_continue info)
    | stmt_break => to_code_unconditional_branch info (label_break info)
    | stmt_return _ => emit_return_statement info nd
    | _ => info
    end.
Proof. destruct nd; reflexivity. Qed.

Lemma emit_declaration_eq info nd is_local :
  emit_declaration info nd is_local
  = match nd with
    | decl_variable _ _ _ => emit_variable_declaration info nd is_local
    | decl_function _ _ _ => emit_function_definition emit_statement info nd
    | decl_other => info
    end.
Proof. destruct nd; reflexivity. Qed.

(** The solver of a walk, for a relation [rel]: [base] proves one step, the
    loops over lists are taken apart here. *)
Ltac rel_solve base :=
  first
    [ solve [base]
    | lazymatch goal with
      | |- on_fst _ (_, _) => unfold on_fst; cbn [fst]; rel_solve base
      | |- ?rel (fst ?p) => change (on_fst rel p); rel_solve base
      | |- on_fst ?rel (fold_left ?f ?l (?j, ?b)) =>
          apply (fold_left_pair_rel rel f l);
          [ intros ? ? ? ? ?; cbv beta iota; use_forall;
            walk_with ltac:(idtac; rel_solve base)
          | rel_solve base ]
      | |- ?rel (fold_left ?f ?l ?j) =>
          apply (fold_left_rel rel f l);
          [ intros ? ? ? ?; cbv beta; use_forall;
            walk_with ltac:(idtac; rel_solve base)
          | rel_solve base ]
      end ].

Ltac use_hypothesis :=
  match goal with
  | IH : _ |- _ => solve [apply IH; assumption]
  end.

(** *** The loop labels are a frame of every statement *)

Lemma labels_kept_refl i : labels_kept i i.
Proof. split; reflexivity. Qed.

Lemma labels_kept_same i j k :
  label_break k = label_break j -> label_continue k = label_continue j ->
  labels_kept i j -> labels_kept i k.
Proof. intros Hb Hc [H1 H2]. split; congruence. Qed.

Lemma labels_kept_quiet i j k :
  labels_kept i j -> quiet_step j k -> labels_kept i k.
Proof.
  intros H (_ & Hb & Hc & _). apply (labels_kept_same i j k); assumption.
Qed.

Ltac labels_base :=
  first
    [ assumption
    | use_hypothesis
    | match goal with
      | H : labels_kept ?i ?j |- labels_kept ?i ?E =>
          first
            [ apply (labels_kept_quiet i j E H); solve [quiet_auto]
            | apply (labels_kept_same i j E); [reflexivity|reflexivity|exact H] ]
      end ].

Ltac labels_walk := walk_with ltac:(idtac; rel_solve labels_base).

Lemma labels_kept_emit_compound_statement ss b :
  Forall (fun s => forall i j, labels_kept i j ->
                     labels_kept i (emit_statement j s)) ss ->
  forall i j, labels_kept i j ->
    labels_kept i (emit_compound_statement emit_statement j (stmt_compound ss) b).
Proof.
  intros IH i j H. cbv beta iota delta [emit_compound_statement]. labels_walk.
Qed.

Lemma labels_kept_emit_compound_other nd b i j :
  match nd with stmt_compound _ => False | _ => True end ->
  labels_kept i j ->
  labels_kept i (emit_compound_statement emit_statement j nd b).
Proof.
  intros Hnd H. destruct nd; try contradiction;
    cbv beta iota delta [emit_compound_statement]; labels_walk.
Qed.

Lemma labels_kept_emit_return_statement nd i j :
  labels_kept i j -> labels_kept i (emit_return_statement j nd).
Proof.
  intros H. destruct nd; try exact H.
  cbv beta iota delta [emit_return_statement]. labels_walk.
Qed.

Lemma keeps_labels_of (s : stmt) :
  match s with stmt_compound _ => False | _ => True end ->
  (forall i j, labels_kept i j -> labels_kept i (emit_statement j s)) ->
  keeps_labels s.
Proof.
  intros Hs H. split; [exact H|].
  intros b i j Hk. apply labels_kept_emit_compound_other; assumption.
Qed.

Lemma keeps_labels_emit_statement s : keeps_labels s.
Proof.
  pattern s.
  apply (stmt_induction _
           (fun d => forall l i j, labels_kept i j ->
                       labels_kept i (emit_declaration j d l))); clear s.
  - intros ds IH. apply keeps_labels_of; [exact I|]. intros i j H.
    rewrite emit_statement_eq. cbv beta iota delta [emit_declaration_statement].
    labels_walk.
  - intros l s [IH _]. apply keeps_labels_of; [exact I|]. intros i j H.
    rewrite emit_statement_eq. cbv beta iota delta [emit_labeled_statement].
    labels_walk.
  - intros e s _. apply keeps_labels_of; [exact I|]. intros i j H. exact H.
  - intros s _. apply keeps_labels_of; [exact I|]. intros i j H. exact H.
  - intros ss IH.
    assert (IH' : Forall (fun s => forall i j, labels_kept i j ->
                            labels_kept i (emit_statement j s)) ss).
    { eapply Forall_impl; [exact IH|]. intros a [Ha _]. exact Ha. }
    split.
    + intros i j H. rewrite emit_statement_eq.
      apply labels_kept_emit_compound_statement; assumption.
    + intros b i j H. apply labels_kept_emit_compound_statement; assumption.
  - intros e. apply keeps_labels_of; [exact I|]. intros i j H.
    rewrite emit_statement_eq. labels_base.
  - apply keeps_labels_of; [exact I|]. intros i j H. exact H.
  - intros c s [IH _] o IHo. apply keeps_labels_of; [exact I|]. intros i j H.
    rewrite emit_statement_eq. cbv beta iota delta [emit_if_statement].
    destruct o as [s'|]; [destruct IHo as [IHo _]|]; labels_walk.
  - intros c s _. apply keeps_labels_of; [exact I|]. intros i j H. exact H.
  - intros c s _. apply keeps_labels_of; [exact I|]. intros i j H.
    apply (labels_kept_same i j); [reflexivity|reflexivity|exact H].
  - intros s c _. apply keeps_labels_of; [exact I|]. intros i j H.
    apply (labels_kept_same i j); [reflexivity|reflexivity|exact H].
  - intros o c n s _ _. apply keeps_labels_of; [exact I|]. intros i j H.
    apply (labels_kept_same i j); [reflexivity|reflexivity|exact H].
  - intros l. apply keeps_labels_of; [exact I|]. intros i j H.
    rewrite emit_statement_eq. labels_base.
  - apply keeps_labels_of; [exact I|]. intros i j H.
    rewrite emit_statement_eq. labels_base.
  - apply keeps_labels_of; [exact I|]. intros i j H.
    rewrite emit_statement_eq. labels_base.
  - intros o. apply keeps_labels_of; [exact I|]. intros i j H.
    rewrite emit_statement_eq. apply labels_kept_emit_return_statement. exact H.
  - apply keeps_labels_of; [exact I|]. intros i j H. exact H.
  - intros id dims init l i j H. rewrite emit_declaration_eq. labels_base.
  - intros id params body [_ IH] l i j H. rewrite emit_declaration_eq.
    cbv beta iota delta [emit_function_definition]. labels_walk.
  - intros l i j H. exact H.
Qed.

(** *** What single steps write *)

Ltac unfold_record :=
  cbv beta iota zeta delta
    [uni_printf to_code_label to_code_unconditional_branch
     to_code_stack_save to_code_stack_load
     set_io set_register_num set_was_stack_functions set_block_num
     set_label_num set_label_true set_label_false set_label_break
     set_label_continue
     sx io system_errors register_num label_num init_num block_num
     request_reg variable_location answer_reg answer_const answer_string
     answer_const_double answer_kind label_true label_false label_break
     label_continue label_ternary_end arrays was_stack_functions was_dynamic
     was_file was_abs was_fabs was_function is_main].

Lemma io_to_code_stack_save j k :
  io (to_code_stack_save j k)
  = io j ++ [I_dyn_alloca k; I_stacksave (register_num j);
             I_dyn_store (register_num j) k].
Proof. destruct j. unfold_record. repeat rewrite <- app_assoc. reflexivity. Qed.

Lemma io_to_code_stack_load j k :
  io (to_code_stack_load j k)
  = io j ++ [I_dyn_load (register_num j) k; I_stackrestore (register_num j)].
Proof. destruct j. unfold_record. repeat rewrite <- app_assoc. reflexivity. Qed.

Ltac unfold_statement :=
  cbv beta iota zeta delta
    [emit_statement emit_declaration emit_compound_statement
     emit_labeled_statement emit_return_statement fold_left negb
     uni_printf to_code_label to_code_unconditional_branch
     to_code_stack_save to_code_stack_load
     set_io set_register_num set_was_stack_functions set_block_num
     set_label_num set_label_true set_label_false set_label_break
     set_label_continue
     sx io system_errors register_num label_num init_num block_num
     request_reg variable_location answer_reg answer_const answer_string
     answer_const_double answer_kind label_true label_false label_break
     label_continue label_ternary_end arrays was_stack_functions was_dynamic
     was_file was_abs was_fabs was_function is_main].

(** C7.  [goto l] branches to label [l], the labeled statement places
    label [- l]. *)
Theorem emit_goto_label_not_negated info l :
  0 < l <= ITEM_MAX ->
  io (emit_statement info
        (stmt_compound [stmt_goto l; stmt_labeled l stmt_null]))
  = io info
    ++ [I_dyn_alloca (block_num info); I_stacksave (register_num info);
        I_dyn_store (register_num info) (block_num info);
        I_br l;
        I_br (- l); I_label (- l);
        I_dyn_load (register_num info + 1) (block_num info);
        I_stackrestore (register_num info + 1)].
Proof.
  intros Hl.
  assert (H1 : item_wrap l = l).
  { apply BuilderFacts.item_wrap_id. unfold item_in_range, ITEM_MIN, ITEM_MAX in *. lia. }
  assert (H2 : item_wrap (- l) = - l).
  { apply BuilderFacts.item_wrap_id. unfold item_in_range, ITEM_MIN, ITEM_MAX in *. lia. }
  destruct info. unfold_statement.
  rewrite H1, H2. repeat rewrite <- app_assoc. reflexivity.
Qed.

Lemma emit_goto_label_not_negated_witness :
  io (emit_statement ex_information
        (stmt_compound [stmt_goto 5; stmt_labeled 5 stmt_null]))
  = [I_dyn_alloca 1; I_stacksave 1; I_dyn_store 1 1; I_br 5; I_br (-5);
     I_label (-5); I_dyn_load 2 1; I_stackrestore 2].
Proof.
  apply (emit_goto_label_not_negated ex_information 5).
  unfold ITEM_MAX. lia.
Defined.

(** C3.  In [for (; condition; increment) continue;] the increment is the
    block under label [label_num + 2], the body is the block under label
    [label_num + 1], and [continue] is lowered to a branch to the label of
    the body. *)
Theorem emit_for_statement_continue info condition increment :
  exists pre incr,
    io (emit_statement info (stmt_for None condition increment stmt_continue))
    = io info ++ pre
      ++ [I_label (label_num info + 2)] ++ incr
      ++ [I_br (label_num info);
          I_label (label_num info + 1);
          I_br (label_num info + 1);
          I_br (label_num info + 2);
          I_label (label_num info + 3)].
Proof.
  rewrite emit_statement_eq. cbv beta iota zeta delta [emit_for_statement].
  set (j0 := set_label_continue (label_num info + 1) _).
  set (j3 := check_type_and_branch _).
  set (j5 := match increment with Some _ => _ | None => _ end).
  assert (H03 : quiet_step j0 j3) by (subst j3; destruct condition; quiet_auto).
  assert (H45 : quiet_step (to_code_label j3 (label_num info + 2)) j5)
    by (subst j5; destruct increment; quiet_auto).
  clearbody j3 j5.
  destruct H03 as (_ & _ & Hc3 & _ & _ & pre & Hio3 & _).
  destruct H45 as (_ & _ & Hc5 & _ & _ & incr & Hio5 & _).
  exists pre, incr. rewrite emit_statement_eq.
  cbn [io label_continue set_io set_label_true set_label_false set_label_break
       set_label_continue to_code_label to_code_unconditional_branch uni_printf]
    in *.
  rewrite Hc5, Hc3, Hio5, Hio3. subst j0.
  cbn [io label_continue set_io set_label_true set_label_false set_label_break
       set_label_continue set_label_num].
  repeat rewrite <- app_assoc. reflexivity.
Qed.

(** *** Inside [main] no return instruction is written *)

Lemma no_return_quiet l : quiet_line l -> no_return l.
Proof. destruct l; cbn; auto. Qed.

Lemma main_step_refl i : is_main i = true -> main_step i i.
Proof.
  intros H. split; [reflexivity|]. split; [exact H|].
  exists []. split; [symmetry; apply app_nil_r|constructor].
Qed.

Lemma main_step_write i j k out :
  sx k = sx j -> is_main k = is_main j -> io k = io j ++ out ->
  Forall no_return out ->
  main_step i j -> main_step i k.
Proof.
  intros Hs Hm Hio Hout (A1 & A2 & o & A3 & A4).
  split; [congruence|]. split; [congruence|].
  exists (o ++ out). split.
  - rewrite Hio, A3, app_assoc. reflexivity.
  - apply Forall_app. split; assumption.
Qed.

Lemma main_step_same i j k :
  sx k = sx j -> is_main k = is_main j -> io k = io j ->
  main_step i j -> main_step i k.
Proof.
  intros Hs Hm Hio. apply (main_step_write i j k []); auto.
  rewrite app_nil_r. exact Hio.
Qed.

Lemma main_step_quiet i j k : main_step i j -> quiet_step j k -> main_step i k.
Proof.
  intros H (B1 & _ & _ & _ & B5 & o & B6 & B7).
  apply (main_step_write i j k o); auto.
  eapply Forall_impl; [exact B7|]. intros l. apply no_return_quiet.
Qed.

Lemma main_step_to_code_stack_save i j k :
  main_step i j -> main_step i (to_code_stack_save j k).
Proof.
  apply (main_step_write i j (to_code_stack_save j k) _ eq_refl eq_refl
           (io_to_code_stack_save j k)).
  repeat constructor.
Qed.

Lemma main_step_to_code_stack_load i j k :
  main_step i j -> main_step i (to_code_stack_load j k).
Proof.
  apply (main_step_write i j (to_code_stack_load j k) _ eq_refl eq_refl
           (io_to_code_stack_load j k)).
  repeat constructor.
Qed.

Ltac main_base :=
  first
    [ assumption
    | match goal with
      | H : main_step _ ?j, E : is_main ?j = false |- _ =>
          exfalso; destruct H as (_ & H & _); congruence
      end
    | use_hypothesis
    | match goal with
      | H : main_step ?i ?j |- main_step ?i ?E =>
          first
            [ apply (main_step_quiet i j E H); solve [quiet_auto]
            | apply (main_step_same i j E);
              [reflexivity|reflexivity|reflexivity|exact H]
            | apply main_step_to_code_stack_save; exact H
            | apply main_step_to_code_stack_load; exact H ]
      end ].

Ltac main_walk := walk_with ltac:(idtac; rel_solve main_base).

Lemma main_step_emit_return_statement nd i j :
  main_step i j -> main_step i (emit_return_statement j nd).
Proof.
  intros H. destruct nd; try exact H.
  cbv beta iota delta [emit_return_statement]. main_walk.
Qed.

Lemma main_step_emit_declaration d l i j :
  plain_declaration d = true ->
  main_step i j -> main_step i (emit_declaration j d l).
Proof.
  intros Hd H. rewrite emit_declaration_eq.
  destruct d; [main_base|discriminate|exact H].
Qed.

Lemma main_step_emit_compound_statement ss b :
  Forall (fun s => forall i j, main_step i j ->
                     main_step i (emit_statement j s)) ss ->
  forall i j, main_step i j ->
    main_step i (emit_compound_statement emit_statement j (stmt_compound ss) b).
Proof.
  intros IH i j H. cbv beta iota delta [emit_compound_statement]. main_walk.
Qed.

Lemma main_step_emit_compound_other nd b i j :
  match nd with stmt_compound _ => False | _ => True end ->
  main_step i j ->
  main_step i (emit_compound_statement emit_statement j nd b).
Proof.
  intros Hnd H. destruct nd; try contradiction;
    cbv beta iota delta [emit_compound_statement]; main_walk.
Qed.

Lemma keeps_main_of (s : stmt) :
  match s with stmt_compound _ => False | _ => True end ->
  (plain_statement s = true ->
   forall i j, main_step i j -> main_step i (emit_statement j s)) ->
  keeps_main s.
Proof.
  intros Hs H Hp. split; [exact (H Hp)|].
  intros b i j Hk. apply main_step_emit_compound_other; assumption.
Qed.

Lemma Forall_plain (G : stmt -> Prop) ss :
  Forall (fun s => plain_statement s = true -> G s) ss ->
  forallb plain_statement ss = true -> Forall G ss.
Proof.
  induction 1 as [|s ss Hs _ IH]; intros Hp; [constructor|].
  cbn [forallb] in Hp. apply andb_prop in Hp. destruct Hp as [Hp1 Hp2].
  constructor; [exact (Hs Hp1)|exact (IH Hp2)].
Qed.

Lemma keeps_main_emit_statement s : keeps_main s.
Proof.
  pattern s. apply (stmt_induction _ (fun _ => True)); clear s;
    try exact I; try (intros; exact I).
  - intros ds _. apply keeps_main_of; [exact I|]. intros Hp i j H.
    cbn [plain_statement] in Hp.
    assert (IH : Forall (fun d => forall l i j, main_step i j ->
                           main_step i (emit_declaration j d l)) ds).
    { apply Forall_forall. intros d Hd l i' j' H'.
      apply main_step_emit_declaration; [|exact H'].
      rewrite forallb_forall in Hp. apply Hp. apply list_elem_of_In. exact Hd. }
    rewrite emit_statement_eq. cbv beta iota delta [emit_declaration_statement].
    main_walk.
  - intros l s IH. apply keeps_main_of; [exact I|]. intros Hp i j H.
    cbn [plain_statement] in Hp. destruct (IH Hp) as [IHs _].
    rewrite emit_statement_eq. cbv beta iota delta [emit_labeled_statement].
    main_walk.
  - intros e s _. apply keeps_main_of; [exact I|]. intros _ i j H. exact H.
  - intros s _. apply keeps_main_of; [exact I|]. intros _ i j H. exact H.
  - intros ss IH Hp. cbn [plain_statement] in Hp.
    assert (IH' : Forall (fun s => forall i j, main_step i j ->
                            main_step i (emit_statement j s)) ss).
    { eapply Forall_impl; [exact (Forall_plain _ ss IH Hp)|].
      intros a [Ha _]. exact Ha. }
    split.
    + intros i j H. rewrite emit_statement_eq.
      apply main_step_emit_compound_statement; assumption.
    + intros b i j H. apply main_step_emit_compound_statement; assumption.
  - intros e. apply keeps_main_of; [exact I|]. intros _ i j H.
    rewrite emit_statement_eq. main_base.
  - apply keeps_main_of; [exact I|]. intros _ i j H. exact H.
  - intros c s IH o IHo. apply keeps_main_of; [exact I|]. intros Hp i j H.
    cbn [plain_statement] in Hp. apply andb_prop in Hp. destruct Hp as [Hp1 Hp2].
    destruct (IH Hp1) as [IHs _].
    rewrite emit_statement_eq. cbv beta iota delta [emit_if_statement].
    destruct o as [s'|]; [destruct (IHo Hp2) as [IHs' _]|]; main_walk.
  - intros c s _. apply keeps_main_of; [exact I|]. intros _ i j H. exact H.
  - intros c s IH. apply keeps_main_of; [exact I|]. intros Hp i j H.
    cbn [plain_statement] in Hp. destruct (IH Hp) as [IHs _].
    rewrite emit_statement_eq. cbv beta iota delta [emit_while_statement].
    main_walk.
  - intros s c IH. apply keeps_main_of; [exact I|]. intros Hp i j H.
    cbn [plain_statement] in Hp. destruct (IH Hp) as [IHs _].
    rewrite emit_statement_eq. cbv beta iota delta [emit_do_statement].
    main_walk.
  - intros o c n s IHo IH. apply keeps_main_of; [exact I|]. intros Hp i j H.
    cbn [plain_statement] in Hp. apply andb_prop in Hp. destruct Hp as [Hp1 Hp2].
    destruct (IH Hp2) as [IHs _].
    rewrite emit_statement_eq. cbv beta iota delta [emit_for_statement].
    destruct o as [s'|]; [destruct (IHo Hp1) as [IHs' _]|]; main_walk.
  - intros l. apply keeps_main_of; [exact I|]. intros _ i j H.
    rewrite emit_statement_eq. main_base.
  - apply keeps_main_of; [exact I|]. intros _ i j H.
    rewrite emit_statement_eq. main_base.
  - apply keeps_main_of; [exact I|]. intros _ i j H.
    rewrite emit_statement_eq. main_base.
  - intros o. apply keeps_main_of; [exact I|]. intros _ i j H.
    rewrite emit_statement_eq. apply main_step_emit_return_statement. exact H.
  - apply keeps_main_of; [exact I|]. intros _ i j H. exact H.
Qed.

(** *** The function [main] *)

Lemma emit_return_statement_main j e :
  is_main j = true ->
  emit_statement j (stmt_return e)
  = if was_dynamic j then to_code_stack_load j (-1) else j.
Proof.
  intros H. rewrite emit_statement_eq.
  cbv beta iota zeta delta [emit_return_statement].
  destruct (was_dynamic j).
  - change (is_main (to_code_stack_load j (-1))) with (is_main j).
    rewrite H. reflexivity.
  - rewrite H. reflexivity.
Qed.

(** C6.  In [main], a return statement with an expression is lowered as
    one without (the expression is not lowered and nothing is returned
    there), and the lines written for [main], whatever its return statements
    are, hold one return instruction only: the [ret i32 0] that ends the
    function. *)
Theorem emit_function_definition_main info params body is_local :
  plain_statement body = true ->
  (forall j e, is_main j = true ->
     emit_statement j (stmt_return (Some e)) = emit_statement j (stmt_return None))
  /\ exists out,
       io (emit_declaration info
             (decl_function (ref_main (sx info)) params body) is_local)
       = io info ++ out ++ [I_ret_const_integer 0; I_function_end]
       /\ Forall no_return out.
Proof.
  intros Hp. split.
  { intros j e H. rewrite !emit_return_statement_main by exact H. reflexivity. }
  rewrite emit_declaration_eq.
  pose proof (proj2 (keeps_main_emit_statement body Hp)) as Hbody.
  change (walking (quiet_step info)
            (fun x => exists out,
               io x = io info ++ out ++ [I_ret_const_integer 0; I_function_end]
               /\ Forall no_return out)
            (emit_function_definition emit_statement info
               (decl_function (ref_main (sx info)) params body))).
  cbv beta iota delta [emit_function_definition].
  rewrite Z.eqb_refl. cbv beta iota delta [negb].
  assert (H0 : quiet_step info info) by apply quiet_refl.
  do 5 walk_let quiet_solve.
  lazymatch goal with
  | H : quiet_step info ?j |- context [set_is_main true ?j] =>
      destruct H as (Hsx1 & _ & _ & _ & _ & out1 & Hio1 & Hq1)
  end.
  rewrite Hsx1, Z.eqb_refl.
  lazymatch goal with
  | |- walking _ ?post (let x := ?E in @?B x) =>
      change (walking (main_step E) post (B E)); cbv beta;
      assert (Hm : main_step E E) by (apply main_step_refl; reflexivity);
      assert (Hsx0 : sx E = sx info) by exact Hsx1;
      assert (Hio0 : io E = io info ++ out1) by exact Hio1;
      set (i0 := E) in *; clearbody i0
  end.
  do 4 walk_let ltac:(idtac; rel_solve main_base).
  lazymatch goal with
  | H : main_step i0 ?j |- context [was_dynamic ?j] =>
      destruct H as (Hsx6 & _ & out6 & Hio6 & Hq6)
  end.
  change (type_is_void TYPE_INTEGER) with false. cbv beta iota.
  rewrite Hsx6, Hsx0, Z.eqb_refl.
  unfold walking. cbv beta zeta.
  exists (out1 ++ out6). split.
  - cbn [io uni_printf set_io set_is_main].
    rewrite Hio6, Hio0. repeat rewrite <- app_assoc. reflexivity.
  - apply Forall_app. split; [|exact Hq6].
    eapply Forall_impl; [exact Hq1|]. intros l. apply no_return_quiet.
Qed.

Lemma emit_function_definition_main_witness :
  exists out,
    io (emit_declaration ex_information
          (decl_function (ref_main (sx ex_information)) [] ex_main_body) false)
    = io ex_information ++ out ++ [I_ret_const_integer 0; I_function_end]
    /\ Forall no_return out.
Proof.
  apply (emit_function_definition_main ex_information [] ex_main_body false).
  reflexivity.
Defined.

(** ** Expressions and declarations of variables as a frame *)

(** X1.  Whatever the expression, [emit_expression] leaves the tables, the
    loop labels, the block counter and [is_main] as they are, and the lines
    it appends hold no return instruction and touch no stack slot but the
    function-wide one. *)
Theorem emit_expression_frame info nd :
  sx (emit_expression info nd) = sx info
  /\ label_break (emit_expression info nd) = label_break info
  /\ label_continue (emit_expression info nd) = label_continue info
  /\ block_num (emit_expression info nd) = block_num info
  /\ is_main (emit_expression info nd) = is_main info
  /\ exists out,
       io (emit_expression info nd) = io info ++ out /\ Forall quiet_line out.
Proof. apply quiet_emit_expression. apply quiet_refl. Qed.

(** X2.  The same holds of the declaration of a variable, with its bounds
    and its initializer. *)
Theorem emit_variable_declaration_frame info nd is_local :
  sx (emit_variable_declaration info nd is_local) = sx info
  /\ label_break (emit_variable_declaration info nd is_local) = label_break info
  /\ label_continue (emit_variable_declaration info nd is_local)
     = label_continue info
  /\ block_num (emit_variable_declaration info nd is_local) = block_num info
  /\ is_main (emit_variable_declaration info nd is_local) = is_main info
  /\ exists out,
       io (emit_variable_declaration info nd is_local) = io info ++ out
       /\ Forall quiet_line out.
Proof. apply quiet_emit_variable_declaration. apply quiet_refl. Qed.

(** ** Array types *)

(** X4.  An array type is its element type, [array_get_type], under as
    many array layers as [array_get_dim] counts, and the element type is
    no array. *)
Theorem array_get_dim_type (t : type) :
  Nat.iter (array_get_dim t) type_array (array_get_type t) = t
  /\ type_is_array (array_get_type t) = false.
Proof.
  induction t as [c|id|id|t IHp|t IH|m|r IHr ps]; try (split; reflexivity).
  destruct IH as [H1 H2]. split; [|exact H2].
  change (type_array (Nat.iter (array_get_dim t) type_array (array_get_type t))
          = type_array t).
  rewrite H1. reflexivity.
Qed.

(** ** The block slots are opened and closed in order *)

Lemma stack_scan_app next open out1 out2 :
  stack_scan next open (out1 ++ out2)
  = match stack_scan next open out1 with
    | Some (next', open') => stack_scan next' open' out2
    | None => None
    end.
Proof.
  revert next open. induction out1 as [|l out1 IH]; intros next open;
    [reflexivity|].
  destruct l; cbn [app stack_scan]; try apply IH.
  - destruct (index =? -1); [apply IH|].
    destruct (next <=? index); [apply IH|reflexivity].
  - destruct (index =? -1); [apply IH|].
    destruct open as [|k' open']; [reflexivity|].
    destruct (index =? k'); [apply IH|reflexivity].
Qed.

Lemma stack_scan_quiet next open out :
  Forall quiet_line out -> stack_scan next open out = Some (next, open).
Proof.
  induction 1 as [|l out Hl _ IH]; [reflexivity|].
  destruct l; cbn [stack_scan]; try exact IH; cbn in Hl; subst; exact IH.
Qed.

Lemma stack_scan_slot_free next open l :
  slot_free l -> stack_scan next open [l] = Some (next, open).
Proof. destruct l; cbn; intros H; try contradiction; reflexivity. Qed.

Lemma block_step_refl i : block_step [] i i.
Proof.
  split; [lia|]. exists []. split; [symmetry; apply app_nil_r|].
  intros next open H. exists next. split; [exact H|reflexivity].
Qed.

(** Lines that pass the scan without opening or closing a block slot, and a
    block counter that does not decrease, extend a step. *)
Lemma block_step_write pending i j k out :
  io k = io j ++ out -> block_num j <= block_num k ->
  (forall next open, stack_scan next open out = Some (next, open)) ->
  block_step pending i j -> block_step pending i k.
Proof.
  intros Hio Hb Hout (A0 & o & A1 & A2). split; [lia|].
  exists (o ++ out). split.
  - rewrite Hio, A1, app_assoc. reflexivity.
  - intros next open Hn. destruct (A2 next open Hn) as (n' & Hn' & Hs).
    exists n'. split; [lia|]. rewrite stack_scan_app, Hs. apply Hout.
Qed.

Lemma block_step_same pending i j k :
  io k = io j -> block_num j <= block_num k ->
  block_step pending i j -> block_step pending i k.
Proof.
  intros Hio Hb. apply (block_step_write pending i j k []); auto.
  rewrite app_nil_r. exact Hio.
Qed.

Lemma block_step_quiet pending i j k :
  block_step pending i j -> quiet_step j k -> block_step pending i k.
Proof.
  intros H (_ & _ & _ & B4 & _ & o & B6 & B7).
  apply (block_step_write pending i j k o); auto; [lia|].
  intros next open. apply stack_scan_quiet. exact B7.
Qed.

Lemma block_step_uni_printf pending l i j :
  slot_free l -> block_step pending i j -> block_step pending i (uni_printf l j).
Proof.
  intros Hl. apply (block_step_write pending i j (uni_printf l j) [l]).
  - reflexivity.
  - cbn. lia.
  - intros next open. apply stack_scan_slot_free. exact Hl.
Qed.

(** Entering a block: the counter is taken as the key and stepped, the slot
    is stored to. *)
Lemma block_step_enter pending i j :
  0 <= block_num i ->
  block_step pending i j ->
  block_step (block_num j :: pending) i
    (to_code_stack_save (set_block_num (block_num j + 1) j) (block_num j)).
Proof.
  intros H0 (A0 & o & A1 & A2). split.
  { change (block_num (to_code_stack_save _ _)) with (block_num j + 1). lia. }
  exists (o ++ [I_dyn_alloca (block_num j); I_stacksave (register_num j);
                I_dyn_store (register_num j) (block_num j)]).
  split.
  - rewrite io_to_code_stack_save. cbn [io set_block_num register_num].
    rewrite A1, app_assoc. reflexivity.
  - intros next open Hn. destruct (A2 next open Hn) as (n' & Hn' & Hs).
    rewrite stack_scan_app, Hs. cbn [stack_scan].
    destruct (block_num j =? -1) eqn:E; [apply Z.eqb_eq in E; lia|].
    destruct (n' <=? block_num j) eqn:E'; [|apply Z.leb_gt in E'; lia].
    exists (block_num j + 1). split; [|reflexivity].
    change (block_num (to_code_stack_save _ _)) with (block_num j + 1). lia.
Qed.

(** Leaving the block of key [b]: the slot is loaded from. *)
Lemma block_step_leave pending b i j :
  0 <= b ->
  block_step (b :: pending) i j ->
  block_step pending i (to_code_stack_load j b).
Proof.
  intros H0 (A0 & o & A1 & A2). split; [exact A0|].
  exists (o ++ [I_dyn_load (register_num j) b; I_stackrestore (register_num j)]).
  split.
  - rewrite io_to_code_stack_load, A1, app_assoc. reflexivity.
  - intros next open Hn. destruct (A2 next open Hn) as (n' & Hn' & Hs).
    rewrite stack_scan_app, Hs. cbn [stack_scan app].
    destruct (b =? -1) eqn:E; [apply Z.eqb_eq in E; lia|].
    rewrite Z.eqb_refl. exists n'. split; [exact Hn'|reflexivity].
Qed.

Ltac blocks_base :=
  first
    [ assumption
    | use_hypothesis
    | match goal with
      | H : block_step ?p ?i ?j |- block_step ?p ?i ?E =>
          first
            [ apply (block_step_quiet p i j E H); solve [quiet_auto]
            | apply (block_step_same p i j E); [reflexivity|cbn; lia|exact H]
            | apply block_step_uni_printf; [exact I|exact H] ]
      end ].

Ltac blocks_walk := walk_with ltac:(idtac; rel_solve blocks_base).

Lemma block_step_emit_compound_statement ss b :
  Forall (fun s => forall pending i j, 0 <= block_num i ->
                     block_step pending i j ->
                     block_step pending i (emit_statement j s)) ss ->
  forall pending i j, 0 <= block_num i -> block_step pending i j ->
    block_step pending i
      (emit_compound_statement emit_statement j (stmt_compound ss) b).
Proof.
  intros IH pending i j H0 H. cbv beta iota zeta delta [emit_compound_statement].
  destruct b; cbn [negb].
  - apply (fold_left_rel (block_step pending i) emit_statement ss).
    + intros j' a Hin Hj'. use_forall. apply IHa; assumption.
    + apply (block_step_same pending i j); [reflexivity|cbn; lia|exact H].
  - apply block_step_leave; [destruct H; lia|].
    apply (fold_left_rel (block_step (block_num j :: pending) i) emit_statement ss).
    + intros j' a Hin Hj'. use_forall. apply IHa; assumption.
    + apply block_step_enter; assumption.
Qed.

Lemma block_step_emit_compound_other nd b pending i j :
  match nd with stmt_compound _ => False | _ => True end ->
  0 <= block_num i -> block_step pending i j ->
  block_step pending i (emit_compound_statement emit_statement j nd b).
Proof.
  intros Hnd H0 H.
  assert (Hb : b = true ->
    block_step pending i (set_block_num (block_num j + 1) j)).
  { intros _. apply (block_step_same pending i j); [reflexivity|cbn; lia|exact H]. }
  assert (Hs : b = false ->
    block_step pending i
      (to_code_stack_load
         (to_code_stack_save (set_block_num (block_num j + 1) j) (block_num j))
         (block_num j))).
  { intros _. apply block_step_leave; [destruct H; lia|].
    apply block_step_enter; assumption. }
  destruct nd; try contradiction; destruct b;
    first [exact (Hb eq_refl)|exact (Hs eq_refl)].
Qed.

Lemma block_step_emit_return_statement nd pending i j :
  block_step pending i j -> block_step pending i (emit_return_statement j nd).
Proof.
  intros H. destruct nd; try exact H.
  cbv beta iota delta [emit_return_statement]. blocks_walk.
Qed.

Lemma keeps_blocks_of (s : stmt) :
  match s with stmt_compound _ => False | _ => True end ->
  (forall pending i j, 0 <= block_num i -> block_step pending i j ->
     block_step pending i (emit_statement j s)) ->
  keeps_blocks s.
Proof.
  intros Hs H. split; [exact H|].
  intros b pending i j H0 Hk. apply block_step_emit_compound_other; assumption.
Qed.

Lemma keeps_blocks_emit_statement s : keeps_blocks s.
Proof.
  pattern s.
  apply (stmt_induction _
           (fun d => forall l pending i j, 0 <= block_num i ->
                       block_step pending i j ->
                       block_step pending i (emit_declaration j d l))); clear s.
  - intros ds IH. apply keeps_blocks_of; [exact I|]. intros pending i j H0 H.
    rewrite emit_statement_eq. cbv beta iota delta [emit_declaration_statement].
    blocks_walk.
  - intros l s [IH _]. apply keeps_blocks_of; [exact I|]. intros pending i j H0 H.
    rewrite emit_statement_eq. cbv beta iota delta [emit_labeled_statement].
    blocks_walk.
  - intros e s _. apply keeps_blocks_of; [exact I|]. intros pending i j _ H. exact H.
  - intros s _. apply keeps_blocks_of; [exact I|]. intros pending i j _ H. exact H.
  - intros ss IH.
    assert (IH' : Forall (fun s => forall pending i j, 0 <= block_num i ->
                            block_step pending i j ->
                            block_step pending i (emit_statement j s)) ss).
    { eapply Forall_impl; [exact IH|]. intros a [Ha _]. exact Ha. }
    split.
    + intros pending i j H0 H. rewrite emit_statement_eq.
      apply block_step_emit_compound_statement; assumption.
    + intros b pending i j H0 H.
      apply block_step_emit_compound_statement; assumption.
  - intros e. apply keeps_blocks_of; [exact I|]. intros pending i j _ H.
    rewrite emit_statement_eq. blocks_base.
  - apply keeps_blocks_of; [exact I|]. intros pending i j _ H. exact H.
  - intros c s [IH _] o IHo. apply keeps_blocks_of; [exact I|].
    intros pending i j H0 H.
    rewrite emit_statement_eq. cbv beta iota delta [emit_if_statement].
    destruct o as [s'|]; [destruct IHo as [IHo _]|]; blocks_walk.
  - intros c s _. apply keeps_blocks_of; [exact I|]. intros pending i j _ H. exact H.
  - intros c s [IH _]. apply keeps_blocks_of; [exact I|]. intros pending i j H0 H.
    rewrite emit_statement_eq. cbv beta iota delta [emit_while_statement].
    blocks_walk.
  - intros s c [IH _]. apply keeps_blocks_of; [exact I|]. intros pending i j H0 H.
    rewrite emit_statement_eq. cbv beta iota delta [emit_do_statement].
    blocks_walk.
  - intros o c n s IHo [IH _]. apply keeps_blocks_of; [exact I|].
    intros pending i j H0 H.
    rewrite emit_statement_eq. cbv beta iota delta [emit_for_statement].
    destruct o as [s'|]; [destruct IHo as [IHo _]|]; blocks_walk.
  - intros l. apply keeps_blocks_of; [exact I|]. intros pending i j _ H.
    rewrite emit_statement_eq. blocks_base.
  - apply keeps_blocks_of; [exact I|]. intros pending i j _ H.
    rewrite emit_statement_eq. blocks_base.
  - apply keeps_blocks_of; [exact I|]. intros pending i j _ H.
    rewrite emit_statement_eq. blocks_base.
  - intros o. apply keeps_blocks_of; [exact I|]. intros pending i j _ H.
    rewrite emit_statement_eq. apply block_step_emit_return_statement. exact H.
  - apply keeps_blocks_of; [exact I|]. intros pending i j _ H. exact H.
  - intros id dims init l pending i j _ H. rewrite emit_declaration_eq. blocks_base.
  - intros id params body [_ IH] l pending i j H0 H. rewrite emit_declaration_eq.
    cbv beta iota delta [emit_function_definition]. blocks_walk.
  - intros l pending i j _ H. exact H.
Qed.

(** X3.  The lines of a statement, read in order from a state whose block
    counter is not negative: every store to a block slot has a key that no
    earlier store had, every load is from the innermost slot stored to and
    not yet loaded from, and at the end of the statement every slot it
    stored to has been loaded from. *)
Theorem emit_statement_block_slots info nd :
  0 <= block_num info ->
  exists out,
    io (emit_statement info nd) = io info ++ out
    /\ forall open,
         exists next,
           stack_scan (block_num info) open out = Some (next, open)
           /\ next <= block_num (emit_statement info nd).
Proof.
  intros H0.
  destruct (keeps_blocks_emit_statement nd) as [H _].
  destruct (H [] info info H0 (block_step_refl info)) as (_ & out & Hio & Hs).
  exists out. split; [exact Hio|].
  intros open. destruct (Hs (block_num info) open (Z.le_refl _)) as (n & Hn & E).
  exists n. split; [exact E|exact Hn].
Qed.

Lemma emit_statement_block_slots_witness :
  exists out,
    io (emit_statement ex_information ex_nested_blocks)
    = io ex_information ++ out
    /\ forall open,
         exists next,
           stack_scan (block_num ex_information) open out = Some (next, open)
           /\ next <= block_num (emit_statement ex_information ex_nested_blocks).
Proof.
  apply (emit_statement_block_slots ex_information ex_nested_blocks).
  unfold ex_information. cbn [block_num]. lia.
Defined.

(** ** What is used is declared

    The flags of the encoder say what [emit_translation_unit] and
    [builin_functions_declaration] declare.  Every emitter covers what it
    uses: the lines it writes call the stack functions, [@abs] and
    [@llvm.fabs.f64] and the library functions only with their flags set. *)

Lemma line_declared_mono j k l :
  sx k = sx j ->
  (was_stack_functions j = true -> was_stack_functions k = true) ->
  (was_abs j = true -> was_abs k = true) ->
  (was_fabs j = true -> was_fabs k = true) ->
  was_function j ⊆ was_function k ->
  line_declared j l -> line_declared k l.
Proof.
  intros Hsx H1 H2 H3 H4. destruct l; cbn [line_declared]; auto.
  - intros (r & E & Hr). exists r. rewrite Hsx. split; [exact E|].
    intros Hb. apply H4. apply Hr. exact Hb.
  - destruct is_integer; auto.
Qed.

Lemma uses_refl i : uses_step i i.
Proof.
  split; [reflexivity|]. do 3 (split; [auto|]). split; [reflexivity|].
  exists []. split; [symmetry; apply app_nil_r|constructor].
Qed.

Lemma uses_trans i j k : uses_step i j -> uses_step j k -> uses_step i k.
Proof.
  intros (A1 & A2 & A3 & A4 & A5 & o1 & A6 & A7)
         (B1 & B2 & B3 & B4 & B5 & o2 & B6 & B7).
  split; [congruence|]. do 3 (split; [auto|]).
  split; [etrans; eassumption|].
  exists (o1 ++ o2). split.
  - rewrite B6, A6, app_assoc. reflexivity.
  - apply Forall_app. split; [|exact B7].
    eapply Forall_impl; [exact A7|]. intros l.
    apply line_declared_mono; assumption.
Qed.

(** A state that differs from [j] in other fields than the lines, the
    tables and the flags. *)
Lemma uses_frame j k :
  sx k = sx j -> io k = io j ->
  was_stack_functions k = was_stack_functions j ->
  was_abs k = was_abs j -> was_fabs k = was_fabs j ->
  was_function k = was_function j ->
  uses_step j k.
Proof.
  intros H1 H2 H3 H4 H5 H6. split; [exact H1|].
  rewrite H3, H4, H5, H6. do 3 (split; [auto|]). split; [reflexivity|].
  exists []. split; [rewrite H2; symmetry; apply app_nil_r|constructor].
Qed.

Ltac uses_setter :=
  let H := fresh in
  intros H; apply (uses_trans _ _ _ H); apply uses_frame; reflexivity.

Lemma uses_set_system_errors v i j :
  uses_step i j -> uses_step i (set_system_errors v j).
Proof. uses_setter. Qed.

Lemma uses_set_register_num v i j :
  uses_step i j -> uses_step i (set_register_num v j).
Proof. uses_setter. Qed.

Lemma uses_set_label_num v i j :
  uses_step i j -> uses_step i (set_label_num v j).
Proof. uses_setter. Qed.

Lemma uses_set_init_num v i j :
  uses_step i j -> uses_step i (set_init_num v j).
Proof. uses_setter. Qed.

Lemma uses_set_block_num v i j :
  uses_step i j -> uses_step i (set_block_num v j).
Proof. uses_setter. Qed.

Lemma uses_set_request_reg v i j :
  uses_step i j -> uses_step i (set_request_reg v j).
Proof. uses_setter. Qed.

Lemma uses_set_variable_location v i j :
  uses_step i j -> uses_step i (set_variable_location v j).
Proof. uses_setter. Qed.

Lemma uses_set_answer_reg v i j :
  uses_step i j -> uses_step i (set_answer_reg v j).
Proof. uses_setter. Qed.

Lemma uses_set_answer_const v i j :
  uses_step i j -> uses_step i (set_answer_const v j).
Proof. uses_setter. Qed.

Lemma uses_set_answer_string v i j :
  uses_step i j -> uses_step i (set_answer_string v j).
Proof. uses_setter. Qed.

Lemma uses_set_answer_const_double v i j :
  uses_step i j -> uses_step i (set_answer_const_double v j).
Proof. uses_setter. Qed.

Lemma uses_set_answer_kind v i j :
  uses_step i j -> uses_step i (set_answer_kind v j).
Proof. uses_setter. Qed.

Lemma uses_set_label_true v i j :
  uses_step i j -> uses_step i (set_label_true v j).
Proof. uses_setter. Qed.

Lemma uses_set_label_false v i j :
  uses_step i j -> uses_step i (set_label_false v j).
Proof. uses_setter. Qed.

Lemma uses_set_label_break v i j :
  uses_step i j -> uses_step i (set_label_break v j).
Proof. uses_setter. Qed.

Lemma uses_set_label_continue v i j :
  uses_step i j -> uses_step i (set_label_continue v j).
Proof. uses_setter. Qed.

Lemma uses_set_label_ternary_end v i j :
  uses_step i j -> uses_step i (set_label_ternary_end v j).
Proof. uses_setter. Qed.

Lemma uses_set_arrays v i j :
  uses_step i j -> uses_step i (set_arrays v j).
Proof. uses_setter. Qed.

Lemma uses_set_was_dynamic v i j :
  uses_step i j -> uses_step i (set_was_dynamic v j).
Proof. uses_setter. Qed.

Lemma uses_set_was_file v i j :
  uses_step i j -> uses_step i (set_was_file v j).
Proof. uses_setter. Qed.

Lemma uses_set_is_main v i j :
  uses_step i j -> uses_step i (set_is_main v j).
Proof. uses_setter. Qed.

(** Setting a flag. *)
Lemma uses_flag j k :
  sx k = sx j -> io k = io j ->
  (was_stack_functions j = true -> was_stack_functions k = true) ->
  (was_abs j = true -> was_abs k = true) ->
  (was_fabs j = true -> was_fabs k = true) ->
  was_function j ⊆ was_function k ->
  uses_step j k.
Proof.
  intros H1 H2 H3 H4 H5 H6. split; [exact H1|].
  do 3 (split; [assumption|]). split; [exact H6|].
  exists []. split; [rewrite H2; symmetry; apply app_nil_r|constructor].
Qed.

Lemma uses_set_was_stack_functions i j :
  uses_step i j -> uses_step i (set_was_stack_functions true j).
Proof.
  intros H. apply (uses_trans _ _ _ H). apply uses_flag; auto; reflexivity.
Qed.

Lemma uses_set_was_abs i j :
  uses_step i j -> uses_step i (set_was_abs true j).
Proof.
  intros H. apply (uses_trans _ _ _ H). apply uses_flag; auto; reflexivity.
Qed.

Lemma uses_set_was_fabs i j :
  uses_step i j -> uses_step i (set_was_fabs true j).
Proof.
  intros H. apply (uses_trans _ _ _ H). apply uses_flag; auto; reflexivity.
Qed.

Lemma uses_set_was_function r i j :
  uses_step i j ->
  uses_step i (set_was_function ({[ r ]} ∪ was_function j) j).
Proof.
  intros H. apply (uses_trans _ _ _ H). apply uses_flag; auto; try reflexivity.
  cbn [was_function set_was_function]. set_solver.
Qed.

(** A line is written. *)
Lemma uses_write l j :
  line_declared j l -> uses_step j (uni_printf l j).
Proof.
  intros Hl. split; [reflexivity|]. do 3 (split; [auto|]).
  split; [reflexivity|].
  exists [l]. split; [reflexivity|]. constructor; [exact Hl|constructor].
Qed.

Lemma uses_uni_printf l i j :
  line_declared j l -> uses_step i j -> uses_step i (uni_printf l j).
Proof. intros Hl H. apply (uses_trans _ _ _ H). apply uses_write. exact Hl. Qed.

Lemma uses_system_error e i j :
  uses_step i j -> uses_step i (system_error e j).
Proof. apply uses_set_system_errors. Qed.

Lemma uses_type_to_io t i j :
  uses_step i j -> uses_step i (type_to_io j t).
Proof.
  intros H. unfold type_to_io. destruct (type_mentions_file t); [|exact H].
  apply uses_set_was_file. exact H.
Qed.

(** The call of [@abs] and of [@llvm.fabs.f64], once the flag is set. *)
Lemma uses_call_abs r t a i j :
  uses_step i j ->
  uses_step i (uni_printf (I_call_abs r t true a) (set_was_abs true j)).
Proof.
  intros H. apply uses_uni_printf; [reflexivity|].
  apply uses_set_was_abs. exact H.
Qed.

Lemma uses_call_fabs r t a i j :
  uses_step i j ->
  uses_step i (uni_printf (I_call_abs r t false a) (set_was_fabs true j)).
Proof.
  intros H. apply uses_uni_printf; [reflexivity|].
  apply uses_set_was_fabs. exact H.
Qed.

(** The stack is saved and restored with the flag set at the end. *)
Lemma uses_to_code_stack_save i j k :
  uses_step i j -> uses_step i (to_code_stack_save j k).
Proof.
  intros H. apply (uses_trans _ _ _ H).
  split; [reflexivity|]. split; [reflexivity|].
  do 2 (split; [intros E; exact E|]). split; [reflexivity|].
  exists [I_dyn_alloca k; I_stacksave (register_num j);
          I_dyn_store (register_num j) k].
  split; [apply io_to_code_stack_save|].
  repeat constructor.
Qed.

Lemma uses_to_code_stack_load i j k :
  uses_step i j -> uses_step i (to_code_stack_load j k).
Proof.
  intros H. apply (uses_trans _ _ _ H).
  split; [reflexivity|]. split; [reflexivity|].
  do 2 (split; [intros E; exact E|]). split; [reflexivity|].
  exists [I_dyn_load (register_num j) k; I_stackrestore (register_num j)].
  split; [apply io_to_code_stack_load|].
  repeat constructor.
Qed.

Create HintDb uses discriminated.

#[local] Hint Resolve uses_refl uses_uni_printf uses_system_error
  uses_type_to_io
  uses_set_system_errors
  uses_set_register_num
  uses_set_label_num
  uses_set_init_num
  uses_set_block_num
  uses_set_request_reg
  uses_set_variable_location
  uses_set_answer_reg
  uses_set_answer_const
  uses_set_answer_string
  uses_set_answer_const_double
  uses_set_answer_kind
  uses_set_label_true
  uses_set_label_false
  uses_set_label_break
  uses_set_label_continue
  uses_set_label_ternary_end
  uses_set_arrays
  uses_set_was_dynamic
  uses_set_was_file
  uses_set_is_main
  uses_set_was_stack_functions uses_set_was_abs uses_set_was_fabs
  uses_set_was_function uses_call_abs uses_call_fabs
  uses_to_code_stack_save uses_to_code_stack_load
  : uses.

#[local] Hint Extern 1 (line_declared _ _) => exact I : uses.

Ltac uses_auto := auto 400 with uses nocore.

(** A flag that is set is inlined into what follows, where it is needed. *)
Ltac walk_flag :=
  lazymatch goal with
  | |- ?G (let x := set_was_abs true ?j in @?B x) =>
      change (G (B (set_was_abs true j))); cbv beta
  | |- ?G (let x := set_was_fabs true ?j in @?B x) =>
      change (G (B (set_was_fabs true j))); cbv beta
  end.

Ltac uses_solve := rel_solve ltac:(idtac; uses_auto).

Ltac uses_walk :=
  repeat first [ walk_flag | walk_let uses_solve | walk_pair uses_solve
               | walk_branch ];
  try uses_solve.

Lemma uses_to_code_operation_reg_reg i j op a b t :
  uses_step i j -> uses_step i (to_code_operation_reg_reg j op a b t).
Proof. intros H. cbv beta delta [to_code_operation_reg_reg]. uses_walk. Qed.

Lemma uses_to_code_operation_reg_const_integer i j op a b t :
  uses_step i j -> uses_step i (to_code_operation_reg_const_integer j op a b t).
Proof. intros H. cbv beta delta [to_code_operation_reg_const_integer]. uses_walk. Qed.

Lemma uses_to_code_operation_reg_const_double i j op a b :
  uses_step i j -> uses_step i (to_code_operation_reg_const_double j op a b).
Proof. intros H. cbv beta delta [to_code_operation_reg_const_double]. uses_walk. Qed.

Lemma uses_to_code_operation_const_reg_integer i j op a b t :
  uses_step i j -> uses_step i (to_code_operation_const_reg_integer j op a b t).
Proof. intros H. cbv beta delta [to_code_operation_const_reg_integer]. uses_walk. Qed.

Lemma uses_to_code_operation_const_reg_double i j op a b :
  uses_step i j -> uses_step i (to_code_operation_const_reg_double j op a b).
Proof. intros H. cbv beta delta [to_code_operation_const_reg_double]. uses_walk. Qed.

Lemma uses_to_code_operation_reg_null i j op a t :
  uses_step i j -> uses_step i (to_code_operation_reg_null j op a t).
Proof. intros H. cbv beta delta [to_code_operation_reg_null]. uses_walk. Qed.

Lemma uses_to_code_operation_null_reg i j op a t :
  uses_step i j -> uses_step i (to_code_operation_null_reg j op a t).
Proof. intros H. cbv beta delta [to_code_operation_null_reg]. uses_walk. Qed.

Lemma uses_to_code_load i j r id t a l :
  uses_step i j -> uses_step i (to_code_load j r id t a l).
Proof. intros H. cbv beta delta [to_code_load]. uses_walk. Qed.

Lemma uses_to_code_store_reg i j r id t a p l :
  uses_step i j -> uses_step i (to_code_store_reg j r id t a p l).
Proof. intros H. cbv beta delta [to_code_store_reg]. uses_walk. Qed.

Lemma uses_to_code_store_const_integer i j v id a l t :
  uses_step i j -> uses_step i (to_code_store_const_integer j v id a l t).
Proof. intros H. cbv beta delta [to_code_store_const_integer]. uses_walk. Qed.

Lemma uses_to_code_store_const_double i j v id a l :
  uses_step i j -> uses_step i (to_code_store_const_double j v id a l).
Proof. intros H. cbv beta delta [to_code_store_const_double]. uses_walk. Qed.

Lemma uses_to_code_store_null i j id t :
  uses_step i j -> uses_step i (to_code_store_null j id t).
Proof. intros H. cbv beta delta [to_code_store_null]. uses_walk. Qed.

Lemma uses_to_code_try_zext_to i j :
  uses_step i j -> uses_step i (to_code_try_zext_to j).
Proof. intros H. cbv beta delta [to_code_try_zext_to]. uses_walk. Qed.

Lemma uses_to_code_label i j l :
  uses_step i j -> uses_step i (to_code_label j l).
Proof. intros H. cbv beta delta [to_code_label]. uses_walk. Qed.

Lemma uses_to_code_unconditional_branch i j l :
  uses_step i j -> uses_step i (to_code_unconditional_branch j l).
Proof. intros H. cbv beta delta [to_code_unconditional_branch]. uses_walk. Qed.

Lemma uses_to_code_conditional_branch i j :
  uses_step i j -> uses_step i (to_code_conditional_branch j).
Proof. intros H. cbv beta delta [to_code_conditional_branch]. uses_walk. Qed.

Lemma uses_to_code_slice i j id c p t l :
  uses_step i j -> uses_step i (to_code_slice j id c p t l).
Proof. intros H. cbv beta delta [to_code_slice]. uses_walk. Qed.

#[local] Hint Resolve uses_to_code_operation_reg_reg
  uses_to_code_operation_reg_const_integer
  uses_to_code_operation_reg_const_double
  uses_to_code_operation_const_reg_integer
  uses_to_code_operation_const_reg_double
  uses_to_code_operation_reg_null uses_to_code_operation_null_reg
  uses_to_code_load uses_to_code_store_reg uses_to_code_store_const_integer
  uses_to_code_store_const_double uses_to_code_store_null
  uses_to_code_try_zext_to uses_to_code_label
  uses_to_code_unconditional_branch uses_to_code_conditional_branch
  uses_to_code_slice : uses.

Lemma uses_check_type_and_branch i j :
  uses_step i j -> uses_step i (check_type_and_branch j).
Proof. intros H. cbv beta delta [check_type_and_branch]. uses_walk. Qed.

Lemma uses_to_code_alloc_array_static i j index t l :
  uses_step i j -> uses_step i (to_code_alloc_array_static j index t l).
Proof. intros H. cbv beta delta [to_code_alloc_array_static]. uses_walk. Qed.

#[local] Hint Resolve uses_check_type_and_branch
  uses_to_code_alloc_array_static : uses.

Lemma uses_to_code_alloc_array_dynamic i j index t :
  uses_step i j -> uses_step i (to_code_alloc_array_dynamic j index t).
Proof. intros H. cbv beta delta [to_code_alloc_array_dynamic]. uses_walk. Qed.

#[local] Hint Resolve uses_to_code_alloc_array_dynamic : uses.

Lemma uses_call_argument_to_io i j a :
  uses_step i j -> uses_step i (call_argument_to_io j a).
Proof. intros H. cbv beta delta [call_argument_to_io]. uses_walk. Qed.

#[local] Hint Resolve uses_call_argument_to_io : uses.

(** *** Calls: the flag of the callee is set before the arguments *)

Lemma uses_call_step r i j k :
  uses_call r i j -> uses_step j k -> uses_call r i k.
Proof.
  intros [H Hr] Hk. split; [exact (uses_trans _ _ _ H Hk)|].
  intros E. destruct Hk as (_ & _ & _ & _ & Hf & _). apply Hf. apply Hr. exact E.
Qed.

Lemma uses_call_set r i j :
  uses_step i j ->
  uses_call r i (set_was_function ({[ r ]} ∪ was_function j) j).
Proof.
  intros H. split; [apply uses_set_was_function; exact H|].
  intros _. cbn [was_function set_was_function]. set_solver.
Qed.

Lemma uses_call_skip r i j :
  uses_step i j -> (r <? BEGIN_USER_FUNC (sx j)) = false -> uses_call r i j.
Proof.
  intros H E. split; [exact H|]. destruct H as (Hsx & _).
  rewrite <- Hsx, E. discriminate.
Qed.

Lemma uses_call_line r result t args i j :
  uses_call r i j ->
  uses_call r i
    (uni_printf (I_call result t (ident_get_spelling (sx j) r) args) j).
Proof.
  intros [H Hr]. split; [|exact Hr].
  apply uses_uni_printf; [|exact H].
  exists r. split; [reflexivity|]. destruct H as (Hsx & _).
  rewrite Hsx. exact Hr.
Qed.

Ltac call_base :=
  first
    [ assumption
    | solve [apply uses_call_line; assumption]
    | solve [apply uses_call_set; assumption]
    | solve [eapply uses_call_skip; eassumption]
    | match goal with
      | H : uses_call ?r ?i ?j |- uses_call ?r ?i ?E =>
          apply (uses_call_step r i j E H); solve [uses_auto]
      end ].

Ltac call_walk := walk_with ltac:(idtac; rel_solve call_base).

Section UsesExpressions.

Variable f : information -> expr -> information.

Lemma uses_emit_cast_expression t s operand :
  uses_on f operand ->
  forall i j, uses_step i j ->
    uses_step i (emit_cast_expression f j (expr_cast t s operand)).
Proof.
  intros IH i j H. unfold uses_on in IH.
  cbv beta iota delta [emit_cast_expression]. uses_walk.
Qed.

Lemma uses_emit_identifier_expression nd :
  forall i j, uses_step i j -> uses_step i (emit_identifier_expression j nd).
Proof. intros i j H. cbv beta delta [emit_identifier_expression]. uses_walk. Qed.

Lemma uses_emit_literal_expression nd :
  forall i j, uses_step i j -> uses_step i (emit_literal_expression j nd).
Proof. intros i j H. cbv beta delta [emit_literal_expression]. uses_walk. Qed.

Lemma uses_emit_call_expression t callee args :
  Forall (uses_on f) args ->
  forall i j, uses_step i j ->
    uses_step i (emit_call_expression f j (expr_call t callee args)).
Proof.
  intros IH i j H. unfold uses_on in IH.
  cbv beta iota delta [emit_call_expression].
  lazymatch goal with
  | |- ?G (let x := ?E in @?B x) => change (G (B E)); cbv beta
  end.
  destruct (Nat.ltb MAX_FUNCTION_ARGS (length args)); [uses_solve|].
  lazymatch goal with
  | |- uses_step i ?X =>
      enough (Hc : uses_call (expression_identifier_get_id callee) i X)
        by exact (proj1 Hc)
  end.
  call_walk.
Qed.

Lemma uses_emit_member_expression nd :
  forall i j, uses_step i j -> uses_step i (emit_member_expression j nd).
Proof.
  intros i j H. destruct nd; cbv beta iota delta [emit_member_expression];
    try exact H. uses_walk.
Qed.

Lemma uses_slices_subscript t base index :
  uses_slices f base -> uses_on f index -> uses_slices f (expr_subscript t base index).
Proof.
  intros IHbase IHindex id cur i j H. unfold uses_slices, uses_on in *.
  cbn beta iota delta [emit_one_dimension_subscript]. uses_walk.
Qed.

Lemma uses_slices_leaf nd :
  match nd with expr_subscript _ _ _ => False | _ => True end ->
  uses_slices f nd.
Proof.
  intros Hnd id cur i j H. unfold uses_slices.
  destruct nd; try contradiction;
    cbn beta iota delta [emit_one_dimension_subscript]; uses_walk.
Qed.

Lemma uses_emit_subscript_expression nd :
  uses_slices f nd ->
  forall i j, uses_step i j -> uses_step i (emit_subscript_expression f j nd).
Proof.
  intros IH i j H. unfold uses_slices in IH.
  cbv beta iota delta [emit_subscript_expression]. uses_walk.
Qed.

Lemma uses_emit_inc_dec_expression t op operand :
  uses_on f operand ->
  forall i j, uses_step i j ->
    uses_step i (emit_inc_dec_expression f j (expr_unary t op operand)).
Proof.
  intros IH i j H. unfold uses_on in IH.
  cbv beta iota delta [emit_inc_dec_expression]. uses_walk.
Qed.

Lemma uses_emit_unary_expression t op operand :
  uses_on f operand ->
  forall i j, uses_step i j ->
    uses_step i (emit_unary_expression f j (expr_unary t op operand)).
Proof.
  intros IH i j H.
  pose proof (uses_emit_inc_dec_expression t op operand IH) as Hinc.
  unfold uses_on in IH.
  cbv beta iota delta [emit_unary_expression]. uses_walk.
Qed.

Lemma uses_emit_integral_expression t op LHS RHS kind :
  uses_on f LHS -> uses_on f RHS ->
  forall i j, uses_step i j ->
    uses_step i (emit_integral_expression f j (expr_binary t op LHS RHS) kind).
Proof.
  intros IHL IHR i j H. unfold uses_on in *.
  cbv beta iota delta [emit_integral_expression]. uses_walk.
Qed.

Lemma uses_emit_assignment_expression t op LHS RHS :
  uses_on f LHS -> uses_on f RHS ->
  forall i j, uses_step i j ->
    uses_step i (emit_assignment_expression f j (expr_binary t op LHS RHS)).
Proof.
  intros IHL IHR i j H. unfold uses_on in *.
  cbv beta iota delta [emit_assignment_expression]. uses_walk.
Qed.

Lemma uses_emit_binary_expression t op LHS RHS :
  uses_on f LHS -> uses_on f RHS ->
  forall i j, uses_step i j ->
    uses_step i (emit_binary_expression f j (expr_binary t op LHS RHS)).
Proof.
  intros IHL IHR i j H.
  pose proof (uses_emit_integral_expression t op LHS RHS AREG IHL IHR) as Hint1.
  pose proof (uses_emit_integral_expression t op LHS RHS ALOGIC IHL IHR) as Hint2.
  pose proof (uses_emit_assignment_expression t op LHS RHS IHL IHR) as Hass.
  unfold uses_on in *.
  cbv beta iota delta [emit_binary_expression]. uses_walk.
Qed.

Lemma uses_emit_ternary_expression t c LHS RHS :
  uses_on f c -> uses_on f LHS -> uses_on f RHS ->
  forall i j, uses_step i j ->
    uses_step i (emit_ternary_expression f j (expr_ternary t c LHS RHS)).
Proof.
  intros IHc IHL IHR i j H. unfold uses_on in *.
  cbv beta iota delta [emit_ternary_expression]. uses_walk.
Qed.

End UsesExpressions.

(** Every expression covers what it uses. *)
Lemma uses_emit_expression_slices e :
  uses_on emit_expression e /\ uses_slices emit_expression e.
Proof.
  pattern e. apply expr_induction; clear e.
  - split; [intros i j Hq; exact Hq|apply uses_slices_leaf; exact I].
  - intros t id. split; [|apply uses_slices_leaf; exact I].
    intros i j Hq. rewrite emit_expression_eq.
    apply uses_emit_identifier_expression. exact Hq.
  - intros t a. split; [|apply uses_slices_leaf; exact I].
    intros i j Hq. rewrite emit_expression_eq.
    apply uses_emit_literal_expression. exact Hq.
  - intros t base index [_ IHbase] [IHindex _].
    assert (Hs : uses_slices emit_expression (expr_subscript t base index))
      by (apply uses_slices_subscript; assumption).
    split; [|exact Hs].
    intros i j Hq. rewrite emit_expression_eq.
    apply uses_emit_subscript_expression; assumption.
  - intros t callee args _ IHargs. split; [|apply uses_slices_leaf; exact I].
    intros i j Hq. rewrite emit_expression_eq.
    apply uses_emit_call_expression; [|exact Hq].
    eapply Forall_impl; [exact IHargs|]. intros a [Ha _]. exact Ha.
  - intros t base m _. split; [|apply uses_slices_leaf; exact I].
    intros i j Hq. rewrite emit_expression_eq.
    apply uses_emit_member_expression. exact Hq.
  - intros t s operand [IH _]. split; [|apply uses_slices_leaf; exact I].
    intros i j Hq. rewrite emit_expression_eq.
    apply uses_emit_cast_expression; assumption.
  - intros t op operand [IH _]. split; [|apply uses_slices_leaf; exact I].
    intros i j Hq. rewrite emit_expression_eq.
    apply uses_emit_unary_expression; assumption.
  - intros t op LHS RHS [IHL _] [IHR _]. split; [|apply uses_slices_leaf; exact I].
    intros i j Hq. rewrite emit_expression_eq.
    apply uses_emit_binary_expression; assumption.
  - intros t c LHS RHS [IHc _] [IHL _] [IHR _].
    split; [|apply uses_slices_leaf; exact I].
    intros i j Hq. rewrite emit_expression_eq.
    apply uses_emit_ternary_expression; assumption.
  - intros t subexprs _. split; [|apply uses_slices_leaf; exact I].
    intros i j Hq. exact Hq.
  - intros t. split; [|apply uses_slices_leaf; exact I].
    intros i j Hq. exact Hq.
Qed.

Lemma uses_emit_expression e i j :
  uses_step i j -> uses_step i (emit_expression j e).
Proof. apply uses_emit_expression_slices. Qed.

#[local] Hint Resolve uses_emit_expression : uses.



Lemma uses_emit_one_dimension_initialization nd :
  forall id arr_type cur prev is_local i j,
    uses_step i j ->
    uses_step i
      (emit_one_dimension_initialization j nd id arr_type cur prev is_local).
Proof.
  pattern nd. apply expr_induction; clear nd;
    try (intros; cbn beta iota fix delta [emit_one_dimension_initialization];
         assumption).
  intros t subexprs IH id arr_type cur prev is_local i j Hq.
  cbn beta iota fix delta [emit_one_dimension_initialization]. uses_walk.
Qed.

#[local] Hint Resolve uses_emit_one_dimension_initialization : uses.

Lemma uses_emit_initialization nd id arr_type i j :
  uses_step i j -> uses_step i (emit_initialization j nd id arr_type).
Proof. intros H. cbv beta delta [emit_initialization]. uses_walk. Qed.

#[local] Hint Resolve uses_emit_initialization : uses.

Lemma uses_emit_variable_declaration nd is_local i j :
  uses_step i j -> uses_step i (emit_variable_declaration j nd is_local).
Proof.
  intros H. destruct nd; cbv beta iota delta [emit_variable_declaration];
    try exact H.
  uses_walk.
Qed.

#[local] Hint Resolve uses_emit_variable_declaration : uses.

(** *** Statements cover what they use *)

Ltac uses_base :=
  first [ assumption | use_hypothesis | solve [uses_auto] ].

Ltac uses_stmt_walk := 
  repeat first [ walk_flag
               | walk_let ltac:(idtac; rel_solve uses_base)
               | walk_pair ltac:(idtac; rel_solve uses_base)
               | walk_branch ];
  try (rel_solve uses_base).

Lemma uses_emit_compound_statement ss b :
  Forall (fun s => forall i j, uses_step i j ->
                     uses_step i (emit_statement j s)) ss ->
  forall i j, uses_step i j ->
    uses_step i (emit_compound_statement emit_statement j (stmt_compound ss) b).
Proof.
  intros IH i j H. cbv beta iota delta [emit_compound_statement]. uses_stmt_walk.
Qed.

Lemma uses_emit_compound_other nd b i j :
  match nd with stmt_compound _ => False | _ => True end ->
  uses_step i j ->
  uses_step i (emit_compound_statement emit_statement j nd b).
Proof.
  intros Hnd H. destruct nd; try contradiction;
    cbv beta iota delta [emit_compound_statement]; uses_stmt_walk.
Qed.

Lemma uses_emit_return_statement nd i j :
  uses_step i j -> uses_step i (emit_return_statement j nd).
Proof.
  intros H. destruct nd; try exact H.
  cbv beta iota delta [emit_return_statement]. uses_stmt_walk.
Qed.

Lemma keeps_uses_of (s : stmt) :
  match s with stmt_compound _ => False | _ => True end ->
  (forall i j, uses_step i j -> uses_step i (emit_statement j s)) ->
  keeps_uses s.
Proof.
  intros Hs H. split; [exact H|].
  intros b i j Hk. apply uses_emit_compound_other; assumption.
Qed.

Lemma keeps_uses_emit_statement s : keeps_uses s.
Proof.
  pattern s.
  apply (stmt_induction _
           (fun d => forall l i j, uses_step i j ->
                       uses_step i (emit_declaration j d l))); clear s.
  - intros ds IH. apply keeps_uses_of; [exact I|]. intros i j H.
    rewrite emit_statement_eq. cbv beta iota delta [emit_declaration_statement].
    uses_stmt_walk.
  - intros l s [IH _]. apply keeps_uses_of; [exact I|]. intros i j H.
    rewrite emit_statement_eq. cbv beta iota delta [emit_labeled_statement].
    uses_stmt_walk.
  - intros e s _. apply keeps_uses_of; [exact I|]. intros i j H. exact H.
  - intros s _. apply keeps_uses_of; [exact I|]. intros i j H. exact H.
  - intros ss IH.
    assert (IH' : Forall (fun s => forall i j, uses_step i j ->
                            uses_step i (emit_statement j s)) ss).
    { eapply Forall_impl; [exact IH|]. intros a [Ha _]. exact Ha. }
    split.
    + intros i j H. rewrite emit_statement_eq.
      apply uses_emit_compound_statement; assumption.
    + intros b i j H. apply uses_emit_compound_statement; assumption.
  - intros e. apply keeps_uses_of; [exact I|]. intros i j H.
    rewrite emit_statement_eq. uses_base.
  - apply keeps_uses_of; [exact I|]. intros i j H. exact H.
  - intros c s [IH _] o IHo. apply keeps_uses_of; [exact I|]. intros i j H.
    rewrite emit_statement_eq. cbv beta iota delta [emit_if_statement].
    destruct o as [s'|]; [destruct IHo as [IHo _]|]; uses_stmt_walk.
  - intros c s _. apply keeps_uses_of; [exact I|]. intros i j H. exact H.
  - intros c s [IH _]. apply keeps_uses_of; [exact I|]. intros i j H.
    rewrite emit_statement_eq. cbv beta iota delta [emit_while_statement].
    uses_stmt_walk.
  - intros s c [IH _]. apply keeps_uses_of; [exact I|]. intros i j H.
    rewrite emit_statement_eq. cbv beta iota delta [emit_do_statement].
    uses_stmt_walk.
  - intros o c n s IHo [IH _]. apply keeps_uses_of; [exact I|]. intros i j H.
    rewrite emit_statement_eq. cbv beta iota delta [emit_for_statement].
    destruct o as [s'|]; [destruct IHo as [IHo _]|]; uses_stmt_walk.
  - intros l. apply keeps_uses_of; [exact I|]. intros i j H.
    rewrite emit_statement_eq. uses_base.
  - apply keeps_uses_of; [exact I|]. intros i j H.
    rewrite emit_statement_eq. uses_base.
  - apply keeps_uses_of; [exact I|]. intros i j H.
    rewrite emit_statement_eq. uses_base.
  - intros o. apply keeps_uses_of; [exact I|]. intros i j H.
    rewrite emit_statement_eq. apply uses_emit_return_statement. exact H.
  - apply keeps_uses_of; [exact I|]. intros i j H. exact H.
  - intros id dims init l i j H. rewrite emit_declaration_eq. uses_base.
  - intros id params body [_ IH] l i j H. rewrite emit_declaration_eq.
    cbv beta iota delta [emit_function_definition]. uses_stmt_walk.
  - intros l i j H. exact H.
Qed.

Lemma uses_emit_declaration d is_local i j :
  uses_step i j -> uses_step i (emit_declaration j d is_local).
Proof.
  destruct d as [id dims init|id params body|].
  - rewrite emit_declaration_eq. uses_base.
  - intros H. rewrite emit_declaration_eq.
    destruct (keeps_uses_emit_statement body) as [_ IH].
    cbv beta iota delta [emit_function_definition]. uses_stmt_walk.
  - intros H. exact H.
Qed.

(** X11.  Whatever the statement and the state, the lines written for the
    statement are covered by the flags of the state it leaves: a line that
    calls [@llvm.stacksave] or [@llvm.stackrestore] comes with
    [was_stack_functions], a call of [@abs] with [was_abs], a call of
    [@llvm.fabs.f64] with [was_fabs], and every call is the call of an
    identifier of that spelling whose entry of [was_function] is set if it
    is a library function. *)
Theorem emit_statement_covers info nd :
  exists out,
    io (emit_statement info nd) = io info ++ out
    /\ Forall (line_declared (emit_statement info nd)) out.
Proof.
  destruct (keeps_uses_emit_statement nd) as [H _].
  destruct (H info info (uses_refl info)) as (_ & _ & _ & _ & _ & out & Hout).
  exists out. exact Hout.
Qed.

(** X12.  Every instruction of a translation unit that calls
    [@llvm.stacksave], [@llvm.stackrestore], [@abs] or [@llvm.fabs.f64] has
    its declaration among the lines that [emit_translation_unit] writes
    after the unit, whatever the flags were at the start. *)
Theorem emit_translation_unit_declares info nd :
  exists out,
    io (fst (emit_translation_unit info nd)) = io info ++ out
    /\ Forall (unit_declares (snd (emit_translation_unit info nd))) out.
Proof.
  unfold emit_translation_unit.
  assert (H : uses_step info
                (fold_left (fun info decl => emit_declaration info decl false)
                   nd info)).
  { apply (fold_left_rel (uses_step info)); [|apply uses_refl].
    intros j a _ Hj. apply uses_emit_declaration. exact Hj. }
  set (j := fold_left _ nd info) in *. cbv zeta. cbn [fst snd].
  destruct H as (_ & _ & _ & _ & _ & out & Hio & Hout).
  exists out. split; [exact Hio|].
  eapply Forall_impl; [exact Hout|]. intros l Hl.
  destruct l; try exact I; cbn [line_declared unit_declares] in *;
    try (destruct is_integer);
    rewrite Hl; destruct (was_stack_functions j), (was_file j), (was_abs j),
      (was_fabs j); try discriminate; cbn [app]; solve [repeat constructor].
Qed.

(** ** Blocks and the exits out of them *)

Lemma quiet_function_slot l : quiet_line l -> function_slot l.
Proof. destruct l; cbn; auto. Qed.

Lemma exit_step_refl i : exit_step i i.
Proof. exists []. split; [symmetry; apply app_nil_r|constructor]. Qed.

Lemma exit_step_quiet i j k : exit_step i j -> quiet_step j k -> exit_step i k.
Proof.
  intros (o1 & A1 & A2) (_ & _ & _ & _ & _ & o2 & B1 & B2).
  exists (o1 ++ o2). split.
  - rewrite B1, A1, app_assoc. reflexivity.
  - apply Forall_app. split; [exact A2|].
    eapply Forall_impl; [exact B2|]. apply quiet_function_slot.
Qed.

Lemma exit_step_uni_printf l i j :
  function_slot l -> exit_step i j -> exit_step i (uni_printf l j).
Proof.
  intros Hl (o & A1 & A2). exists (o ++ [l]). split.
  - cbn. rewrite A1, app_assoc. reflexivity.
  - apply Forall_app. split; [exact A2|]. constructor; [exact Hl|constructor].
Qed.

Ltac exit_base :=
  first
    [ assumption
    | match goal with
      | H : exit_step ?i ?j |- exit_step ?i ?E =>
          first
            [ apply (exit_step_quiet i j E H); solve [quiet_auto]
            | apply exit_step_uni_printf; [exact I|exact H] ]
      end ].

Lemma exit_step_emit_return_statement nd i j :
  exit_step i j -> exit_step i (emit_return_statement j nd).
Proof.
  intros H. destruct nd; try exact H.
  cbv beta iota delta [emit_return_statement].
  walk_with ltac:(idtac; rel_solve exit_base).
Qed.

(** C1 (as amended).  A block that is no function body, emitted from a
    state whose block counter [b] is not negative: the stack is saved in
    slot [b] at entry, the counter having taken its next value, and
    restored from slot [b] after the last statement of the block; the
    lines in between are those of the statements of the block, which use
    the slots of inner blocks only, of keys above [b], and close them in
    order.  An exit out of the block before its end restores no slot of a
    block: [break] and [continue] write their branch only, and the lines
    of a [return] touch no slot but the function-wide one. *)
Theorem emit_compound_statement_balance info ss :
  0 <= block_num info ->
  (exists body r,
     io (emit_statement info (stmt_compound ss))
     = io info
       ++ [I_dyn_alloca (block_num info); I_stacksave (register_num info);
           I_dyn_store (register_num info) (block_num info)]
       ++ body
       ++ [I_dyn_load r (block_num info); I_stackrestore r]
     /\ forall open,
          exists next,
            stack_scan (block_num info + 1) open body = Some (next, open))
  /\ (forall j, io (emit_statement j stmt_break) = io j ++ [I_br (label_break j)])
  /\ (forall j,
        io (emit_statement j stmt_continue) = io j ++ [I_br (label_continue j)])
  /\ (forall j e,
        exists out,
          io (emit_statement j (stmt_return e)) = io j ++ out
          /\ Forall function_slot out).
Proof.
  intros H0. split; [|split; [|split]].
  - set (j1 := to_code_stack_save (set_block_num (block_num info + 1) info)
                 (block_num info)).
    assert (Hb : block_num j1 = block_num info + 1) by reflexivity.
    assert (Hbody : block_step [] j1 (fold_left emit_statement ss j1)).
    { apply (fold_left_rel (block_step [] j1)); [|apply block_step_refl].
      intros j a _ Hj. destruct (keeps_blocks_emit_statement a) as [Ha _].
      apply Ha; [lia|exact Hj]. }
    destruct Hbody as (_ & body & Hio & Hscan).
    exists body, (register_num (fold_left emit_statement ss j1)). split.
    + rewrite emit_statement_eq.
      change (emit_compound_statement emit_statement info (stmt_compound ss) false)
        with (to_code_stack_load (fold_left emit_statement ss j1) (block_num info)).
      rewrite io_to_code_stack_load, Hio. unfold j1.
      rewrite io_to_code_stack_save. cbn [io set_block_num register_num].
      rewrite <- !app_assoc. reflexivity.
    + intros open. destruct (Hscan (block_num info + 1) open) as (n & _ & E);
        [lia|]. exists n. exact E.
  - intros j. reflexivity.
  - intros j. reflexivity.
  - intros j e. rewrite emit_statement_eq.
    apply (exit_step_emit_return_statement (stmt_return e) j j).
    apply exit_step_refl.
Qed.

Lemma emit_compound_statement_balance_witness :
  (exists body r,
     io (emit_statement ex_information
           (stmt_compound [stmt_compound [stmt_break]; stmt_return None]))
     = io ex_information
       ++ [I_dyn_alloca (block_num ex_information);
           I_stacksave (register_num ex_information);
           I_dyn_store (register_num ex_information) (block_num ex_information)]
       ++ body
       ++ [I_dyn_load r (block_num ex_information); I_stackrestore r]
     /\ forall open,
          exists next,
            stack_scan (block_num ex_information + 1) open body
            = Some (next, open))
  /\ (forall j, io (emit_statement j stmt_break) = io j ++ [I_br (label_break j)])
  /\ (forall j,
        io (emit_statement j stmt_continue) = io j ++ [I_br (label_continue j)])
  /\ (forall j e,
        exists out,
          io (emit_statement j (stmt_return e)) = io j ++ out
          /\ Forall function_slot out).
Proof.
  apply (emit_compound_statement_balance ex_information
           [stmt_compound [stmt_break]; stmt_return None]).
  unfold ex_information. cbn [block_num]. lia.
Defined.

(** C1, as stated, fails on the blocks [{ return; }] and [{ break; }]:
    where the return instruction and the branch are written, slot 1 of
    the block has been stored to and is still open; the lines that restore
    it come after them. *)
Lemma emit_compound_statement_exit_unbalanced :
  io (emit_statement ex_information (stmt_compound [stmt_return None]))
  = [I_dyn_alloca 1; I_stacksave 1; I_dyn_store 1 1]
    ++ I_ret_void :: [I_dyn_load 2 1; I_stackrestore 2]
  /\ io (emit_statement ex_information (stmt_compound [stmt_break]))
     = [I_dyn_alloca 1; I_stacksave 1; I_dyn_store 1 1]
       ++ I_br 0 :: [I_dyn_load 2 1; I_stackrestore 2]
  /\ stack_scan 1 [] [I_dyn_alloca 1; I_stacksave 1; I_dyn_store 1 1]
     = Some (2, [1]).
Proof. repeat split; vm_compute; reflexivity. Qed.

(** ** The labels are fresh *)

Section LabelSteps.

Variable U : list item_t.
Variable C : item_t -> Prop.
Variable lo : item_t.

Lemma label_ok_mono hi hi' k : hi <= hi' -> label_ok C lo hi k -> label_ok C lo hi' k.
Proof. intros Hh [H|H]; [left; exact H|right; lia]. Qed.

Lemma label_placed_mono hi hi' k :
  hi <= hi' -> label_placed U lo hi k -> label_placed U lo hi' k.
Proof. intros Hh [H|H]; [left; lia|right; exact H]. Qed.

Lemma label_used_mono hi hi' k :
  hi <= hi' -> label_used U C lo hi k -> label_used U C lo hi' k.
Proof. intros Hh [H|H]; [left; lia|right; exact H]. Qed.

Lemma labels_within_mono hi hi' l :
  hi <= hi' -> labels_within U C lo hi l -> labels_within U C lo hi' l.
Proof.
  intros Hh. destruct l; cbn [labels_within]; auto.
  - apply label_placed_mono. exact Hh.
  - apply label_used_mono. exact Hh.
  - intros [Ha Hb]. split; eapply label_used_mono; eassumption.
Qed.

Lemma label_step_bounds m i j :
  label_step U C lo m i j -> lo <= m /\ m <= label_num j.
Proof. intros (H1 & H2 & _). split; assumption. Qed.

Lemma label_step_context m i j :
  label_step U C lo m i j ->
  label_ok C lo (label_num j) (label_true j)
  /\ label_ok C lo (label_num j) (label_false j)
  /\ label_ok C lo (label_num j) (label_break j)
  /\ label_ok C lo (label_num j) (label_continue j).
Proof. intros (_ & _ & H3 & H4 & H5 & H6 & _). repeat split; assumption. Qed.

Lemma label_step_weaken m m' i j :
  lo <= m -> m <= m' -> label_step U C lo m' i j -> label_step U C lo m i j.
Proof.
  intros H1 H2 (_ & H3 & H). split; [exact H1|]. split; [lia|exact H].
Qed.

Lemma label_step_tighten m i j :
  label_step U C lo m i j -> label_step U C lo (label_num j) i j.
Proof.
  intros (H1 & H2 & H). split; [lia|]. split; [lia|exact H].
Qed.

(** The first state of a walk. *)
Lemma label_step_start m i j :
  io j = io i -> lo <= m -> m <= label_num j ->
  label_ok C lo (label_num j) (label_true j) ->
  label_ok C lo (label_num j) (label_false j) ->
  label_ok C lo (label_num j) (label_break j) ->
  label_ok C lo (label_num j) (label_continue j) ->
  label_step U C lo m i j.
Proof.
  intros H0 H1 H2 H3 H4 H5 H6. repeat (split; [assumption|]).
  exists []. split; [rewrite H0; symmetry; apply app_nil_r|constructor].
Qed.

(** A state that differs from [j] in other fields than the lines and the
    labels. *)
Lemma label_step_frame m i j k :
  io k = io j -> label_num k = label_num j ->
  label_true k = label_true j -> label_false k = label_false j ->
  label_break k = label_break j -> label_continue k = label_continue j ->
  label_step U C lo m i j -> label_step U C lo m i k.
Proof.
  intros E1 E2 E3 E4 E5 E6 H. unfold label_step.
  rewrite E1, E2, E3, E4, E5, E6. exact H.
Qed.

Ltac label_setter :=
  let H := fresh in
  intros H; apply (label_step_frame _ _ _ _) with (7 := H); reflexivity.

Lemma label_set_system_errors v m i j :
  label_step U C lo m i j -> label_step U C lo m i (set_system_errors v j).
Proof. label_setter. Qed.

Lemma label_set_register_num v m i j :
  label_step U C lo m i j -> label_step U C lo m i (set_register_num v j).
Proof. label_setter. Qed.

Lemma label_set_init_num v m i j :
  label_step U C lo m i j -> label_step U C lo m i (set_init_num v j).
Proof. label_setter. Qed.

Lemma label_set_block_num v m i j :
  label_step U C lo m i j -> label_step U C lo m i (set_block_num v j).
Proof. label_setter. Qed.

Lemma label_set_request_reg v m i j :
  label_step U C lo m i j -> label_step U C lo m i (set_request_reg v j).
Proof. label_setter. Qed.

Lemma label_set_variable_location v m i j :
  label_step U C lo m i j -> label_step U C lo m i (set_variable_location v j).
Proof. label_setter. Qed.

Lemma label_set_answer_reg v m i j :
  label_step U C lo m i j -> label_step U C lo m i (set_answer_reg v j).
Proof. label_setter. Qed.

Lemma label_set_answer_const v m i j :
  label_step U C lo m i j -> label_step U C lo m i (set_answer_const v j).
Proof. label_setter. Qed.

Lemma label_set_answer_string v m i j :
  label_step U C lo m i j -> label_step U C lo m i (set_answer_string v j).
Proof. label_setter. Qed.

Lemma label_set_answer_const_double v m i j :
  label_step U C lo m i j -> label_step U C lo m i (set_answer_const_double v j).
Proof. label_setter. Qed.

Lemma label_set_answer_kind v m i j :
  label_step U C lo m i j -> label_step U C lo m i (set_answer_kind v j).
Proof. label_setter. Qed.

Lemma label_set_label_ternary_end v m i j :
  label_step U C lo m i j -> label_step U C lo m i (set_label_ternary_end v j).
Proof. label_setter. Qed.

Lemma label_set_arrays v m i j :
  label_step U C lo m i j -> label_step U C lo m i (set_arrays v j).
Proof. label_setter. Qed.

Lemma label_set_was_stack_functions v m i j :
  label_step U C lo m i j -> label_step U C lo m i (set_was_stack_functions v j).
Proof. label_setter. Qed.

Lemma label_set_was_dynamic v m i j :
  label_step U C lo m i j -> label_step U C lo m i (set_was_dynamic v j).
Proof. label_setter. Qed.

Lemma label_set_was_file v m i j :
  label_step U C lo m i j -> label_step U C lo m i (set_was_file v j).
Proof. label_setter. Qed.

Lemma label_set_was_abs v m i j :
  label_step U C lo m i j -> label_step U C lo m i (set_was_abs v j).
Proof. label_setter. Qed.

Lemma label_set_was_fabs v m i j :
  label_step U C lo m i j -> label_step U C lo m i (set_was_fabs v j).
Proof. label_setter. Qed.

Lemma label_set_was_function v m i j :
  label_step U C lo m i j -> label_step U C lo m i (set_was_function v j).
Proof. label_setter. Qed.

Lemma label_set_is_main v m i j :
  label_step U C lo m i j -> label_step U C lo m i (set_is_main v j).
Proof. label_setter. Qed.

(** Labels are taken from the counter. *)
Lemma label_set_label_num n m i j :
  0 <= n -> label_step U C lo m i j ->
  label_step U C lo (label_num j + n) i (set_label_num (label_num j + n) j).
Proof.
  intros Hn (H1 & H2 & H3 & H4 & H5 & H6 & out & E & H).
  unfold label_step.
  cbn [label_num label_true label_false label_break label_continue io
       set_label_num].
  split; [lia|]. split; [lia|].
  do 4 (split; [eapply label_ok_mono; [|eassumption]; lia|]).
  exists out. split; [exact E|].
  eapply Forall_impl; [exact H|]. intros l. apply labels_within_mono. lia.
Qed.

(** The labels of the context are set to labels within bounds. *)
Lemma label_set_label_true v m i j :
  label_ok C lo m v -> label_step U C lo m i j ->
  label_step U C lo m i (set_label_true v j).
Proof.
  intros Hv (H1 & H2 & H3 & H4 & H5 & H6 & H).
  repeat (split; [assumption|]). split; [|split; [exact H4|split; [exact H5|split; [exact H6|exact H]]]].
  eapply label_ok_mono; [|exact Hv]. exact H2.
Qed.

Lemma label_set_label_false v m i j :
  label_ok C lo m v -> label_step U C lo m i j ->
  label_step U C lo m i (set_label_false v j).
Proof.
  intros Hv (H1 & H2 & H3 & H4 & H5 & H6 & H).
  split; [exact H1|]. split; [exact H2|]. split; [exact H3|].
  split; [|split; [exact H5|split; [exact H6|exact H]]].
  eapply label_ok_mono; [|exact Hv]. exact H2.
Qed.

Lemma label_set_label_break v m i j :
  label_ok C lo m v -> label_step U C lo m i j ->
  label_step U C lo m i (set_label_break v j).
Proof.
  intros Hv (H1 & H2 & H3 & H4 & H5 & H6 & H).
  split; [exact H1|]. split; [exact H2|]. split; [exact H3|].
  split; [exact H4|]. split; [|split; [exact H6|exact H]].
  eapply label_ok_mono; [|exact Hv]. exact H2.
Qed.

Lemma label_set_label_continue v m i j :
  label_ok C lo m v -> label_step U C lo m i j ->
  label_step U C lo m i (set_label_continue v j).
Proof.
  intros Hv (H1 & H2 & H3 & H4 & H5 & H6 & H).
  split; [exact H1|]. split; [exact H2|]. split; [exact H3|].
  split; [exact H4|]. split; [exact H5|]. split; [|exact H].
  eapply label_ok_mono; [|exact Hv]. exact H2.
Qed.

Lemma label_uni_printf l m i j :
  labels_within U C lo m l -> label_step U C lo m i j ->
  label_step U C lo m i (uni_printf l j).
Proof.
  intros Hl (H1 & H2 & H3 & H4 & H5 & H6 & out & E & H).
  do 6 (split; [assumption|]).
  exists (out ++ [l]). split.
  - cbn. rewrite E, app_assoc. reflexivity.
  - apply Forall_app. split; [exact H|].
    constructor; [|constructor].
    eapply labels_within_mono; [|exact Hl]. exact H2.
Qed.

Lemma label_to_code_label m i j k :
  label_placed U lo m k -> label_step U C lo m i j ->
  label_step U C lo m i (to_code_label j k).
Proof. intros Hk. apply label_uni_printf. exact Hk. Qed.

Lemma label_to_code_unconditional_branch m i j k :
  label_used U C lo m k -> label_step U C lo m i j ->
  label_step U C lo m i (to_code_unconditional_branch j k).
Proof. intros Hk. apply label_uni_printf. exact Hk. Qed.

Lemma label_used_context hi k :
  label_ok C lo hi k -> label_used U C lo hi k.
Proof. unfold label_ok, label_used. intros [H|H]; auto. Qed.

(** A branch to a label of the context *)
Lemma label_branch_context m i j k :
  label_ok C lo (label_num j) k -> label_step U C lo m i j ->
  label_step U C lo m i (to_code_unconditional_branch j k).
Proof.
  intros Hk H. pose proof (label_step_bounds _ _ _ H) as [Hlo Hm].
  apply (label_step_weaken m (label_num j)); [exact Hlo|exact Hm|].
  apply label_to_code_unconditional_branch.
  - apply label_used_context. exact Hk.
  - apply (label_step_tighten m). exact H.
Qed.

Lemma label_to_code_unconditional_branch_true m i j :
  label_step U C lo m i j ->
  label_step U C lo m i (to_code_unconditional_branch j (label_true j)).
Proof. intros H. apply label_branch_context; [|exact H]. apply (label_step_context m i j H). Qed.

Lemma label_to_code_unconditional_branch_false m i j :
  label_step U C lo m i j ->
  label_step U C lo m i (to_code_unconditional_branch j (label_false j)).
Proof. intros H. apply label_branch_context; [|exact H]. apply (label_step_context m i j H). Qed.

Lemma label_to_code_unconditional_branch_break m i j :
  label_step U C lo m i j ->
  label_step U C lo m i (to_code_unconditional_branch j (label_break j)).
Proof. intros H. apply label_branch_context; [|exact H]. apply (label_step_context m i j H). Qed.

Lemma label_to_code_unconditional_branch_continue m i j :
  label_step U C lo m i j ->
  label_step U C lo m i (to_code_unconditional_branch j (label_continue j)).
Proof. intros H. apply label_branch_context; [|exact H]. apply (label_step_context m i j H). Qed.

Lemma label_to_code_conditional_branch m i j :
  label_step U C lo m i j ->
  label_step U C lo m i (to_code_conditional_branch j).
Proof.
  intros H. pose proof (label_step_bounds _ _ _ H) as [Hlo Hm].
  pose proof (label_step_context _ _ _ H) as (HT & HF & _).
  apply (label_step_weaken m (label_num j)); [exact Hlo|exact Hm|].
  apply label_uni_printf; [|apply (label_step_tighten m); exact H].
  split; apply label_used_context; assumption.
Qed.

Lemma label_system_error e m i j :
  label_step U C lo m i j -> label_step U C lo m i (system_error e j).
Proof. apply label_set_system_errors. Qed.

Lemma label_type_to_io t m i j :
  label_step U C lo m i j -> label_step U C lo m i (type_to_io j t).
Proof.
  intros H. unfold type_to_io. destruct (type_mentions_file t); [|exact H].
  apply label_set_was_file. exact H.
Qed.

End LabelSteps.

Create HintDb labels discriminated.

#[local] Hint Resolve label_uni_printf label_system_error
  label_type_to_io
  label_set_system_errors
  label_set_register_num
  label_set_init_num
  label_set_block_num
  label_set_request_reg
  label_set_variable_location
  label_set_answer_reg
  label_set_answer_const
  label_set_answer_string
  label_set_answer_const_double
  label_set_answer_kind
  label_set_label_true
  label_set_label_false
  label_set_label_break
  label_set_label_continue
  label_set_label_ternary_end
  label_set_arrays
  label_set_was_stack_functions
  label_set_was_dynamic
  label_set_was_file
  label_set_was_abs
  label_set_was_fabs
  label_set_was_function
  label_set_is_main
  label_to_code_label
  label_to_code_unconditional_branch_true
  label_to_code_unconditional_branch_false
  label_to_code_unconditional_branch_break
  label_to_code_unconditional_branch_continue
  label_to_code_unconditional_branch
  label_to_code_conditional_branch
  : labels.

Ltac label_side_search :=
  first
    [ lia
    | assumption
    | match goal with
      | |- _ /\ _ => split; label_side_search
      | |- _ \/ _ =>
          first [ solve [left; label_side_search]
                | solve [right; label_side_search] ]
      end ].

Ltac label_side :=
  unfold label_placed, label_used, label_ok;
  cbn [label_num label_true label_false label_break label_continue
       set_label_num];
  first
    [ solve [label_side_search]
    | match goal with
      | H : _ \/ _ |- _ => destruct H; solve [label_side_search]
      end ].

#[local] Hint Extern 1 (labels_within _ _ _ _ _) => exact I : labels.
#[local] Hint Extern 1 (label_placed _ _ _ _) =>
  solve [label_side] : labels.
#[local] Hint Extern 1 (label_used _ _ _ _ _) =>
  solve [label_side] : labels.
#[local] Hint Extern 1 (label_ok _ _ _ _) =>
  solve [label_side] : labels.

#[local] Hint Extern 1 (label_step _ _ _ _ _ (set_label_num _ _)) =>
  eapply label_set_label_num; [lia|eassumption] : labels.

Ltac label_auto := auto 400 with labels nocore.

(** The state in which labels were taken from the counter is inlined into
    what follows. *)
Ltac walk_counter :=
  lazymatch goal with
  | |- ?G (let x := set_label_num ?v ?j in @?B x) =>
      change (G (B (set_label_num v j))); cbv beta
  end.

Ltac label_base :=
  first [ assumption | solve [label_auto] | use_hypothesis ].

Ltac label_solve := rel_solve label_base.

Ltac label_walk :=
  repeat first [ walk_counter | walk_let label_solve | walk_pair label_solve
               | walk_branch ];
  try label_solve.

(** The walk through an emitter that sets labels of the context starts
    from the counter of the entry state, of which [n] labels are taken. *)
Ltac label_facts :=
  match goal with
  | H : label_step ?U ?C ?lo ?m ?i ?j |- label_step ?U ?C ?lo ?m ?i _ =>
      let HT := fresh "HT" in
      let HF := fresh "HF" in
      let HB := fresh "HB" in
      let HC := fresh "HC" in
      let Hlo := fresh "Hlo" in
      let Hm := fresh "Hm" in
      pose proof (label_step_context U C lo m i j H) as (HT & HF & HB & HC);
      pose proof (label_step_bounds U C lo m i j H) as [Hlo Hm];
      unfold label_ok in HT, HF, HB, HC
  end.

Ltac label_enter :=
  label_facts;
  match goal with
  | H : label_step ?U ?C ?lo ?m ?i ?j |- label_step ?U ?C ?lo ?m ?i _ =>
      apply (label_step_weaken U C lo m (label_num j)); [lia|lia|];
      apply label_step_tighten in H
  end.

Ltac label_alloc n :=
  label_facts;
  match goal with
  | H : label_step ?U ?C ?lo ?m ?i ?j |- label_step ?U ?C ?lo ?m ?i _ =>
      apply (label_step_weaken U C lo m (label_num j + n)); [lia|lia|];
      apply label_step_tighten in H
  end.

Lemma label_to_code_operation_reg_reg U C lo m i j op a b t :
  label_step U C lo m i j -> label_step U C lo m i (to_code_operation_reg_reg j op a b t).
Proof. intros H. cbv beta delta [to_code_operation_reg_reg]. label_walk. Qed.

Lemma label_to_code_operation_reg_const_integer U C lo m i j op a b t :
  label_step U C lo m i j -> label_step U C lo m i (to_code_operation_reg_const_integer j op a b t).
Proof. intros H. cbv beta delta [to_code_operation_reg_const_integer]. label_walk. Qed.

Lemma label_to_code_operation_reg_const_double U C lo m i j op a b :
  label_step U C lo m i j -> label_step U C lo m i (to_code_operation_reg_const_double j op a b).
Proof. intros H. cbv beta delta [to_code_operation_reg_const_double]. label_walk. Qed.

Lemma label_to_code_operation_const_reg_integer U C lo m i j op a b t :
  label_step U C lo m i j -> label_step U C lo m i (to_code_operation_const_reg_integer j op a b t).
Proof. intros H. cbv beta delta [to_code_operation_const_reg_integer]. label_walk. Qed.

Lemma label_to_code_operation_const_reg_double U C lo m i j op a b :
  label_step U C lo m i j -> label_step U C lo m i (to_code_operation_const_reg_double j op a b).
Proof. intros H. cbv beta delta [to_code_operation_const_reg_double]. label_walk. Qed.

Lemma label_to_code_operation_reg_null U C lo m i j op a t :
  label_step U C lo m i j -> label_step U C lo m i (to_code_operation_reg_null j op a t).
Proof. intros H. cbv beta delta [to_code_operation_reg_null]. label_walk. Qed.

Lemma label_to_code_operation_null_reg U C lo m i j op a t :
  label_step U C lo m i j -> label_step U C lo m i (to_code_operation_null_reg j op a t).
Proof. intros H. cbv beta delta [to_code_operation_null_reg]. label_walk. Qed.

Lemma label_to_code_load U C lo m i j r id t a l :
  label_step U C lo m i j -> label_step U C lo m i (to_code_load j r id t a l).
Proof. intros H. cbv beta delta [to_code_load]. label_walk. Qed.

Lemma label_to_code_store_reg U C lo m i j r id t a p l :
  label_step U C lo m i j -> label_step U C lo m i (to_code_store_reg j r id t a p l).
Proof. intros H. cbv beta delta [to_code_store_reg]. label_walk. Qed.

Lemma label_to_code_store_const_integer U C lo m i j v id a l t :
  label_step U C lo m i j -> label_step U C lo m i (to_code_store_const_integer j v id a l t).
Proof. intros H. cbv beta delta [to_code_store_const_integer]. label_walk. Qed.

Lemma label_to_code_store_const_double U C lo m i j v id a l :
  label_step U C lo m i j -> label_step U C lo m i (to_code_store_const_double j v id a l).
Proof. intros H. cbv beta delta [to_code_store_const_double]. label_walk. Qed.

Lemma label_to_code_store_null U C lo m i j id t :
  label_step U C lo m i j -> label_step U C lo m i (to_code_store_null j id t).
Proof. intros H. cbv beta delta [to_code_store_null]. label_walk. Qed.

Lemma label_to_code_try_zext_to U C lo m i j :
  label_step U C lo m i j -> label_step U C lo m i (to_code_try_zext_to j).
Proof. intros H. cbv beta delta [to_code_try_zext_to]. label_walk. Qed.

Lemma label_to_code_slice U C lo m i j id c p t l :
  label_step U C lo m i j -> label_step U C lo m i (to_code_slice j id c p t l).
Proof. intros H. cbv beta delta [to_code_slice]. label_walk. Qed.

#[local] Hint Resolve label_to_code_operation_reg_reg
  label_to_code_operation_reg_const_integer
  label_to_code_operation_reg_const_double
  label_to_code_operation_const_reg_integer
  label_to_code_operation_const_reg_double
  label_to_code_operation_reg_null label_to_code_operation_null_reg
  label_to_code_load label_to_code_store_reg label_to_code_store_const_integer
  label_to_code_store_const_double label_to_code_store_null
  label_to_code_try_zext_to label_to_code_slice : labels.

Lemma label_to_code_stack_save U C lo m i j k :
  label_step U C lo m i j -> label_step U C lo m i (to_code_stack_save j k).
Proof. intros H. cbv beta delta [to_code_stack_save]. label_walk. Qed.

Lemma label_to_code_stack_load U C lo m i j k :
  label_step U C lo m i j -> label_step U C lo m i (to_code_stack_load j k).
Proof. intros H. cbv beta delta [to_code_stack_load]. label_walk. Qed.

Lemma label_to_code_alloc_array_static U C lo m i j index t l :
  label_step U C lo m i j -> label_step U C lo m i (to_code_alloc_array_static j index t l).
Proof. intros H. cbv beta delta [to_code_alloc_array_static]. label_walk. Qed.

Lemma label_check_type_and_branch U C lo m i j :
  label_step U C lo m i j -> label_step U C lo m i (check_type_and_branch j).
Proof.
  intros H. cbv beta delta [check_type_and_branch].
  destruct (answer_kind j); try exact H; try solve [label_walk].
  destruct (answer_const j =? 0); label_auto.
Qed.

#[local] Hint Resolve label_check_type_and_branch
  label_to_code_stack_save label_to_code_stack_load
  label_to_code_alloc_array_static : labels.

Lemma label_to_code_alloc_array_dynamic U C lo m i j index t :
  label_step U C lo m i j -> label_step U C lo m i (to_code_alloc_array_dynamic j index t).
Proof. intros H. cbv beta delta [to_code_alloc_array_dynamic]. label_walk. Qed.

#[local] Hint Resolve label_to_code_alloc_array_dynamic : labels.

Lemma label_call_argument_to_io U C lo m i j a :
  label_step U C lo m i j -> label_step U C lo m i (call_argument_to_io j a).
Proof. intros H. cbv beta delta [call_argument_to_io]. label_walk. Qed.

#[local] Hint Resolve label_call_argument_to_io : labels.

Section LabelExpressions.

Variable U : list item_t.
Variable C : item_t -> Prop.
Variable lo : item_t.
Variable f : information -> expr -> information.

Lemma label_emit_cast_expression t s operand :
  label_on U C lo f operand ->
  forall m i j, label_step U C lo m i j ->
    label_step U C lo m i (emit_cast_expression f j (expr_cast t s operand)).
Proof.
  intros IH m i j H. unfold label_on in IH.
  cbv beta iota delta [emit_cast_expression]. label_walk.
Qed.

Lemma label_emit_identifier_expression nd :
  forall m i j, label_step U C lo m i j -> label_step U C lo m i (emit_identifier_expression j nd).
Proof. intros m i j H. cbv beta delta [emit_identifier_expression]. label_walk. Qed.

Lemma label_emit_literal_expression nd :
  forall m i j, label_step U C lo m i j -> label_step U C lo m i (emit_literal_expression j nd).
Proof. intros m i j H. cbv beta delta [emit_literal_expression]. label_walk. Qed.

Lemma label_emit_call_expression t callee args :
  Forall (label_on U C lo f) args ->
  forall m i j, label_step U C lo m i j ->
    label_step U C lo m i (emit_call_expression f j (expr_call t callee args)).
Proof.
  intros IH m i j H. unfold label_on in IH.
  cbv beta iota delta [emit_call_expression]. label_walk.
Qed.

Lemma label_emit_member_expression nd :
  forall m i j, label_step U C lo m i j -> label_step U C lo m i (emit_member_expression j nd).
Proof.
  intros m i j H. destruct nd; cbv beta iota delta [emit_member_expression];
    try exact H. label_walk.
Qed.

Lemma label_slices_subscript t base index :
  label_slices U C lo f base -> label_on U C lo f index -> label_slices U C lo f (expr_subscript t base index).
Proof.
  intros IHbase IHindex id cur m i j H. unfold label_slices, label_on in *.
  cbn beta iota delta [emit_one_dimension_subscript]. label_walk.
Qed.

Lemma label_slices_leaf nd :
  match nd with expr_subscript _ _ _ => False | _ => True end ->
  label_slices U C lo f nd.
Proof.
  intros Hnd id cur m i j H. unfold label_slices.
  destruct nd; try contradiction;
    cbn beta iota delta [emit_one_dimension_subscript]; label_walk.
Qed.

Lemma label_emit_subscript_expression nd :
  label_slices U C lo f nd ->
  forall m i j, label_step U C lo m i j -> label_step U C lo m i (emit_subscript_expression f j nd).
Proof.
  intros IH m i j H. unfold label_slices in IH.
  cbv beta iota delta [emit_subscript_expression]. label_walk.
Qed.

Lemma label_emit_inc_dec_expression t op operand :
  label_on U C lo f operand ->
  forall m i j, label_step U C lo m i j ->
    label_step U C lo m i (emit_inc_dec_expression f j (expr_unary t op operand)).
Proof.
  intros IH m i j H. unfold label_on in IH.
  cbv beta iota delta [emit_inc_dec_expression]. label_walk.
Qed.

Lemma label_emit_unary_expression t op operand :
  label_on U C lo f operand ->
  forall m i j, label_step U C lo m i j ->
    label_step U C lo m i (emit_unary_expression f j (expr_unary t op operand)).
Proof.
  intros IH m i j H.
  pose proof (label_emit_inc_dec_expression t op operand IH) as Hinc.
  unfold label_on in IH.
  cbv beta iota delta [emit_unary_expression].
  destruct op; try label_walk.
  label_enter. label_walk.
Qed.

Lemma label_emit_integral_expression t op LHS RHS kind :
  label_on U C lo f LHS -> label_on U C lo f RHS ->
  forall m i j, label_step U C lo m i j ->
    label_step U C lo m i (emit_integral_expression f j (expr_binary t op LHS RHS) kind).
Proof.
  intros IHL IHR m i j H. unfold label_on in *.
  cbv beta iota delta [emit_integral_expression]. label_walk.
Qed.

Lemma label_emit_assignment_expression t op LHS RHS :
  label_on U C lo f LHS -> label_on U C lo f RHS ->
  forall m i j, label_step U C lo m i j ->
    label_step U C lo m i (emit_assignment_expression f j (expr_binary t op LHS RHS)).
Proof.
  intros IHL IHR m i j H. unfold label_on in *.
  cbv beta iota delta [emit_assignment_expression]. label_walk.
Qed.

Lemma label_emit_binary_expression t op LHS RHS :
  label_on U C lo f LHS -> label_on U C lo f RHS ->
  forall m i j, label_step U C lo m i j ->
    label_step U C lo m i (emit_binary_expression f j (expr_binary t op LHS RHS)).
Proof.
  intros IHL IHR m i j H.
  pose proof (label_emit_integral_expression t op LHS RHS AREG IHL IHR) as Hint1.
  pose proof (label_emit_integral_expression t op LHS RHS ALOGIC IHL IHR) as Hint2.
  pose proof (label_emit_assignment_expression t op LHS RHS IHL IHR) as Hass.
  unfold label_on in *.
  cbv beta iota delta [emit_binary_expression].
  destruct (operation_is_assignment op); [apply Hass; exact H|].
  destruct op; try exact H; try (apply Hint1; exact H);
    try (apply Hint2; exact H); label_alloc 1; label_walk.
Qed.

Lemma label_emit_ternary_expression t c LHS RHS :
  label_on U C lo f c -> label_on U C lo f LHS -> label_on U C lo f RHS ->
  forall m i j, label_step U C lo m i j ->
    label_step U C lo m i (emit_ternary_expression f j (expr_ternary t c LHS RHS)).
Proof.
  intros IHc IHL IHR m i j H. unfold label_on in *.
  cbv beta iota delta [emit_ternary_expression]. label_alloc 3. label_walk.
Qed.

End LabelExpressions.

(** Every expression keeps the labels within bounds. *)
Lemma label_emit_expression_slices U C lo e :
  label_on U C lo emit_expression e /\ label_slices U C lo emit_expression e.
Proof.
  pattern e. apply expr_induction; clear e.
  - split; [intros m i j Hq; exact Hq|apply label_slices_leaf; exact I].
  - intros t id. split; [|apply label_slices_leaf; exact I].
    intros m i j Hq. rewrite emit_expression_eq.
    apply label_emit_identifier_expression. exact Hq.
  - intros t a. split; [|apply label_slices_leaf; exact I].
    intros m i j Hq. rewrite emit_expression_eq.
    apply label_emit_literal_expression. exact Hq.
  - intros t base index [_ IHbase] [IHindex _].
    assert (Hs : label_slices U C lo emit_expression (expr_subscript t base index))
      by (apply label_slices_subscript; assumption).
    split; [|exact Hs].
    intros m i j Hq. rewrite emit_expression_eq.
    apply label_emit_subscript_expression; assumption.
  - intros t callee args _ IHargs. split; [|apply label_slices_leaf; exact I].
    intros m i j Hq. rewrite emit_expression_eq.
    apply label_emit_call_expression; [|exact Hq].
    eapply Forall_impl; [exact IHargs|]. intros a [Ha _]. exact Ha.
  - intros t base mem _. split; [|apply label_slices_leaf; exact I].
    intros m i j Hq. rewrite emit_expression_eq.
    apply label_emit_member_expression. exact Hq.
  - intros t s operand [IH _]. split; [|apply label_slices_leaf; exact I].
    intros m i j Hq. rewrite emit_expression_eq.
    apply label_emit_cast_expression; assumption.
  - intros t op operand [IH _]. split; [|apply label_slices_leaf; exact I].
    intros m i j Hq. rewrite emit_expression_eq.
    apply label_emit_unary_expression; assumption.
  - intros t op LHS RHS [IHL _] [IHR _]. split; [|apply label_slices_leaf; exact I].
    intros m i j Hq. rewrite emit_expression_eq.
    apply label_emit_binary_expression; assumption.
  - intros t c LHS RHS [IHc _] [IHL _] [IHR _].
    split; [|apply label_slices_leaf; exact I].
    intros m i j Hq. rewrite emit_expression_eq.
    apply label_emit_ternary_expression; assumption.
  - intros t subexprs _. split; [|apply label_slices_leaf; exact I].
    intros m i j Hq. exact Hq.
  - intros t. split; [|apply label_slices_leaf; exact I].
    intros m i j Hq. exact Hq.
Qed.

Lemma label_emit_expression U C lo e m i j :
  label_step U C lo m i j -> label_step U C lo m i (emit_expression j e).
Proof. apply (label_emit_expression_slices U C lo e). Qed.

#[local] Hint Resolve label_emit_expression : labels.


Lemma label_emit_one_dimension_initialization U C lo nd :
  forall id arr_type cur prev is_local m i j,
    label_step U C lo m i j ->
    label_step U C lo m i
      (emit_one_dimension_initialization j nd id arr_type cur prev is_local).
Proof.
  pattern nd. apply expr_induction; clear nd;
    try (intros; cbn beta iota fix delta [emit_one_dimension_initialization];
         assumption).
  intros t subexprs IH id arr_type cur prev is_local m i j Hq.
  cbn beta iota fix delta [emit_one_dimension_initialization]. label_walk.
Qed.

#[local] Hint Resolve label_emit_one_dimension_initialization : labels.

Lemma label_emit_initialization U C lo nd id arr_type m i j :
  label_step U C lo m i j -> label_step U C lo m i (emit_initialization j nd id arr_type).
Proof. intros H. cbv beta delta [emit_initialization]. label_walk. Qed.

#[local] Hint Resolve label_emit_initialization : labels.

Lemma label_emit_variable_declaration U C lo nd is_local m i j :
  label_step U C lo m i j -> label_step U C lo m i (emit_variable_declaration j nd is_local).
Proof.
  intros H. destruct nd; cbv beta iota delta [emit_variable_declaration];
    try exact H.
  label_walk.
Qed.

#[local] Hint Resolve label_emit_variable_declaration : labels.

(** *** Statements keep the labels within bounds *)

Lemma statement_labels_in (s : stmt) (ss : list stmt) :
  s ∈ ss -> incl (statement_labels s) (flat_map statement_labels ss).
Proof.
  intros Hs k Hk. apply in_flat_map. exists s.
  split; [apply list_elem_of_In; exact Hs|exact Hk].
Qed.

Lemma declaration_labels_in (d : decl) (ds : list decl) :
  d ∈ ds -> incl (declaration_labels d) (flat_map declaration_labels ds).
Proof.
  intros Hd k Hk. apply in_flat_map. exists d.
  split; [apply list_elem_of_In; exact Hd|exact Hk].
Qed.

Section LabelStatements.

Variable U : list item_t.
Variable C : item_t -> Prop.
Variable lo : item_t.

Lemma label_emit_compound_statement ss b :
  Forall (fun s => forall m i j, label_step U C lo m i j ->
                     label_step U C lo m i (emit_statement j s)) ss ->
  forall m i j, label_step U C lo m i j ->
    label_step U C lo m i
      (emit_compound_statement emit_statement j (stmt_compound ss) b).
Proof.
  intros IH m i j H. cbv beta iota delta [emit_compound_statement]. label_walk.
Qed.

Lemma label_emit_compound_other nd b m i j :
  match nd with stmt_compound _ => False | _ => True end ->
  label_step U C lo m i j ->
  label_step U C lo m i (emit_compound_statement emit_statement j nd b).
Proof.
  intros Hnd H. destruct nd; try contradiction;
    cbv beta iota delta [emit_compound_statement]; label_walk.
Qed.

Lemma label_emit_return_statement nd m i j :
  label_step U C lo m i j -> label_step U C lo m i (emit_return_statement j nd).
Proof.
  intros H. destruct nd; try exact H.
  cbv beta iota delta [emit_return_statement]. label_walk.
Qed.

Lemma keeps_fresh_of (s : stmt) :
  match s with stmt_compound _ => False | _ => True end ->
  (incl (statement_labels s) U ->
   forall m i j, label_step U C lo m i j ->
     label_step U C lo m i (emit_statement j s)) ->
  keeps_fresh U C lo s.
Proof.
  intros Hs H Hincl. split; [exact (H Hincl)|].
  intros b m i j Hk. apply label_emit_compound_other; assumption.
Qed.

Lemma keeps_fresh_emit_statement s : keeps_fresh U C lo s.
Proof.
  pattern s.
  apply (stmt_induction _
           (fun d => incl (declaration_labels d) U ->
                     forall l m i j, label_step U C lo m i j ->
                       label_step U C lo m i (emit_declaration j d l))); clear s.
  - intros ds IH. apply keeps_fresh_of; [exact I|]. intros Hincl m i j H.
    assert (IH' : Forall (fun d => forall l m i j, label_step U C lo m i j ->
                            label_step U C lo m i (emit_declaration j d l)) ds).
    { apply Forall_forall. intros d Hd.
      apply (proj1 (Forall_forall _ _) IH d Hd).
      eapply incl_tran; [apply declaration_labels_in; exact Hd|exact Hincl]. }
    clear IH.
    rewrite emit_statement_eq. cbv beta iota delta [emit_declaration_statement].
    label_walk.
  - intros l s IH. apply keeps_fresh_of; [exact I|]. intros Hincl m i j H.
    assert (Hl : In (item_wrap (- item_wrap l)) U)
      by (apply Hincl; left; reflexivity).
    destruct IH as [IH _];
      [intros k Hk; apply Hincl; right; exact Hk|].
    rewrite emit_statement_eq. cbv beta iota delta [emit_labeled_statement].
    label_walk.
  - intros e s _. apply keeps_fresh_of; [exact I|]. intros _ m i j H. exact H.
  - intros s _. apply keeps_fresh_of; [exact I|]. intros _ m i j H. exact H.
  - intros ss IH Hincl.
    assert (IH' : Forall (fun s => forall m i j, label_step U C lo m i j ->
                            label_step U C lo m i (emit_statement j s)) ss).
    { apply Forall_forall. intros a Ha.
      apply (proj1 (Forall_forall _ _) IH a Ha).
      eapply incl_tran; [apply statement_labels_in; exact Ha|exact Hincl]. }
    split.
    + intros m i j H. rewrite emit_statement_eq.
      apply label_emit_compound_statement; assumption.
    + intros b m i j H. apply label_emit_compound_statement; assumption.
  - intros e. apply keeps_fresh_of; [exact I|]. intros _ m i j H.
    rewrite emit_statement_eq. label_base.
  - apply keeps_fresh_of; [exact I|]. intros _ m i j H. exact H.
  - intros c s IH o IHo. apply keeps_fresh_of; [exact I|]. intros Hincl m i j H.
    cbn [statement_labels] in Hincl.
    destruct IH as [IH _]; [eapply incl_tran; [apply incl_appl, incl_refl|exact Hincl]|].
    destruct o as [s'|];
      [destruct IHo as [IHo _];
         [eapply incl_tran; [apply incl_appr, incl_refl|exact Hincl]|]|];
      rewrite emit_statement_eq; cbv beta iota delta [emit_if_statement];
      label_alloc 3; label_walk.
  - intros c s _. apply keeps_fresh_of; [exact I|]. intros _ m i j H. exact H.
  - intros c s IH. apply keeps_fresh_of; [exact I|]. intros Hincl m i j H.
    destruct IH as [IH _]; [exact Hincl|].
    rewrite emit_statement_eq. cbv beta iota delta [emit_while_statement].
    label_alloc 3. label_walk.
  - intros s c IH. apply keeps_fresh_of; [exact I|]. intros Hincl m i j H.
    destruct IH as [IH _]; [exact Hincl|].
    rewrite emit_statement_eq. cbv beta iota delta [emit_do_statement].
    label_alloc 2. label_walk.
  - intros o c n s IHo IH. apply keeps_fresh_of; [exact I|]. intros Hincl m i j H.
    cbn [statement_labels] in Hincl.
    destruct IH as [IH _]; [eapply incl_tran; [apply incl_appr, incl_refl|exact Hincl]|].
    destruct o as [s'|];
      [destruct IHo as [IHo _];
         [eapply incl_tran; [apply incl_appl, incl_refl|exact Hincl]|]|];
      rewrite emit_statement_eq; cbv beta iota delta [emit_for_statement];
      label_alloc 4; label_walk.
  - intros l. apply keeps_fresh_of; [exact I|]. intros Hincl m i j H.
    assert (Hl : In (item_wrap l) U) by (apply Hincl; left; reflexivity).
    rewrite emit_statement_eq. label_base.
  - apply keeps_fresh_of; [exact I|]. intros _ m i j H.
    rewrite emit_statement_eq. label_base.
  - apply keeps_fresh_of; [exact I|]. intros _ m i j H.
    rewrite emit_statement_eq. label_base.
  - intros o. apply keeps_fresh_of; [exact I|]. intros _ m i j H.
    rewrite emit_statement_eq. apply label_emit_return_statement. exact H.
  - apply keeps_fresh_of; [exact I|]. intros _ m i j H. exact H.
  - intros id dims init _ l m i j H. rewrite emit_declaration_eq. label_base.
  - intros id params body IH Hincl l m i j H.
    destruct IH as [_ IH]; [exact Hincl|].
    rewrite emit_declaration_eq.
    cbv beta iota delta [emit_function_definition]. label_walk.
  - intros _ l m i j H. exact H.
Qed.

End LabelStatements.

(** *** [if], [while], [do] and [for] use the labels they take *)

Lemma label_step_fresh U C n i x :
  label_step U C (label_num i) (label_num i + n) i x ->
  label_num i + n <= label_num x
  /\ exists out,
       io x = io i ++ out
       /\ Forall (labels_within U C (label_num i) (label_num x)) out.
Proof.
  intros (_ & Hm & _ & _ & _ & _ & out & E & H).
  split; [exact Hm|]. exists out. split; [exact E|exact H].
Qed.

(** The state in which the emitter has set the context to its labels is
    the first state of the walk; the emitter ends by setting the context
    back, which changes neither the lines nor the counter. *)
Ltac label_context :=
  apply label_step_start;
  cbn [io label_num label_true label_false label_break label_continue
       set_label_num set_label_true set_label_false set_label_break
       set_label_continue];
  first [ reflexivity | lia | right; lia | left; left; reflexivity
        | left; right; reflexivity ].

Ltac fresh_labels_walk n :=
  lazymatch goal with
  | |- fresh_labels _ ?C ?info ?s =>
      unfold fresh_labels; rewrite emit_statement_eq;
      cbv beta iota zeta
        delta [emit_if_statement emit_while_statement emit_do_statement
               emit_for_statement];
      lazymatch goal with
      | |- _ <= label_num ?Y /\ _ =>
          let X :=
            lazymatch Y with
            | set_label_continue _
                (set_label_break _ (set_label_false _ (set_label_true _ ?X))) =>
                constr:(X)
            | set_label_false _ (set_label_true _ ?X) => constr:(X)
            end in
          let HX := fresh "HX" in
          enough (HX : label_step (statement_labels s) C (label_num info)
                         (label_num info + n) info X)
            by exact (label_step_fresh _ _ _ _ _ HX)
      end;
      let j0 := fresh "j" in
      first
        [ set (j0 := set_label_continue _
                       (set_label_break _
                          (set_label_false _
                             (set_label_true _ (set_label_num _ info)))))
        | set (j0 := set_label_false _
                       (set_label_true _ (set_label_num _ info))) ];
      let H0 := fresh "H" in
      assert (H0 : label_step (statement_labels s) C (label_num info)
                     (label_num info + n) info j0)
        by (unfold j0; label_context);
      clearbody j0; label_auto
  end.

Lemma fresh_labels_if info c s o :
  fresh_labels 3 (loop_exit info) info (stmt_if c s o).
Proof.
  destruct (keeps_fresh_emit_statement (statement_labels (stmt_if c s o))
              (loop_exit info) (label_num info) s)
    as [IH _]; [apply incl_appl, incl_refl|].
  destruct o as [s'|]; [|fresh_labels_walk 3].
  destruct (keeps_fresh_emit_statement (statement_labels (stmt_if c s (Some s')))
              (loop_exit info) (label_num info) s')
    as [IH' _]; [apply incl_appr, incl_refl|].
  fresh_labels_walk 3.
Qed.

Lemma fresh_labels_while info c s :
  fresh_labels 3 no_label info (stmt_while c s).
Proof.
  destruct (keeps_fresh_emit_statement (statement_labels (stmt_while c s))
              no_label (label_num info) s)
    as [IH _]; [apply incl_refl|].
  fresh_labels_walk 3.
Qed.

Lemma fresh_labels_do info s c :
  fresh_labels 2 no_label info (stmt_do s c).
Proof.
  destruct (keeps_fresh_emit_statement (statement_labels (stmt_do s c))
              no_label (label_num info) s)
    as [IH _]; [apply incl_refl|].
  fresh_labels_walk 2.
Qed.

Lemma fresh_labels_for info o c n s :
  fresh_labels 4 no_label info (stmt_for o c n s).
Proof.
  destruct (keeps_fresh_emit_statement (statement_labels (stmt_for o c n s))
              no_label (label_num info) s)
    as [IH _]; [apply incl_appr, incl_refl|].
  destruct o as [s'|].
  - destruct (keeps_fresh_emit_statement
                (statement_labels (stmt_for (Some s') c n s))
                no_label (label_num info) s')
      as [IH' _]; [apply incl_appl, incl_refl|].
    destruct c, n; fresh_labels_walk 4.
  - destruct c, n; fresh_labels_walk 4.
Qed.

(** C10 (as amended).  Every statement leaves [label_break] and
    [label_continue] as it found them.  [if], [while], [do] and [for] also
    leave [label_true] and [label_false] as they found them, and use
    labels of their own in between: the counter of labels advances by 3,
    3, 2 and 4 or more, every label placed in their lines was taken from
    the counter in their emission or is a label of the program written in
    the statement, and so is every label that their lines branch to; in
    an [if] a branch may also go where [break] and [continue] go in the
    context of the [if]. *)
Theorem emit_statement_label_context info nd :
  label_break (emit_statement info nd) = label_break info
  /\ label_continue (emit_statement info nd) = label_continue info
  /\ match nd with
     | stmt_if _ _ _ =>
         label_true (emit_statement info nd) = label_true info
         /\ label_false (emit_statement info nd) = label_false info
         /\ fresh_labels 3 (loop_exit info) info nd
     | stmt_while _ _ =>
         label_true (emit_statement info nd) = label_true info
         /\ label_false (emit_statement info nd) = label_false info
         /\ fresh_labels 3 no_label info nd
     | stmt_do _ _ =>
         label_true (emit_statement info nd) = label_true info
         /\ label_false (emit_statement info nd) = label_false info
         /\ fresh_labels 2 no_label info nd
     | stmt_for _ _ _ _ =>
         label_true (emit_statement info nd) = label_true info
         /\ label_false (emit_statement info nd) = label_false info
         /\ fresh_labels 4 no_label info nd
     | _ => True
     end.
Proof.
  destruct (keeps_labels_emit_statement nd) as [H _].
  destruct (H info info (labels_kept_refl info)) as [Hb Hc].
  split; [exact Hb|]. split; [exact Hc|].
  destruct nd; try exact I; (split; [reflexivity|split; [reflexivity|]]).
  - apply fresh_labels_if.
  - apply fresh_labels_while.
  - apply fresh_labels_do.
  - apply fresh_labels_for.
Qed.

(** C10, as stated, fails on the expression statement [!x;] emitted where
    [label_true] is 1 and [label_false] is 2: the two labels are swapped. *)
Lemma emit_statement_swaps_condition_labels :
  label_true ex_in_branch = 1 /\ label_false ex_in_branch = 2
  /\ label_true (emit_statement ex_in_branch (stmt_expr ex_lognot)) = 2
  /\ label_false (emit_statement ex_in_branch (stmt_expr ex_lognot)) = 1.
Proof. repeat split; vm_compute; reflexivity. Qed.

End LLVMGenFacts.
